(** * The AdEx neuron ensemble of [models/nodes/aEIF.py]

    A shallow embedding of the class [aEIF]: its constructor, the Euler
    update [updateVar], the spike protocol [_spikes_eval], one call of
    the object ([__call__], the step of the simulation) and the driver at
    the end of the module.

    Conventions of the embedding.
    - A Python float (and a NumPy float64) is read as a real number: the
      arithmetic is exact, rounding and overflow are left out.
    - NumPy does not raise when an array is divided by zero: the quotients
      are inf, -inf or nan, and the arithmetic carries them on.  The
      intermediate arrays of the model hold such values ([float64]), so that
      what the code raises after such a division, the model raises.  The
      attributes of the model's object hold real numbers: where the code
      assigns an array with inf or nan to an attribute and goes on, the model
      ends with [NonFinite], which is no outcome of the code.
    - A NumPy array of one dimension is a list; an operation on two arrays
      follows NumPy's broadcasting rule and raises [ValueError] when the
      shapes do not agree.
    - The counters are a NumPy array of [dtype=int]: 64-bit signed integers,
      an integer in [Z] with the wrap-around written where the code adds.  A
      Python integer that meets such an array is converted to its type, and
      NumPy raises [OverflowError] when it does not fit.
    - The object is mutable and its methods raise: a method is a function
      from the object's attributes to an outcome and the attributes as they
      are when the method returns or raises.
    - The base class [Neurons] (module [base_Mod]) is not among the files
      of the repository that this development reads; its constructor is
      modelled from the specification. *)

From Stdlib Require Import Reals Lra Lia ZArith String.
From stdpp Require Import base decidable option list.

#[local] Open Scope R_scope.

(** * The program *)

(** ** Real numbers: decidable comparisons, Python's [round], 64-bit integers *)

#[global] Instance Rlt_decision (x y : R) : Decision (x < y) := Rlt_dec x y.

#[global] Instance Rgt_decision (x y : R) : Decision (x > y) := Rgt_dec x y.

#[global] Instance Rge_decision (x y : R) : Decision (x >= y) := Rge_dec x y.

#[global] Instance Req_decision : EqDecision R := Req_dec_T.

#[global] Instance R_inhabited : Inhabited R := populate 0.

(** [round(x)] of a float: the nearest integer, a tie goes to the even one. *)
Definition py_round (x : R) : Z :=
  let f := Zfloor x in
  let r := x - IZR f in
  if decide (r < 1 / 2) then f
  else if decide (r > 1 / 2) then (f + 1)%Z
  else if Z.even f then f else (f + 1)%Z.

(** [int(x)] of a float: the integer towards zero. *)
Definition py_int (x : R) : Z :=
  if decide (0 <= x) then Zfloor x else Zceil x.

(** The counters are an array of [dtype=int], 64-bit signed integers. *)
Definition wrap64 (z : Z) : Z :=
  ((z + 2 ^ 63) mod 2 ^ 64 - 2 ^ 63)%Z.

(** ** Outcomes *)

Inductive exn : Set :=
| ValueError            (* shapes that do not broadcast, a negative dimension *)
| IndexError            (* an index outside the array *)
| ZeroDivisionError     (* a Python number divided by zero *)
| AttributeError        (* an attribute read before it was assigned *)
| OverflowError         (* a Python integer too large for an int64 array *)
| InvalidConfiguration. (* the constructor's refusal *)

(** What a computation comes to: a value, an exception, or [NonFinite] where
    the model cannot follow the code, which goes on with inf or nan in an
    attribute. *)
Inductive result (A : Type) : Type :=
| Ok (x : A)
| Raise (e : exn)
| NonFinite.

Arguments Ok {A} x.
Arguments Raise {A} e.
Arguments NonFinite {A}.

#[global] Instance result_ret : MRet result := fun _ x => Ok x.

#[global] Instance result_bind : MBind result := fun _ _ f r =>
  match r with
  | Ok x => f x
  | Raise e => Raise e
  | NonFinite => NonFinite
  end.

(** [x / y] on Python numbers. *)
Definition py_div (x y : R) : result R :=
  if decide (y = 0) then Raise ZeroDivisionError else Ok (x / y).

(** A Python integer as the operand of an [int64] array. *)
Definition int64_of_int (z : Z) : result Z :=
  if decide (- 2 ^ 63 <= z < 2 ^ 63)%Z then Ok z else Raise OverflowError.

(** ** Floats that are not real numbers *)

(** An element of an intermediate array: a real number, or one of the three
    values that a division by zero leaves. *)
Inductive float64 : Type :=
| Fin (x : R)
| PInf
| NInf
| NaN.

(** The arithmetic of IEEE 754 on these values, rounding left out. *)
Definition fl_add (x y : float64) : float64 :=
  match x, y with
  | Fin a, Fin b => Fin (a + b)
  | NaN, _ | _, NaN => NaN
  | PInf, NInf | NInf, PInf => NaN
  | PInf, _ | _, PInf => PInf
  | NInf, _ | _, NInf => NInf
  end.

Definition fl_sub (x y : float64) : float64 :=
  match x, y with
  | Fin a, Fin b => Fin (a - b)
  | NaN, _ | _, NaN => NaN
  | PInf, PInf | NInf, NInf => NaN
  | PInf, _ | _, NInf => PInf
  | NInf, _ | _, PInf => NInf
  end.

(** An infinity times a real number: the sign of the product, nan at zero. *)
Definition fl_scale (a : R) (inf_ : float64) : float64 :=
  if decide (0 < a) then inf_
  else if decide (a < 0) then
    match inf_ with PInf => NInf | NInf => PInf | _ => NaN end
  else NaN.

Definition fl_mul (x y : float64) : float64 :=
  match x, y with
  | Fin a, Fin b => Fin (a * b)
  | NaN, _ | _, NaN => NaN
  | Fin a, PInf | PInf, Fin a => fl_scale a PInf
  | Fin a, NInf | NInf, Fin a => fl_scale a NInf
  | PInf, PInf | NInf, NInf => PInf
  | PInf, NInf | NInf, PInf => NInf
  end.

(** [np.exp] *)
Definition fl_exp (x : float64) : float64 :=
  match x with
  | Fin a => Fin (exp a)
  | PInf => PInf
  | NInf => Fin 0
  | NaN => NaN
  end.

(** A real number of an array divided by a Python number. *)
Definition fl_div (x y : R) : float64 :=
  if decide (y = 0) then
    if decide (0 < x) then PInf else if decide (x < 0) then NInf else NaN
  else Fin (x / y).

Definition real_of (x : float64) : option R :=
  match x with Fin a => Some a | _ => None end.

(** ** One-dimensional arrays *)

Section NumPy.

Context {A B D : Type}.

(** An elementwise operation on two arrays: equal lengths, or one of the
    two of length one, which is then repeated. *)
Definition broadcast (f : A -> B -> D) (xs : list A) (ys : list B)
  : result (list D) :=
  if decide (length xs = length ys) then Ok (zip_with f xs ys)
  else match xs, ys with
       | [x], _ => Ok (fmap (f x) ys)
       | _, [y] => Ok (fmap (fun x => f x y) xs)
       | _, _ => Raise ValueError
       end.

(** [np.where(mask)] on one dimension: the indices that hold [True],
    in increasing order. *)
Definition np_where (mask : list bool) : list nat :=
  filter (fun i => mask !! i = Some true) (seq 0 (length mask)).

(** [xs[idx]], the elements at the indices of an index array. *)
Definition getitem (xs : list A) (idx : list nat) : result (list A) :=
  match mapM (fun i => xs !! i) idx with
  | Some vs => Ok vs
  | None => Raise IndexError
  end.

(** The store behind [xs[idx] = ...], once the indices are checked. *)
Definition put_all (xs : list A) (idx : list nat) (vs : list A) : list A :=
  foldl (fun acc iv => <[iv.1 := iv.2]> acc) xs (zip idx vs).

(** [xs[idx] = v], one value for every index. *)
Definition setitem_scalar (xs : list A) (idx : list nat) (v : A)
  : result (list A) :=
  if decide (Forall (fun i => (i < length xs)%nat) idx)
  then Ok (put_all xs idx (replicate (length idx) v))
  else Raise IndexError.

(** [xs[idx] = vs], an array of values: as many as indices, or one. *)
Definition setitem (xs : list A) (idx : list nat) (vs : list A)
  : result (list A) :=
  if decide (length vs = length idx) then
    if decide (Forall (fun i => (i < length xs)%nat) idx)
    then Ok (put_all xs idx vs) else Raise IndexError
  else match vs with
       | [v] => setitem_scalar xs idx v
       | _ => Raise ValueError
       end.

End NumPy.

(** An array divided by a Python number: NumPy does not raise on zero, it
    warns, and the quotients are inf, -inf or nan. *)
Definition np_div (xs : list R) (y : R) : list float64 :=
  fmap (fun x => fl_div x y) xs.

(** An array on its way into an attribute.  The object of the model holds
    real numbers: with inf or nan in the array the code goes on and the model
    ends. *)
Definition reals (xs : list float64) : result (list R) :=
  match mapM real_of xs with
  | Some rs => Ok rs
  | None => NonFinite
  end.

(** [np.ones(n)] *)
Definition np_ones (n : Z) : result (list R) :=
  if decide (n < 0)%Z then Raise ValueError else Ok (replicate (Z.to_nat n) 1).

(** [np.zeros(n)] and [np.zeros(n, dtype=int)] *)
Definition np_zeros {A} (zero : A) (n : Z) : result (list A) :=
  if decide (n < 0)%Z then Raise ValueError else Ok (replicate (Z.to_nat n) zero).

(** ** The object *)

(** The attributes that no method reassigns: [num], [method] and [dt] set
    by the base class, the others by [_params]. *)
Record params : Type := {
  num : Z;
  method : string;
  dt : R;
  C : R;
  g_L : R;
  E_L : R;
  VT_rest : R;
  Delta_T : R;
  tau_w : R;
  a : R;
  b : R;
  w_jump : R;
  tau_wtail : R;
  tau_VT : R;
  VT_jump : R;
  th : R;
  Iex : R;
  t_spike : R
}.

(** The clock of [_params], the attributes of [_vars], and [dw_dt], which
    does not exist before the first [updateVar]. *)
Record aEIF : Type := {
  par : params;
  t : R;
  mem : list R;
  w : list R;
  w_tail : list R;
  V_T : list R;
  N_vars : Z;
  counter : list Z;
  dw_dt : option (list R)
}.

Definition set_t (x : R) (self : aEIF) : aEIF :=
  {| par := par self; t := x; mem := mem self; w := w self;
     w_tail := w_tail self; V_T := V_T self; N_vars := N_vars self;
     counter := counter self; dw_dt := dw_dt self |}.

Definition set_mem (xs : list R) (self : aEIF) : aEIF :=
  {| par := par self; t := t self; mem := xs; w := w self;
     w_tail := w_tail self; V_T := V_T self; N_vars := N_vars self;
     counter := counter self; dw_dt := dw_dt self |}.

Definition set_w (xs : list R) (self : aEIF) : aEIF :=
  {| par := par self; t := t self; mem := mem self; w := xs;
     w_tail := w_tail self; V_T := V_T self; N_vars := N_vars self;
     counter := counter self; dw_dt := dw_dt self |}.

Definition set_w_tail (xs : list R) (self : aEIF) : aEIF :=
  {| par := par self; t := t self; mem := mem self; w := w self;
     w_tail := xs; V_T := V_T self; N_vars := N_vars self;
     counter := counter self; dw_dt := dw_dt self |}.

Definition set_V_T (xs : list R) (self : aEIF) : aEIF :=
  {| par := par self; t := t self; mem := mem self; w := w self;
     w_tail := w_tail self; V_T := xs; N_vars := N_vars self;
     counter := counter self; dw_dt := dw_dt self |}.

Definition set_counter (cs : list Z) (self : aEIF) : aEIF :=
  {| par := par self; t := t self; mem := mem self; w := w self;
     w_tail := w_tail self; V_T := V_T self; N_vars := N_vars self;
     counter := cs; dw_dt := dw_dt self |}.

Definition set_dw_dt (xs : list R) (self : aEIF) : aEIF :=
  {| par := par self; t := t self; mem := mem self; w := w self;
     w_tail := w_tail self; V_T := V_T self; N_vars := N_vars self;
     counter := counter self; dw_dt := Some xs |}.

(** A method: the outcome, and the object as the method leaves it. *)
Definition M (A : Type) : Type := aEIF -> result A * aEIF.

#[global] Instance M_ret : MRet M := fun _ x self => (Ok x, self).

#[global] Instance M_bind : MBind M := fun _ _ f m self =>
  match m self with
  | (Ok x, self') => f x self'
  | (Raise e, self') => (Raise e, self')
  | (NonFinite, self') => (NonFinite, self')
  end.

Definition get : M aEIF := fun self => (Ok self, self).

Definition assign (f : aEIF -> aEIF) : M unit := fun self => (Ok tt, f self).

Definition lift {A} (r : result A) : M A := fun self => (r, self).

(** The external current of a call: a float, or an array. *)
Inductive operand : Type :=
| Scalar (x : R)
| Vector (xs : list R).

(** [Io + self.Iex] *)
Definition add_Iex (Io : operand) (iex : R) : operand :=
  match Io with
  | Scalar x => Scalar (x + iex)
  | Vector xs => Vector (fmap (fun x => x + iex) xs)
  end.

(** [xs + I], an array and the current. *)
Definition np_add_operand (xs : list float64) (I : operand)
  : result (list float64) :=
  match I with
  | Scalar c => Ok (fmap (fun x => fl_add x (Fin c)) xs)
  | Vector ys => broadcast fl_add xs (fmap Fin ys)
  end.

(** ** The constructors *)

(** Modelled from the spec: the constructor of the base class [Neurons]
    (module [base_Mod]), which [aEIF.__init__] calls first.  The spec has the
    construction fail with [InvalidConfiguration] if [N < 1] or [dt <= 0];
    otherwise the base class keeps the three arguments. *)
Definition Neurons__init__ (N : Z) (method_ : string) (dt_ : R)
  : result (Z * string * R) :=
  if decide (N < 1)%Z then Raise InvalidConfiguration
  else if decide (dt_ <= 0) then Raise InvalidConfiguration
  else Ok (N, method_, dt_).

(** [_params]: the constants of the model, the clock and the bias. *)
Definition _params (base : Z * string * R) : params * R :=
  ({| num := base.1.1; method := base.1.2; dt := base.2;
      C := 281;
      g_L := 30;
      E_L := -70.6;
      VT_rest := -50.4;
      Delta_T := 2;
      tau_w := 144;
      a := 4;
      b := 0.0805;
      w_jump := 400;
      tau_wtail := 40;
      tau_VT := 50;
      VT_jump := 20;
      th := 20;
      Iex := 0;
      t_spike := 2 |}, 0).

(** [_vars]: the state arrays. *)
Definition _vars (pt : params * R) : result aEIF :=
  let p := pt.1 in
  ones ← np_ones (num p);
  let mem_ := fmap (fun o => E_L p * o) ones in
  w_ ← np_zeros 0 (num p);
  w_tail_ ← np_zeros 0 (num p);
  ones' ← np_ones (num p);
  let V_T_ := fmap (fun o => -50.4 * o) ones' in
  counter_ ← np_zeros 0%Z (num p);
  Ok {| par := p; t := pt.2; mem := mem_; w := w_; w_tail := w_tail_;
        V_T := V_T_; N_vars := 4; counter := counter_; dw_dt := None |}.

(** [aEIF(N, method, dt)]: the base class first, then [_params] and
    [_vars]. *)
Definition __init__ (N : Z) (method_ : string) (dt_ : R) : result aEIF :=
  base ← Neurons__init__ N method_ dt_;
  _vars (_params base).

(** ** The Euler update *)

(** [updateVar(I)], statement by statement and operation by operation in
    Python's order of evaluation: the two derivatives from the attributes as
    the call found them, then the four assignments. *)
Definition updateVar (I : operand) : M unit :=
  self ← get;
  let p := par self in
  inv_C ← lift (py_div 1 (C p));
  let leak := fmap (fun x => - g_L p * x) (fmap (fun x => x - E_L p) (mem self)) in
  d ← lift (broadcast Rminus (mem self) (V_T self));
  let q := np_div d (Delta_T p) in
  let upswing := fmap (fl_mul (Fin (g_L p * Delta_T p))) (fmap fl_exp q) in
  s1 ← lift (broadcast fl_add (fmap Fin leak) upswing);
  s2 ← lift (broadcast fl_sub s1 (fmap Fin (w self)));
  s3 ← lift (broadcast fl_add s2 (fmap Fin (w_tail self)));
  s4 ← lift (np_add_operand s3 I);
  let dmem_dt := fmap (fl_mul (Fin inv_C)) s4 in
  inv_tau_w ← lift (py_div 1 (tau_w p));
  e ← lift (broadcast Rminus (fmap (fun x => a p * x)
                                (fmap (fun x => x - E_L p) (mem self))) (w self));
  assign (set_dw_dt (fmap (fun x => inv_tau_w * x) e));;
  mem' ← lift (broadcast fl_add (fmap Fin (mem self))
                 (fmap (fun x => fl_mul x (Fin (dt p))) dmem_dt));
  mem_ ← lift (reals mem');
  assign (set_mem mem_);;
  w' ← lift (broadcast Rplus (w self)
               (fmap (fun x => x * dt p) (fmap (fun x => inv_tau_w * x) e)));
  assign (set_w w');;
  let decay := np_div (fmap (fun x => x * dt p) (w_tail self)) (tau_wtail p) in
  w_tail' ← lift (broadcast fl_sub (fmap Fin (w_tail self)) decay);
  w_tail_ ← lift (reals w_tail');
  assign (set_w_tail w_tail_);;
  rest ← lift (py_div (VT_rest p * dt p) (tau_VT p));
  r ← lift (py_div (dt p) (tau_VT p));
  assign (set_V_T (fmap (fun x => rest + x)
                     (fmap (fun x => (1 - r) * x) (V_T self)))).

(** ** The spike protocol *)

(** The mask of the first block: over threshold and not in a spike. *)
Definition starts_mask (p : params) (mem_ : list R) (cs : list Z)
  : result (list bool) :=
  broadcast andb (fmap (fun x => bool_decide (x > th p)) mem_)
                 (fmap (fun c => bool_decide (c = 0%Z)) cs).

(** The mask of the second block: in a spike that has not lasted [t_spike]. *)
Definition active_mask (p : params) (cs : list Z) : result (list bool) :=
  broadcast andb (fmap (fun c => bool_decide (dt p * IZR c < t_spike p)) cs)
                 (fmap (fun c => bool_decide (0 < c)%Z) cs).

(** The mask of the third block: the spike has lasted [t_spike]. *)
Definition end_mask (p : params) (cs : list Z) : list bool :=
  fmap (fun c => bool_decide (dt p * IZR c >= t_spike p)) cs.

(** [conut = self.t_spike / self.dt - 1] *)
Definition conut (p : params) : result R :=
  ratio ← py_div (t_spike p) (dt p);
  Ok (ratio - 1).

(** The waveform of an active spike at tick [c], with [k = conut].  The
    difference and the absolute value are taken in the counters' integer
    type, to which [round(conut / 2)] has been converted. *)
Definition waveform_height (k : R) (c : Z) : R :=
  8.462 * IZR (wrap64 (Z.abs (wrap64 (py_round (k / 2) - c)))).

(** The index arrays of the three blocks, [np.where] of each mask. *)
Definition spike_starts (mem_ : list R) (self : aEIF) : result (list nat) :=
  mask ← starts_mask (par self) mem_ (counter self);
  Ok (np_where mask).

Definition active_spikes (self : aEIF) : result (list nat) :=
  mask ← active_mask (par self) (counter self);
  Ok (np_where mask).

Definition end_spikes (self : aEIF) : list nat :=
  np_where (end_mask (par self) (counter self)).

(** First block: the onset of a spike. *)
Definition spike_starts_block (mem_ : list R) : M unit :=
  self ← get;
  idx ← lift (spike_starts mem_ self);
  mem' ← lift (setitem_scalar (mem self) idx 24.4);
  assign (set_mem mem');;
  counter' ← lift (setitem_scalar (counter self) idx 1%Z);
  assign (set_counter counter').

(** Second block: the spike under way.  [round(conut / 2)] is a Python
    integer and the counters are [int64]: the difference converts the former,
    whether or not an index was selected. *)
Definition active_spikes_block : M unit :=
  self ← get;
  let p := par self in
  k ← lift (conut p);
  idx ← lift (active_spikes self);
  cs ← lift (getitem (counter self) idx);
  lift (int64_of_int (py_round (k / 2)));;
  let shape := np_div (fmap (waveform_height k) cs) k in
  mem' ← lift (setitem (fmap Fin (mem self)) idx
                 (fmap (fl_sub (Fin 32.862)) shape));
  mem_ ← lift (reals mem');
  assign (set_mem mem_);;
  ws ← lift (getitem (w self) idx);
  dw ← lift (match dw_dt self with
             | Some xs => Ok xs
             | None => Raise AttributeError
             end);
  dws ← lift (getitem dw idx);
  ws' ← lift (broadcast Rminus ws (fmap (fun x => x * dt p) dws));
  w' ← lift (setitem (w self) idx ws');
  assign (set_w w');;
  cs' ← lift (getitem (counter self) idx);
  counter' ← lift (setitem (counter self) idx
                     (fmap (fun c => wrap64 (c + 1)) cs'));
  assign (set_counter counter').

(** Third block: the end of the spike, the reset. *)
Definition end_spikes_block : M unit :=
  self ← get;
  let p := par self in
  let idx := end_spikes self in
  mem' ← lift (setitem_scalar (mem self) idx (E_L p + 15 + 6.0984));
  assign (set_mem mem');;
  ws ← lift (getitem (w self) idx);
  w' ← lift (setitem (w self) idx (fmap (fun x => x + b p) ws));
  assign (set_w w');;
  w_tail' ← lift (setitem_scalar (w_tail self) idx (w_jump p));
  assign (set_w_tail w_tail');;
  V_T' ← lift (setitem_scalar (V_T self) idx (VT_jump p + VT_rest p));
  assign (set_V_T V_T');;
  counter' ← lift (setitem_scalar (counter self) idx 0%Z);
  assign (set_counter counter').

(** [_spikes_eval(mem)]: the three blocks in the order of the source, each
    mask computed from the attributes as the block before left them. *)
Definition _spikes_eval (mem_ : list R) : M unit :=
  spike_starts_block mem_;;
  active_spikes_block;;
  end_spikes_block.

(** ** One call of the object, the step of the simulation, and the driver loop *)

(** [self(Io)]: the bias is added to the current, the Euler update and the
    spike protocol run, the clock moves on.  The argument [axis] of the
    source is not used by it. *)
Definition __call__ (Io : operand) : M unit :=
  self ← get;
  let I := add_Iex Io (Iex (par self)) in
  updateVar I;;
  self ← get;
  _spikes_eval (mem self);;
  self ← get;
  assign (set_t (t self + dt (par self))).

(** The driver loop, [for i in range(Tn): nodes(I_tot)], with one current
    per call. *)
Fixpoint run_calls (Ios : list operand) : M unit :=
  match Ios with
  | [] => mret tt
  | Io :: rest => __call__ Io;; run_calls rest
  end.

(** The loop of the module's driver as it is written: after each call the
    clock and a copy of the membrane potentials are appended to the two
    lists, [time] and [mem]. *)
Fixpoint driver_loop (I_tot : operand) (Tn : nat)
    (time : list R) (mem_ : list (list R)) : M (list R * list (list R)) :=
  match Tn with
  | O => mret (time, mem_)
  | S k =>
      __call__ I_tot;;
      self ← get;
      driver_loop I_tot k (time ++ [t self]) (mem_ ++ [mem self])
  end.

(** The driver, [if __name__ == "__main__"], up to the two lists it hands to
    [plt.plot]: [aEIF(n)] takes the default step of 0.25 ms, and [Tstep] only
    enters the number of calls. *)
Definition main : result (list R * list (list R)) :=
  let n := 2%Z in
  let I_tot := 1000 in
  nodes ← __init__ n "euler" 0.25;
  let Tstep := 0.01 in
  let Tshop := 150 in
  ratio ← py_div Tshop Tstep;
  let Tn := py_int ratio in
  (driver_loop (Scalar I_tot) (Z.to_nat Tn) [] [] nodes).1.

(** * What the statements speak of *)

(** ** The element of an array that neuron [i] meets *)

(** The element an operand contributes at index [i] under broadcasting. *)
Definition bcast_at {A} (ys : list A) (i : nat) : option A :=
  match ys with
  | [y] => Some y
  | _ => ys !! i
  end.

(** The current that reaches neuron [i]. *)
Definition current_at (I : operand) (i : nat) : option R :=
  match I with
  | Scalar c => Some c
  | Vector ys => bcast_at ys i
  end.

(** ** The stages of a call *)

(** The call up to the second block's mask, and up to the third block's. *)
Definition call_until_active (Io : operand) : M unit :=
  self ← get;
  updateVar (add_Iex Io (Iex (par self)));;
  self ← get;
  spike_starts_block (mem self).

Definition call_until_end (Io : operand) : M unit :=
  call_until_active Io;;
  active_spikes_block.

(** ** One neuron *)

(** The arrays seen at one index.  The functions below say what
    [updateVar] and each block do to the elements at that index; the lemmas
    [updateVar_neuron] to [call_neuron] prove that the array code does so. *)
Record neuron : Type := {
  n_mem : R;
  n_w : R;
  n_w_tail : R;
  n_V_T : R;
  n_counter : Z
}.

(** Neuron [i] of the ensemble: the elements at index [i] of the arrays. *)
Definition neuron_at (self : aEIF) (i : nat) : option neuron :=
  m ← mem self !! i;
  wi ← w self !! i;
  wt ← w_tail self !! i;
  vt ← V_T self !! i;
  c ← counter self !! i;
  Some {| n_mem := m; n_w := wi; n_w_tail := wt; n_V_T := vt;
          n_counter := c |}.

(** The conditions of the three masks at one neuron. *)
Definition starts_cond (p : params) (n : neuron) : bool :=
  bool_decide (n_mem n > th p) && bool_decide (n_counter n = 0%Z).

Definition active_cond (p : params) (n : neuron) : bool :=
  bool_decide (dt p * IZR (n_counter n) < t_spike p)
  && bool_decide (0 < n_counter n)%Z.

Definition end_cond (p : params) (n : neuron) : bool :=
  bool_decide (dt p * IZR (n_counter n) >= t_spike p).

(** The two derivatives of [updateVar]. *)
Definition dmem_dt_of (p : params) (I : R) (n : neuron) : R :=
  1 / C p * (- g_L p * (n_mem n - E_L p)
             + g_L p * Delta_T p * exp ((n_mem n - n_V_T n) / Delta_T p)
             - n_w n + n_w_tail n + I).

Definition dw_dt_of (p : params) (n : neuron) : R :=
  1 / tau_w p * (a p * (n_mem n - E_L p) - n_w n).

Definition neuron_updateVar (p : params) (I : R) (n : neuron) : neuron :=
  {| n_mem := n_mem n + dmem_dt_of p I n * dt p;
     n_w := n_w n + dw_dt_of p n * dt p;
     n_w_tail := n_w_tail n - n_w_tail n * dt p / tau_wtail p;
     n_V_T := VT_rest p * dt p / tau_VT p + (1 - dt p / tau_VT p) * n_V_T n;
     n_counter := n_counter n |}.

Definition neuron_starts (p : params) (n : neuron) : neuron :=
  if starts_cond p n then
    {| n_mem := 24.4; n_w := n_w n; n_w_tail := n_w_tail n;
       n_V_T := n_V_T n; n_counter := 1 |}
  else n.

Definition neuron_active (p : params) (dw : R) (n : neuron) : neuron :=
  if active_cond p n then
    let k := t_spike p / dt p - 1 in
    {| n_mem := 32.862 - waveform_height k (n_counter n) / k;
       n_w := n_w n - dw * dt p; n_w_tail := n_w_tail n;
       n_V_T := n_V_T n; n_counter := wrap64 (n_counter n + 1) |}
  else n.

Definition neuron_end (p : params) (n : neuron) : neuron :=
  if end_cond p n then
    {| n_mem := E_L p + 15 + 6.0984; n_w := n_w n + b p;
       n_w_tail := w_jump p; n_V_T := VT_jump p + VT_rest p;
       n_counter := 0 |}
  else n.

Definition neuron_call (p : params) (I : R) (n : neuron) : neuron :=
  neuron_end p
    (neuron_active p (dw_dt_of p n)
       (neuron_starts p (neuron_updateVar p I n))).

(** ** Well-formed ensembles *)

(** The five state arrays have one element per neuron. *)
Definition wf (n : nat) (self : aEIF) : Prop :=
  length (mem self) = n /\ length (w self) = n /\ length (w_tail self) = n /\
  length (V_T self) = n /\ length (counter self) = n.

(** A current that broadcasts against [n] neurons and leaves [n] of them:
    a float, an array of length [n], an array of length one. *)
Definition fits (n : nat) (Io : operand) : Prop :=
  match Io with
  | Scalar _ => True
  | Vector ys => length ys = n \/ length ys = 1%nat
  end.

(** The constants no division of a call fails on, and a positive step. *)
Definition sane (p : params) : Prop :=
  C p <> 0 /\ Delta_T p <> 0 /\ tau_w p <> 0 /\ tau_wtail p <> 0 /\
  tau_VT p <> 0 /\ 0 < dt p.

(** [ceil(t_spike / dt)], the number of steps of a spike, fits the counters'
    integer type. *)
Definition window_fits (p : params) : Prop :=
  (- 2 ^ 63 <= Zceil (t_spike p / dt p) < 2 ^ 63)%Z.

(** ** Ensembles as the constructor builds them *)

(** The constants of [_params], for [N] neurons and a step of [dt_]. *)
Definition default_params (N : Z) (dt_ : R) : params :=
  (_params (N, "euler"%string, dt_)).1.

(** [aEIF(1)]: one neuron, the default step of 0.25 ms. *)
Definition ensemble1 : aEIF :=
  {| par := default_params 1 0.25; t := 0;
     mem := [-70.6 * 1]; w := [0]; w_tail := [0]; V_T := [-50.4 * 1];
     N_vars := 4; counter := [0%Z]; dw_dt := None |}.

(** [aEIF(2)]: two neurons, as the driver of the module builds them. *)
Definition ensemble2 : aEIF :=
  {| par := default_params 2 0.25; t := 0;
     mem := [-70.6 * 1; -70.6 * 1]; w := [0; 0]; w_tail := [0; 0];
     V_T := [-50.4 * 1; -50.4 * 1];
     N_vars := 4; counter := [0%Z; 0%Z]; dw_dt := None |}.

(** The object after [nodes.Delta_T = x], an assignment from outside the
    class. *)
Definition with_Delta_T (x : R) (self : aEIF) : aEIF :=
  let p := par self in
  {| par := {| num := num p; method := method p; dt := dt p; C := C p;
               g_L := g_L p; E_L := E_L p; VT_rest := VT_rest p;
               Delta_T := x; tau_w := tau_w p; a := a p; b := b p;
               w_jump := w_jump p; tau_wtail := tau_wtail p;
               tau_VT := tau_VT p; VT_jump := VT_jump p; th := th p;
               Iex := Iex p; t_spike := t_spike p |};
     t := t self; mem := mem self; w := w self; w_tail := w_tail self;
     V_T := V_T self; N_vars := N_vars self; counter := counter self;
     dw_dt := dw_dt self |}.

(** The neuron of [ensemble1]. *)
Definition neuron1 : neuron :=
  {| n_mem := -70.6 * 1; n_w := 0; n_w_tail := 0; n_V_T := -50.4 * 1;
     n_counter := 0 |}.

(** The counter of [ensemble1] after the onset call and [j] further calls,
    [j <= 6]. *)
Definition window_counter (j : nat) : Z :=
  if decide (j = 6%nat) then 0 else Z.of_nat j + 2.

(** The adaptation current there: frozen, and raised by [b] at the reset. *)
Definition window_w (j : nat) : R :=
  if decide (j = 6%nat) then 0 + 0.0805 else 0.

(** ** Currents, the clock, and neurons that have not fired *)

(** Every current of a call satisfies [Q]. *)
Definition current_all (Q : R -> Prop) (Io : operand) : Prop :=
  match Io with
  | Scalar x => Q x
  | Vector ys => Forall Q ys
  end.

(** A method that leaves the constants and the clock alone, whatever its
    outcome. *)
Definition keeps_clock {A} (m : M A) : Prop :=
  forall self, par (m self).2 = par self /\ t (m self).2 = t self.

(** A neuron of the constructor's ensemble before its first spike, with its
    membrane potential between [lo] and [hi] and its adaptation current
    between [wlo] and [whi]: the counter, the threshold and the tail current
    are where [_vars] put them. *)
Definition unfired (lo hi wlo whi : R) (nr : neuron) : Prop :=
  n_counter nr = 0%Z /\ n_V_T nr = -50.4 /\ n_w_tail nr = 0 /\
  lo <= n_mem nr <= hi /\ wlo <= n_w nr <= whi.

(** * Lemmas *)

(** ** Arrays, element by element *)

Section NumPyFacts.

Context {A B D : Type}.
Implicit Types (i j : nat) (idx : list nat) (mask : list bool).

Lemma bcast_at_lookup {E} (ys : list E) i y :
  ys !! i = Some y -> bcast_at ys i = Some y.
Proof.
  destruct ys as [|y0 [|y1 ys]]; simpl; auto.
  destruct i; simpl; [auto | discriminate].
Qed.

Lemma broadcast_same_length (f : A -> B -> D) xs ys :
  length xs = length ys -> broadcast f xs ys = Ok (zip_with f xs ys).
Proof. intros E. unfold broadcast. now rewrite decide_True. Qed.

Lemma broadcast_lookup (f : A -> B -> D) xs ys zs i x y :
  broadcast f xs ys = Ok zs ->
  xs !! i = Some x -> bcast_at ys i = Some y ->
  zs !! i = Some (f x y).
Proof.
  unfold broadcast. intros Hb Hx Hy.
  destruct (decide (length xs = length ys)) as [E|E].
  - injection Hb as <-. rewrite lookup_zip_with, Hx. simpl.
    assert (ys !! i = Some y) as ->; [|done].
    destruct ys as [|y0 [|y1 ys]]; simpl in *; try done.
    apply lookup_lt_Some in Hx. rewrite E in Hx.
    destruct i; [simpl; congruence | simpl in Hx; lia].
  - destruct xs as [|x0 [|x1 xs]].
    + done.
    + injection Hb as <-. destruct i; [|done]. simpl in Hx.
      injection Hx as ->. rewrite list_lookup_fmap.
      destruct ys as [|y0 [|y1 ys]]; simpl in *; try done.
      now injection Hy as ->.
    + destruct ys as [|y0 [|y1 ys]]; try done.
      assert (zs = (fun x => f x y0) <$> x0 :: x1 :: xs) as -> by congruence.
      rewrite list_lookup_fmap, Hx. simpl in *.
      now injection Hy as ->.
Qed.

Lemma broadcast_lookup_same (f : A -> B -> D) xs ys zs i x y :
  broadcast f xs ys = Ok zs ->
  xs !! i = Some x -> ys !! i = Some y ->
  zs !! i = Some (f x y).
Proof.
  intros Hb Hx Hy. apply (broadcast_lookup f xs ys zs i x y Hb Hx).
  now apply bcast_at_lookup.
Qed.

Lemma elem_of_np_where mask i :
  i ∈ np_where mask <-> mask !! i = Some true.
Proof.
  unfold np_where. rewrite list_elem_of_filter, elem_of_seq.
  split; [tauto|]. intros H. split; [done|].
  apply lookup_lt_Some in H. lia.
Qed.

Lemma np_where_bound mask :
  Forall (fun i => (i < length mask)%nat) (np_where mask).
Proof.
  apply Forall_forall. intros i Hi. apply elem_of_np_where in Hi.
  eauto using lookup_lt_Some.
Qed.

Lemma put_all_fmap (xs : list A) idx (h : nat -> A) :
  put_all xs idx (h <$> idx) = foldl (fun acc i => <[i := h i]> acc) xs idx.
Proof.
  unfold put_all. revert xs. induction idx as [|i idx IH]; intros xs; simpl.
  - done.
  - apply IH.
Qed.

Lemma length_put_all (xs : list A) idx vs :
  length (put_all xs idx vs) = length xs.
Proof.
  unfold put_all. generalize (zip idx vs). intros ivs. revert xs.
  induction ivs as [|iv ivs IH]; intros xs; simpl; [done|].
  now rewrite IH, length_insert.
Qed.

Lemma lookup_put_all_fmap (xs : list A) idx (h : nat -> A) j :
  put_all xs idx (h <$> idx) !! j =
  if decide (j ∈ idx) then (fun _ => h j) <$> xs !! j else xs !! j.
Proof.
  rewrite put_all_fmap. revert xs.
  induction idx as [|i idx IH]; intros xs; simpl.
  - done.
  - rewrite IH, list_lookup_insert.
    pose proof (lookup_lt_is_Some xs j) as Hlt.
    destruct (decide (j ∈ i :: idx)) as [Hin|Hin];
      rewrite elem_of_cons in Hin;
      destruct (decide (j ∈ idx)) as [Hin'|Hin'];
      destruct (decide (i = j /\ (i < length xs)%nat)) as [[-> Hi]|Hn];
      destruct (xs !! j) as [x|] eqn:Ex; simpl; try done; try tauto.
    + apply Hlt in Hi. now destruct Hi.
    + apply Hlt in Hi. now destruct Hi.
    + destruct Hin as [->|?]; [|done]. destruct Hn. split; [done|].
      apply Hlt. eauto.
Qed.

Lemma replicate_as_fmap {E} (l : list E) (v : A) :
  replicate (length l) v = (fun _ => v) <$> l.
Proof. induction l as [|e l IH]; csimpl; [done|]. now rewrite IH. Qed.

Lemma setitem_scalar_ok (xs : list A) idx v xs' :
  setitem_scalar xs idx v = Ok xs' ->
  length xs' = length xs /\
  forall j, xs' !! j =
            if decide (j ∈ idx) then (fun _ => v) <$> xs !! j else xs !! j.
Proof.
  unfold setitem_scalar. case_decide; [|done]. intros [= <-].
  split; [apply length_put_all|]. intros j.
  rewrite replicate_as_fmap. apply (lookup_put_all_fmap xs idx (fun _ => v)).
Qed.

Lemma setitem_scalar_bound (xs : list A) idx v xs' :
  setitem_scalar xs idx v = Ok xs' ->
  Forall (fun i => (i < length xs)%nat) idx.
Proof. unfold setitem_scalar. now case_decide. Qed.

Lemma setitem_fmap_ok (xs : list A) idx (h : nat -> A) xs' :
  setitem xs idx (h <$> idx) = Ok xs' ->
  length xs' = length xs /\
  Forall (fun i => (i < length xs)%nat) idx /\
  forall j, xs' !! j =
            if decide (j ∈ idx) then (fun _ => h j) <$> xs !! j else xs !! j.
Proof.
  unfold setitem. rewrite decide_True by apply length_fmap.
  case_decide; [|done]. intros [= <-].
  split; [apply length_put_all|]. split; [done|].
  intros j. apply lookup_put_all_fmap.
Qed.

Lemma setitem_scalar_total (xs : list A) idx v :
  Forall (fun i => (i < length xs)%nat) idx ->
  exists xs', setitem_scalar xs idx v = Ok xs' /\ length xs' = length xs.
Proof.
  intros H. unfold setitem_scalar. rewrite decide_True by done.
  eexists. split; [done|]. apply length_put_all.
Qed.

Lemma setitem_run (xs : list A) idx vs :
  length vs = length idx ->
  Forall (fun i => (i < length xs)%nat) idx ->
  setitem xs idx vs = Ok (put_all xs idx vs).
Proof. intros E H. unfold setitem. now rewrite !decide_True. Qed.

Lemma setitem_total (xs : list A) idx vs :
  length vs = length idx ->
  Forall (fun i => (i < length xs)%nat) idx ->
  exists xs', setitem xs idx vs = Ok xs' /\ length xs' = length xs.
Proof.
  intros E H. unfold setitem. rewrite !decide_True by done.
  eexists. split; [done|]. apply length_put_all.
Qed.

End NumPyFacts.

Lemma getitem_ok `{Inhabited A} (xs : list A) (idx : list nat) vs :
  getitem xs idx = Ok vs ->
  vs = (fun i => xs !!! i) <$> idx /\
  Forall (fun i => (i < length xs)%nat) idx.
Proof.
  unfold getitem. destruct (mapM _ idx) as [vs'|] eqn:E; [|done].
  intros [= ->]. apply mapM_Some in E.
  induction E as [|i v idx vs Hi _ [IH1 IH2]]; [done|]. split.
  - simpl. f_equal; [|done]. symmetry. now apply list_lookup_total_correct.
  - constructor; [|done]. eauto using lookup_lt_Some.
Qed.

Lemma getitem_total `{Inhabited A} (xs : list A) (idx : list nat) :
  Forall (fun i => (i < length xs)%nat) idx ->
  getitem xs idx = Ok ((fun i => xs !!! i) <$> idx).
Proof.
  intros Hall. unfold getitem.
  assert (mapM (fun i => xs !! i) idx = Some ((fun i => xs !!! i) <$> idx)) as ->;
    [|done].
  apply mapM_Some. induction Hall as [|i idx Hi _ IH]; simpl; constructor; [|done].
  apply lookup_lt_is_Some in Hi. destruct Hi as [x Hx]. rewrite Hx. f_equal.
  symmetry. now apply list_lookup_total_correct.
Qed.

Lemma zip_with_fmap_both {A B D E} (f : A -> B -> D) (g : E -> A) (h : E -> B)
    (l : list E) :
  zip_with f (g <$> l) (h <$> l) = (fun e => f (g e) (h e)) <$> l.
Proof. induction l as [|e l IH]; csimpl; [done|]. now rewrite IH. Qed.

Lemma bcast_at_fmap {A B} (f : A -> B) (ys : list A) i :
  bcast_at (f <$> ys) i = f <$> bcast_at ys i.
Proof.
  destruct ys as [|y0 [|y1 ys]]; [done|done|].
  change (bcast_at (f <$> y0 :: y1 :: ys) i)
    with ((f <$> y0 :: y1 :: ys) !! i).
  change (bcast_at (y0 :: y1 :: ys) i) with ((y0 :: y1 :: ys) !! i).
  apply list_lookup_fmap.
Qed.

Lemma broadcast_mismatch {A B D} (f : A -> B -> D) xs ys :
  length xs <> length ys -> length xs <> 1%nat -> length ys <> 1%nat ->
  broadcast f xs ys = Raise ValueError.
Proof.
  intros H Hx Hy. unfold broadcast. rewrite decide_False by done.
  destruct xs as [|x [|x' xs]], ys as [|y [|y' ys]]; simpl in *; done.
Qed.

Lemma np_where_bound_le (mask : list bool) n :
  (length mask <= n)%nat -> Forall (fun i => (i < n)%nat) (np_where mask).
Proof.
  intros Hle. eapply Forall_impl; [apply np_where_bound|].
  simpl. intros i Hi. lia.
Qed.

Lemma wrap64_small (z : Z) :
  (- 2 ^ 63 <= z < 2 ^ 63)%Z -> wrap64 z = z.
Proof. intros H. unfold wrap64. rewrite Z.mod_small; lia. Qed.

Lemma py_round_bounds x : x - 1 / 2 <= IZR (py_round x) <= x + 1 / 2.
Proof.
  unfold py_round. pose proof (Zfloor_bound x) as [Hlo Hhi].
  destruct (decide (x - IZR (Zfloor x) < 1 / 2)); [lra|].
  destruct (decide (x - IZR (Zfloor x) > 1 / 2)); [rewrite plus_IZR; lra|].
  destruct (Z.even (Zfloor x)); [lra | rewrite plus_IZR; lra].
Qed.

(** With a window that fits the counters' type, so does the tick at its
    middle, which the second block converts to that type. *)
Lemma round_half_fits p :
  window_fits p ->
  (- 2 ^ 63 <= py_round ((t_spike p / dt p - 1) / 2) < 2 ^ 63)%Z.
Proof.
  unfold window_fits. set (r := t_spike p / dt p). intros [Hlo Hhi].
  pose proof (Zceil_bound r) as [Klo Khi].
  pose proof (py_round_bounds ((r - 1) / 2)) as [Rlo Rhi].
  apply IZR_le in Hlo. apply IZR_lt in Hhi.
  change (- 2 ^ 63)%Z with (-9223372036854775808)%Z in *.
  change (2 ^ 63)%Z with 9223372036854775808%Z in *.
  split; [apply le_IZR | apply lt_IZR]; lra.
Qed.

(** ** Running a method *)

Lemma bind_Ok {A B} (m : M A) (f : A -> M B) self y self' :
  (m ≫= f) self = (Ok y, self') ->
  exists x self1, m self = (Ok x, self1) /\ f x self1 = (Ok y, self').
Proof.
  unfold mbind, M_bind. destruct (m self) as [[x|e|] self1]; try done. eauto.
Qed.

Lemma get_Ok self x self' : get self = (Ok x, self') -> x = self /\ self' = self.
Proof. unfold get. now intros [= -> ->]. Qed.

Lemma assign_Ok f self x self' :
  assign f self = (Ok x, self') -> self' = f self.
Proof. unfold assign. now intros [= <-]. Qed.

Lemma lift_Ok {A} (r : result A) self x self' :
  lift r self = (Ok x, self') -> r = Ok x /\ self' = self.
Proof. unfold lift. now intros [= -> ->]. Qed.

(** One statement of a method that returned: what it computed, and the
    object it left. *)
Ltac run_step H :=
  let x := fresh "x" in
  let s1 := fresh "s" in
  let H1 := fresh "E" in
  apply bind_Ok in H as (x & s1 & H1 & H);
  first [ apply get_Ok in H1 as [-> ->]
        | apply assign_Ok in H1 as ->
        | apply lift_Ok in H1 as [H1 ->]
        | idtac ];
  cbv zeta in H.

Ltac run_all H := repeat run_step H.

Lemma py_div_Ok x y z : py_div x y = Ok z -> y <> 0 /\ z = x / y.
Proof. unfold py_div. case_decide; [done|]. now intros [= <-]. Qed.

Lemma int64_of_int_Ok z z' :
  int64_of_int z = Ok z' -> z' = z /\ (- 2 ^ 63 <= z < 2 ^ 63)%Z.
Proof. unfold int64_of_int. case_decide; [|done]. now intros [= <-]. Qed.

Lemma int64_of_int_run z :
  (- 2 ^ 63 <= z < 2 ^ 63)%Z -> int64_of_int z = Ok z.
Proof. intros. unfold int64_of_int. now rewrite decide_True. Qed.

Lemma py_div_run x y : y <> 0 -> py_div x y = Ok (x / y).
Proof. intros. unfold py_div. now rewrite decide_False. Qed.

Lemma py_div_zero x y : y = 0 -> py_div x y = Raise ZeroDivisionError.
Proof. intros. unfold py_div. now rewrite decide_True. Qed.

(** ** Floats that are real numbers *)

Lemma fl_scale_not_Fin a x z :
  x = PInf \/ x = NInf -> fl_scale a x <> Fin z.
Proof. unfold fl_scale. intros [-> | ->]; repeat case_decide; done. Qed.

Lemma fl_add_Fin x y z :
  fl_add x y = Fin z -> exists a b, x = Fin a /\ y = Fin b /\ z = a + b.
Proof. destruct x, y; simpl; try done. intros [= <-]. eauto. Qed.

Lemma fl_sub_Fin x y z :
  fl_sub x y = Fin z -> exists a b, x = Fin a /\ y = Fin b /\ z = a - b.
Proof. destruct x, y; simpl; try done. intros [= <-]. eauto. Qed.

Lemma fl_mul_Fin x y z :
  fl_mul x y = Fin z -> exists a b, x = Fin a /\ y = Fin b /\ z = a * b.
Proof.
  destruct x, y; simpl; try done; try (intros [= <-]; eauto);
    intros H; exfalso; revert H; apply fl_scale_not_Fin; auto.
Qed.

Lemma fl_exp_Fin x z :
  fl_exp x = Fin z ->
  (exists a, x = Fin a /\ z = exp a) \/ (x = NInf /\ z = 0).
Proof. destruct x; simpl; try done; intros [= <-]; eauto. Qed.

Lemma fl_div_Fin x y z : fl_div x y = Fin z -> y <> 0 /\ z = x / y.
Proof.
  unfold fl_div. repeat case_decide; try done. now intros [= <-].
Qed.

Lemma fl_div_NInf x y : fl_div x y = NInf -> y = 0 /\ x < 0.
Proof. unfold fl_div. repeat case_decide; done. Qed.

Lemma fl_div_run x y : y <> 0 -> fl_div x y = Fin (x / y).
Proof. intros. unfold fl_div. now rewrite decide_False. Qed.

Lemma fl_add_real a b : fl_add (Fin a) (Fin b) = Fin (a + b).
Proof. done. Qed.

Lemma fl_sub_real a b : fl_sub (Fin a) (Fin b) = Fin (a - b).
Proof. done. Qed.

Lemma fl_mul_real a b : fl_mul (Fin a) (Fin b) = Fin (a * b).
Proof. done. Qed.

Lemma fl_exp_real a : fl_exp (Fin a) = Fin (exp a).
Proof. done. Qed.

(** The operations on elements that are real numbers. *)
Ltac real_values :=
  repeat first
    [ rewrite fl_add_real | rewrite fl_sub_real | rewrite fl_mul_real
    | rewrite fl_exp_real ].

#[global] Arguments fl_add : simpl never.
#[global] Arguments fl_sub : simpl never.
#[global] Arguments fl_mul : simpl never.
#[global] Arguments fl_exp : simpl never.
#[global] Arguments fl_div : simpl never.

Lemma np_div_run xs y :
  y <> 0 -> np_div xs y = Fin <$> ((fun x => x / y) <$> xs).
Proof.
  intros Hy. unfold np_div. rewrite <- list_fmap_compose.
  apply list_fmap_ext. intros i x _. simpl. now apply fl_div_run.
Qed.

Lemma reals_Fin rs : reals (Fin <$> rs) = Ok rs.
Proof.
  unfold reals. assert (mapM real_of (Fin <$> rs) = Some rs) as ->; [|done].
  apply mapM_Some. induction rs; csimpl; constructor; done.
Qed.

Lemma reals_Ok xs rs : reals xs = Ok rs -> xs = Fin <$> rs.
Proof.
  unfold reals. destruct (mapM real_of xs) as [rs'|] eqn:E; [|done].
  intros [= ->]. apply mapM_Some in E.
  induction E as [|x r xs rs Hx _ IH]; [done|].
  destruct x; try done. injection Hx as ->. csimpl. now rewrite IH.
Qed.

(** The exponential term of [dmem_dt] where it is a real number: with
    [Delta_T] at zero it is so below the threshold only, and is zero. *)
Lemma upswing_real (g D x z : R) :
  fl_mul (Fin (g * D)) (fl_exp (fl_div x D)) = Fin z ->
  z = g * D * exp (x / D).
Proof.
  intros H. apply fl_mul_Fin in H as (u & e & [= <-] & He & ->).
  apply fl_exp_Fin in He as [(c & Hc & ->)|[Hc ->]].
  - now apply fl_div_Fin in Hc as [_ ->].
  - apply fl_div_NInf in Hc as [-> _]. ring.
Qed.

Lemma euler_mem_real (inv_C leak g D x wi wt cur h m z : R) :
  fl_add (Fin m)
    (fl_mul
       (fl_mul (Fin inv_C)
          (fl_add
             (fl_add
                (fl_sub
                   (fl_add (Fin leak)
                      (fl_mul (Fin (g * D)) (fl_exp (fl_div x D))))
                   (Fin wi))
                (Fin wt))
             (Fin cur)))
       (Fin h)) = Fin z ->
  z = m + inv_C * (leak + g * D * exp (x / D) - wi + wt + cur) * h.
Proof.
  intros H.
  apply fl_add_Fin in H as (? & ? & [= <-] & H & ->).
  apply fl_mul_Fin in H as (? & ? & H & [= <-] & ->).
  apply fl_mul_Fin in H as (? & ? & [= <-] & H & ->).
  apply fl_add_Fin in H as (? & ? & H & [= <-] & ->).
  apply fl_add_Fin in H as (? & ? & H & [= <-] & ->).
  apply fl_sub_Fin in H as (? & ? & H & [= <-] & ->).
  apply fl_add_Fin in H as (? & ? & [= <-] & H & ->).
  now apply upswing_real in H as ->.
Qed.

Lemma decay_real (wt q tau z : R) :
  fl_sub (Fin wt) (fl_div q tau) = Fin z -> tau <> 0 /\ z = wt - q / tau.
Proof.
  intros H. apply fl_sub_Fin in H as (? & ? & [= <-] & H & ->).
  now apply fl_div_Fin in H as [? ->].
Qed.

(** An elementwise operation on arrays of real numbers. *)
Lemma broadcast_Fin (f : R -> R -> R) (g : float64 -> float64 -> float64)
    (xs ys : list R) :
  (forall a b, g (Fin a) (Fin b) = Fin (f a b)) ->
  broadcast g (fmap (M:=list) Fin xs) (fmap (M:=list) Fin ys)
  = match broadcast f xs ys with
    | Ok zs => Ok (fmap (M:=list) Fin zs)
    | Raise e => Raise e
    | NonFinite => NonFinite
    end.
Proof.
  intros Hg. unfold broadcast. rewrite !length_fmap.
  case_decide.
  - f_equal. clear -Hg. revert ys.
    induction xs as [|x xs IH]; intros [|y ys]; csimpl; try done.
    now rewrite IH, Hg.
  - destruct xs as [|x [|x' xs]], ys as [|y [|y' ys]]; csimpl; try done;
      f_equal; rewrite ?Hg;
      repeat (apply (f_equal2 cons); [done|]);
      rewrite <- !list_fmap_compose;
      apply list_fmap_ext; intros; simpl; apply Hg.
Qed.

Lemma conut_Ok p k :
  conut p = Ok k -> dt p <> 0 /\ k = t_spike p / dt p - 1.
Proof.
  unfold conut. destruct (py_div _ _) as [r| |] eqn:E; try done.
  apply py_div_Ok in E as [? ->]. now intros [= <-].
Qed.

Lemma run_calls_snoc Ios Io self s :
  run_calls Ios self = (Ok tt, s) ->
  run_calls (Ios ++ [Io]) self = __call__ Io s.
Proof.
  revert self. induction Ios as [|Io' Ios IH]; intros self; simpl.
  - unfold mret, M_ret. intros [= <-]. unfold mbind, M_bind.
    now destruct (__call__ Io self) as [[[]| |] s'].
  - unfold mbind, M_bind. destruct (__call__ Io' self) as [[[]| |] s']; try done.
    apply IH.
Qed.

Lemma run_calls_snoc_Ok Ios Io self s' :
  run_calls (Ios ++ [Io]) self = (Ok tt, s') ->
  exists s, run_calls Ios self = (Ok tt, s) /\ __call__ Io s = (Ok tt, s').
Proof.
  revert self. induction Ios as [|Io' Ios IH]; intros self; simpl.
  - unfold mbind, M_bind, mret, M_ret.
    destruct (__call__ Io self) as [[[]| |] s1] eqn:E; try done.
    intros [= <-]. eauto.
  - unfold mbind, M_bind.
    destruct (__call__ Io' self) as [[[]| |] s1] eqn:E; try done.
    apply IH.
Qed.

(** ** The blocks of the spike protocol, element by element *)

Lemma spike_starts_Ok mem_ self idx :
  spike_starts mem_ self = Ok idx ->
  exists mask,
    starts_mask (par self) mem_ (counter self) = Ok mask /\
    idx = np_where mask.
Proof.
  unfold spike_starts. destruct (starts_mask _ _ _) as [mask| |]; try done.
  intros [= <-]. eauto.
Qed.

Lemma active_spikes_Ok self idx :
  active_spikes self = Ok idx ->
  exists mask,
    active_mask (par self) (counter self) = Ok mask /\ idx = np_where mask.
Proof.
  unfold active_spikes. destruct (active_mask _ _) as [mask| |]; try done.
  intros [= <-]. eauto.
Qed.

Lemma mask_hit (mask : list bool) (i : nat) (hit : bool) :
  mask !! i = Some hit ->
  forall {A} (u v : A),
    (if decide (i ∈ np_where mask) then u else v) = if hit then u else v.
Proof.
  intros Hm A u v. case_decide as Hin.
  - apply elem_of_np_where in Hin. rewrite Hm in Hin. now injection Hin as ->.
  - destruct hit; [|done]. now apply elem_of_np_where in Hm.
Qed.

Lemma spike_starts_block_at mem_ self self' :
  spike_starts_block mem_ self = (Ok tt, self') ->
  (par self' = par self /\ t self' = t self /\ w self' = w self /\
   w_tail self' = w_tail self /\ V_T self' = V_T self /\
   dw_dt self' = dw_dt self /\
   length (mem self') = length (mem self) /\
   length (counter self') = length (counter self)) /\
  (forall i c', counter self' !! i = Some c' ->
                c' = 1%Z \/ counter self !! i = Some c') /\
  forall i x m c,
    mem_ !! i = Some x -> mem self !! i = Some m ->
    counter self !! i = Some c ->
    let hit := bool_decide (x > th (par self)) && bool_decide (c = 0%Z) in
    mem self' !! i = Some (if hit then 24.4 else m) /\
    counter self' !! i = Some (if hit then 1%Z else c).
Proof.
  intros H. run_all H. apply assign_Ok in H as ->. simpl.
  apply spike_starts_Ok in E as (mask & E & ->).
  apply setitem_scalar_ok in E0 as [Lm Em].
  apply setitem_scalar_ok in E1 as [Lc Ec].
  split; [tauto|]. split.
  { intros i c'. rewrite Ec. case_decide; [|tauto].
    destruct (counter self !! i); simpl; [|done]. intros [= <-]. now left. }
  intros i v m c Hv Hm Hc.
  set (hit := bool_decide (v > th (par self)) && bool_decide (c = 0%Z)).
  assert (mask !! i = Some hit) as Hhit.
  { eapply broadcast_lookup_same; [exact E| |];
      rewrite list_lookup_fmap; [now rewrite Hv | now rewrite Hc]. }
  rewrite Em, Ec, Hm, Hc. simpl.
  rewrite !(mask_hit _ _ _ Hhit). now destruct hit.
Qed.

Lemma active_mask_at p cs mask i c :
  active_mask p cs = Ok mask -> cs !! i = Some c ->
  mask !! i =
  Some (bool_decide (dt p * IZR c < t_spike p) && bool_decide (0 < c)%Z).
Proof.
  intros Hm Hc.
  eapply broadcast_lookup_same; [exact Hm| |];
    rewrite list_lookup_fmap; now rewrite Hc.
Qed.

Lemma active_spikes_block_at self self' :
  active_spikes_block self = (Ok tt, self') ->
  (par self' = par self /\ t self' = t self /\
   w_tail self' = w_tail self /\ V_T self' = V_T self /\
   dw_dt self' = dw_dt self /\
   length (mem self') = length (mem self) /\
   length (w self') = length (w self) /\
   length (counter self') = length (counter self)) /\
  exists k dw,
    conut (par self) = Ok k /\ dw_dt self = Some dw /\
    forall i c,
      counter self !! i = Some c ->
      let p := par self in
      let hit := bool_decide (dt p * IZR c < t_spike p)
                 && bool_decide (0 < c)%Z in
      counter self' !! i = Some (if hit then wrap64 (c + 1) else c) /\
      (forall m, mem self !! i = Some m ->
         mem self' !! i =
           Some (if hit then 32.862 - waveform_height k c / k else m)) /\
      (forall wi, w self !! i = Some wi ->
         w self' !! i = Some (if hit then wi - dw !!! i * dt p else wi)) /\
      (hit = true ->
         k <> 0 /\ (i < length dw)%nat /\
         (i < length (mem self))%nat /\ (i < length (w self))%nat).
Proof.
  intros H. run_all H. apply assign_Ok in H as ->. simpl.
  rename x into k, x7 into dw.
  apply active_spikes_Ok in E0 as (mask & E0 & ->).
  destruct (dw_dt self) as [dw'|] eqn:Edw; [|done].
  injection E6 as ->.
  apply getitem_ok in E1 as [-> _].
  unfold np_div in E3. rewrite <- !list_fmap_compose in E3.
  apply setitem_fmap_ok in E3 as (Lm & Bm & Em).
  apply reals_Ok in E4. subst x3. rewrite !length_fmap in Lm.
  rewrite length_fmap in Bm.
  apply getitem_ok in E5 as [-> Bw].
  apply getitem_ok in E7 as [-> Bdw].
  rewrite <- list_fmap_compose, broadcast_same_length in E8
    by now rewrite !length_fmap.
  injection E8 as <-. rewrite zip_with_fmap_both in E9.
  apply setitem_fmap_ok in E9 as (Lw & _ & Ew).
  apply getitem_ok in E10 as [-> _].
  rewrite <- list_fmap_compose in E11.
  apply setitem_fmap_ok in E11 as (Lc & _ & Ec).
  split; [tauto|]. exists k, dw. split; [done|]. split; [done|].
  intros i c Hc.
  set (hit := bool_decide _ && bool_decide _).
  pose proof (active_mask_at _ _ _ _ _ E0 Hc) as Hhit. fold hit in Hhit.
  assert (forall m, mem self !! i = Some m ->
            exists z, x4 !! i = Some z /\
              Fin z = if hit
                      then fl_sub (Fin 32.862) (fl_div (waveform_height k c) k)
                      else Fin m) as Hmem.
  { intros m Hm. specialize (Em i).
    rewrite !list_lookup_fmap, Hm in Em. cbn -[fl_sub fl_div] in Em.
    rewrite (mask_hit _ _ _ Hhit) in Em.
    rewrite (list_lookup_total_correct _ _ _ Hc) in Em.
    destruct (x4 !! i) as [z|]; cbn -[fl_sub fl_div] in Em;
      [|now destruct hit].
    exists z. split; [done|]. now destruct hit; injection Em as ->. }
  rewrite Ew, Ec, Hc. simpl.
  rewrite !(mask_hit _ _ _ Hhit).
  rewrite (list_lookup_total_correct _ _ _ Hc).
  split; [now destruct hit|].
  split.
  { intros m Hm. destruct (Hmem m Hm) as (z & -> & Ez). f_equal.
    destruct hit; [|now injection Ez].
    symmetry in Ez. apply fl_sub_Fin in Ez as (u & v & [= <-] & Ev & ->).
    apply fl_div_Fin in Ev as [_ ->]. done. }
  split.
  { intros wi Hw. rewrite Hw. simpl.
    rewrite (list_lookup_total_correct _ _ _ Hw). now destruct hit. }
  intros Htrue. rewrite Htrue in Hhit. apply elem_of_np_where in Hhit.
  rewrite Forall_forall in Bm, Bw, Bdw. split; [|auto].
  pose proof (Bm _ Hhit) as Hi. apply lookup_lt_is_Some in Hi as [m Hm].
  destruct (Hmem m Hm) as (z & _ & Ez). rewrite Htrue in Ez.
  symmetry in Ez. apply fl_sub_Fin in Ez as (u & v & _ & Ev & _).
  now apply fl_div_Fin in Ev as [? _].
Qed.

Lemma end_mask_at p cs i c :
  cs !! i = Some c ->
  end_mask p cs !! i = Some (bool_decide (dt p * IZR c >= t_spike p)).
Proof. intros Hc. unfold end_mask. now rewrite list_lookup_fmap, Hc. Qed.

Lemma end_spikes_block_at self self' :
  end_spikes_block self = (Ok tt, self') ->
  (par self' = par self /\ t self' = t self /\ dw_dt self' = dw_dt self /\
   length (mem self') = length (mem self) /\
   length (w self') = length (w self) /\
   length (w_tail self') = length (w_tail self) /\
   length (V_T self') = length (V_T self) /\
   length (counter self') = length (counter self)) /\
  forall i c,
    counter self !! i = Some c ->
    let p := par self in
    let hit := bool_decide (dt p * IZR c >= t_spike p) in
    counter self' !! i = Some (if hit then 0%Z else c) /\
    (forall m, mem self !! i = Some m ->
       mem self' !! i = Some (if hit then E_L p + 15 + 6.0984 else m)) /\
    (forall wi, w self !! i = Some wi ->
       w self' !! i = Some (if hit then wi + b p else wi)) /\
    (forall wt, w_tail self !! i = Some wt ->
       w_tail self' !! i = Some (if hit then w_jump p else wt)) /\
    (forall vt, V_T self !! i = Some vt ->
       V_T self' !! i = Some (if hit then VT_jump p + VT_rest p else vt)) /\
    (hit = true ->
       (i < length (mem self))%nat /\ (i < length (w self))%nat /\
       (i < length (w_tail self))%nat /\ (i < length (V_T self))%nat).
Proof.
  intros H. run_all H. apply assign_Ok in H as ->. simpl.
  unfold end_spikes in *.
  pose proof (setitem_scalar_bound _ _ _ _ E) as Bm.
  pose proof (setitem_scalar_bound _ _ _ _ E2) as Bt.
  pose proof (setitem_scalar_bound _ _ _ _ E3) as Bv.
  apply setitem_scalar_ok in E as [Lm Em].
  apply getitem_ok in E0 as [-> Bw].
  rewrite <- list_fmap_compose in E1.
  apply setitem_fmap_ok in E1 as (Lw & _ & Ew).
  apply setitem_scalar_ok in E2 as [Lt Et].
  apply setitem_scalar_ok in E3 as [Lv Ev].
  apply setitem_scalar_ok in E4 as [Lc Ec].
  split; [tauto|]. intros i c Hc.
  set (hit := bool_decide _).
  pose proof (end_mask_at (par self) _ _ _ Hc) as Hhit. fold hit in Hhit.
  rewrite Em, Ew, Et, Ev, Ec, Hc. simpl.
  rewrite !(mask_hit _ _ _ Hhit).
  split; [now destruct hit|].
  split; [intros m ->; now destruct hit|].
  split.
  { intros wi Hw. rewrite Hw. simpl.
    rewrite (list_lookup_total_correct _ _ _ Hw). now destruct hit. }
  split; [intros wt ->; now destruct hit|].
  split; [intros vt ->; now destruct hit|].
  intros Htrue. rewrite Htrue in Hhit. apply elem_of_np_where in Hhit.
  rewrite Forall_forall in Bm, Bw, Bt, Bv. auto.
Qed.

(** ** The Euler update, element by element *)

Lemma np_add_operand_at xs I zs i x c :
  np_add_operand xs I = Ok zs ->
  xs !! i = Some x -> current_at I i = Some c ->
  zs !! i = Some (fl_add x (Fin c)).
Proof.
  destruct I as [c'|ys]; simpl.
  - intros [= <-] Hx [= ->]. now rewrite list_lookup_fmap, Hx.
  - intros Hb Hx Hy. refine (broadcast_lookup _ _ _ _ _ _ _ Hb Hx _).
    now rewrite bcast_at_fmap, Hy.
Qed.

Lemma current_at_add_Iex Io iex i c :
  current_at Io i = Some c -> current_at (add_Iex Io iex) i = Some (c + iex).
Proof.
  destruct Io as [c'|ys]; simpl.
  - now intros [= ->].
  - intros H. now rewrite bcast_at_fmap, H.
Qed.

(** Looking up an element under the elementwise operations. *)
Ltac lookup_at :=
  repeat rewrite list_lookup_fmap;
  repeat match goal with
         | H : ?l !! ?i = Some _ |- context [?l !! ?i] => rewrite H
         end;
  simpl; try reflexivity.

Ltac bcast_lookup E :=
  eapply broadcast_lookup_same; [exact E| |]; lookup_at.

Lemma updateVar_at I self self' :
  updateVar I self = (Ok tt, self') ->
  let p := par self in
  (par self' = p /\ t self' = t self /\ counter self' = counter self) /\
  (C p <> 0 /\ tau_w p <> 0 /\ tau_VT p <> 0) /\
  exists dw,
    dw_dt self' = Some dw /\
    forall i m wi wt vt cur,
      mem self !! i = Some m -> w self !! i = Some wi ->
      w_tail self !! i = Some wt -> V_T self !! i = Some vt ->
      current_at I i = Some cur ->
      let dmem_dt :=
        1 / C p * (- g_L p * (m - E_L p)
                   + g_L p * Delta_T p * exp ((m - vt) / Delta_T p)
                   - wi + wt + cur) in
      let dw_dt_ := 1 / tau_w p * (a p * (m - E_L p) - wi) in
      tau_wtail p <> 0 /\
      mem self' !! i = Some (m + dmem_dt * dt p) /\
      w self' !! i = Some (wi + dw_dt_ * dt p) /\
      w_tail self' !! i = Some (wt - wt * dt p / tau_wtail p) /\
      V_T self' !! i =
        Some (VT_rest p * dt p / tau_VT p + (1 - dt p / tau_VT p) * vt) /\
      dw !! i = Some dw_dt_.
Proof.
  intros H. run_all H. apply assign_Ok in H as ->. simpl.
  apply py_div_Ok in E as [HC ->].
  apply py_div_Ok in E5 as [Htw ->].
  apply py_div_Ok in E12 as [HtV ->].
  apply py_div_Ok in E13 as [_ ->].
  apply reals_Ok in E8 as ->. apply reals_Ok in E11 as ->.
  unfold np_div in *.
  split; [done|]. split; [done|]. eexists. split; [reflexivity|].
  intros i m wi wt vt cur Hm Hw Hwt Hvt Hcur.
  assert (x0 !! i = Some (m - vt)) as H0 by bcast_lookup E0.
  eassert (x1 !! i = Some _) as H1 by bcast_lookup E1.
  eassert (x2 !! i = Some _) as H2 by bcast_lookup E2.
  eassert (x3 !! i = Some _) as H3 by bcast_lookup E3.
  pose proof (np_add_operand_at _ _ _ _ _ _ E4 H3 Hcur) as H4.
  assert (x6 !! i = Some (a (par self) * (m - E_L (par self)) - wi)) as H6
    by bcast_lookup E6.
  eassert ((Fin <$> x9) !! i = Some _) as H7 by bcast_lookup E7.
  eassert ((Fin <$> x14) !! i = Some _) as H10 by bcast_lookup E10.
  rewrite list_lookup_fmap in H7, H10.
  destruct (x9 !! i) as [z|]; [|done].
  destruct (x14 !! i) as [z'|]; [|done].
  injection H7 as H7. injection H10 as H10. symmetry in H7, H10.
  apply euler_mem_real in H7 as ->. apply decay_real in H10 as [Ht' ->].
  split; [done|]. split; [done|].
  split; [bcast_lookup E9|]. split; [done|].
  split; lookup_at.
Qed.

(** ** A call, stage by stage *)

Lemma call_until_active_Ok Io self s2 :
  call_until_active Io self = (Ok tt, s2) <->
  exists s1,
    updateVar (add_Iex Io (Iex (par self))) self = (Ok tt, s1) /\
    spike_starts_block (mem s1) s1 = (Ok tt, s2).
Proof.
  unfold call_until_active, mbind, M_bind, get. split.
  - destruct (updateVar _ self) as [[[]| |] s1]; try done. eauto.
  - now intros (s1 & -> & ->).
Qed.

Lemma call_until_end_Ok Io self s3 :
  call_until_end Io self = (Ok tt, s3) <->
  exists s2,
    call_until_active Io self = (Ok tt, s2) /\
    active_spikes_block s2 = (Ok tt, s3).
Proof.
  unfold call_until_end, mbind, M_bind. split.
  - destruct (call_until_active Io self) as [[[]| |] s2]; try done. eauto.
  - now intros (s2 & -> & ->).
Qed.

Lemma call_Ok Io self self' :
  __call__ Io self = (Ok tt, self') <->
  exists s3 s4,
    call_until_end Io self = (Ok tt, s3) /\
    end_spikes_block s3 = (Ok tt, s4) /\
    self' = set_t (t s4 + dt (par s4)) s4.
Proof.
  unfold __call__, call_until_end, call_until_active, _spikes_eval,
    mbind, M_bind, get, assign. split.
  - destruct (updateVar _ self) as [[[]| |] s1]; try done.
    destruct (spike_starts_block _ s1) as [[[]| |] s2]; try done.
    destruct (active_spikes_block s2) as [[[]| |] s3]; try done.
    destruct (end_spikes_block s3) as [[[]| |] s4] eqn:E; try done.
    intros [= <-]. eauto.
  - intros (s3 & s4 & H3 & H4 & ->).
    destruct (updateVar _ self) as [[[]| |] s1]; try done.
    destruct (spike_starts_block _ s1) as [[[]| |] s2]; try done.
    destruct (active_spikes_block s2) as [[[]| |] s3']; try done.
    injection H3 as ->. now rewrite H4.
Qed.

Lemma call_clock Io self self' :
  __call__ Io self = (Ok tt, self') ->
  par self' = par self /\ t self' = t self + dt (par self).
Proof.
  intros H. apply call_Ok in H as (s3 & s4 & H3 & H4 & ->).
  apply call_until_end_Ok in H3 as (s2 & H2 & H3).
  apply call_until_active_Ok in H2 as (s1 & H1 & H2).
  apply updateVar_at in H1 as ((P1 & T1 & _) & _).
  apply spike_starts_block_at in H2 as ((P2 & T2 & _) & _).
  apply active_spikes_block_at in H3 as ((P3 & T3 & _) & _).
  apply end_spikes_block_at in H4 as ((P4 & T4 & _) & _).
  simpl. split; congruence.
Qed.

(** ** The array code and the view of one neuron agree *)

Lemma neuron_at_Some self i n :
  neuron_at self i = Some n <->
  mem self !! i = Some (n_mem n) /\ w self !! i = Some (n_w n) /\
  w_tail self !! i = Some (n_w_tail n) /\ V_T self !! i = Some (n_V_T n) /\
  counter self !! i = Some (n_counter n).
Proof.
  unfold neuron_at. split.
  - destruct (mem self !! i), (w self !! i), (w_tail self !! i),
      (V_T self !! i), (counter self !! i); simpl; try done.
    now intros [= <-].
  - intros (-> & -> & -> & -> & ->). now destruct n.
Qed.

Lemma updateVar_neuron I self s1 i n cur :
  updateVar I self = (Ok tt, s1) ->
  neuron_at self i = Some n -> current_at I i = Some cur ->
  neuron_at s1 i = Some (neuron_updateVar (par self) cur n) /\
  par s1 = par self /\ t s1 = t self /\
  exists dw, dw_dt s1 = Some dw /\ dw !! i = Some (dw_dt_of (par self) n).
Proof.
  intros H Hn Hcur. apply neuron_at_Some in Hn as (Hm & Hw & Hwt & Hvt & Hc).
  apply updateVar_at in H as ((Hp & Ht & Hcs) & _ & dw & Hdw & H).
  destruct (H i _ _ _ _ _ Hm Hw Hwt Hvt Hcur) as (_ & Em & Ew & Ewt & Evt & Ed).
  split; [|eauto 7].
  apply neuron_at_Some. simpl. now rewrite Hcs.
Qed.

Lemma spike_starts_block_neuron self s2 i n :
  spike_starts_block (mem self) self = (Ok tt, s2) ->
  neuron_at self i = Some n ->
  neuron_at s2 i = Some (neuron_starts (par self) n) /\
  par s2 = par self /\ t s2 = t self /\ dw_dt s2 = dw_dt self.
Proof.
  intros H Hn. apply neuron_at_Some in Hn as (Hm & Hw & Hwt & Hvt & Hc).
  apply spike_starts_block_at in H
    as ((Hp & Ht & Ew & Ewt & Evt & Edw & _) & _ & H).
  destruct (H i _ _ _ Hm Hm Hc) as [Em Ec].
  split; [|done]. apply neuron_at_Some.
  rewrite Ew, Ewt, Evt, Em, Ec. unfold neuron_starts, starts_cond.
  now destruct (_ && _).
Qed.

Lemma active_spikes_block_neuron self s3 i n dw d :
  active_spikes_block self = (Ok tt, s3) ->
  neuron_at self i = Some n ->
  dw_dt self = Some dw -> dw !! i = Some d ->
  neuron_at s3 i = Some (neuron_active (par self) d n) /\
  par s3 = par self /\ t s3 = t self.
Proof.
  intros H Hn Hdw Hd. apply neuron_at_Some in Hn as (Hm & Hw & Hwt & Hvt & Hc).
  apply active_spikes_block_at in H
    as ((Hp & Ht & Ewt & Evt & _) & k & dw' & Hk & Hdw' & H).
  assert (dw' = dw) as -> by congruence.
  apply conut_Ok in Hk as [_ ->].
  destruct (H i _ Hc) as (Ec & Em & Ew & _).
  split; [|done]. apply neuron_at_Some.
  rewrite Ewt, Evt, Ec, (Em _ Hm), (Ew _ Hw).
  rewrite (list_lookup_total_correct _ _ _ Hd).
  unfold neuron_active, active_cond. now destruct (_ && _).
Qed.

Lemma end_spikes_block_neuron self s4 i n :
  end_spikes_block self = (Ok tt, s4) ->
  neuron_at self i = Some n ->
  neuron_at s4 i = Some (neuron_end (par self) n) /\
  par s4 = par self /\ t s4 = t self.
Proof.
  intros H Hn. apply neuron_at_Some in Hn as (Hm & Hw & Hwt & Hvt & Hc).
  apply end_spikes_block_at in H as ((Hp & Ht & _) & H).
  destruct (H i _ Hc) as (Ec & Em & Ew & Ewt & Evt & _).
  split; [|done]. apply neuron_at_Some.
  rewrite Ec, (Em _ Hm), (Ew _ Hw), (Ewt _ Hwt), (Evt _ Hvt).
  unfold neuron_end, end_cond. now destruct (bool_decide _).
Qed.

(** The array code and the view of one neuron agree, stage by stage: a call
    that returns has taken every neuron through [neuron_call]. *)
Lemma call_until_active_neuron Io self s2 i n cur :
  call_until_active Io self = (Ok tt, s2) ->
  neuron_at self i = Some n -> current_at Io i = Some cur ->
  let p := par self in
  neuron_at s2 i
  = Some (neuron_starts p (neuron_updateVar p (cur + Iex p) n)) /\
  par s2 = p /\ t s2 = t self /\
  exists dw, dw_dt s2 = Some dw /\ dw !! i = Some (dw_dt_of p n).
Proof.
  intros H Hn Hcur. apply call_until_active_Ok in H as (s1 & H1 & H2).
  apply (current_at_add_Iex _ (Iex (par self))) in Hcur.
  destruct (updateVar_neuron _ _ _ _ _ _ H1 Hn Hcur)
    as (N1 & P1 & T1 & dw & Hdw & Hd).
  destruct (spike_starts_block_neuron _ _ _ _ H2 N1) as (N2 & P2 & T2 & D2).
  rewrite <- D2 in Hdw. rewrite P1 in *. simpl.
  split; [done|]. split; [done|]. split; [congruence|]. eauto.
Qed.

Lemma call_until_end_neuron Io self s3 i n cur :
  call_until_end Io self = (Ok tt, s3) ->
  neuron_at self i = Some n -> current_at Io i = Some cur ->
  let p := par self in
  neuron_at s3 i
  = Some (neuron_active p (dw_dt_of p n)
            (neuron_starts p (neuron_updateVar p (cur + Iex p) n))) /\
  par s3 = p /\ t s3 = t self.
Proof.
  intros H Hn Hcur. apply call_until_end_Ok in H as (s2 & H2 & H3).
  destruct (call_until_active_neuron _ _ _ _ _ _ H2 Hn Hcur)
    as (N2 & P2 & T2 & dw & Hdw & Hd).
  destruct (active_spikes_block_neuron _ _ _ _ _ _ H3 N2 Hdw Hd)
    as (N3 & P3 & T3).
  rewrite P2 in *. simpl. split; [done|]. split; congruence.
Qed.

Lemma call_neuron Io self self' i n cur :
  __call__ Io self = (Ok tt, self') ->
  neuron_at self i = Some n -> current_at Io i = Some cur ->
  neuron_at self' i
  = Some (neuron_call (par self) (cur + Iex (par self)) n) /\
  par self' = par self /\ t self' = t self + dt (par self).
Proof.
  intros H Hn Hcur. apply call_Ok in H as (s3 & s4 & H3 & H4 & ->).
  destruct (call_until_end_neuron _ _ _ _ _ _ H3 Hn Hcur) as (N3 & P3 & T3).
  destruct (end_spikes_block_neuron _ _ _ _ H4 N3) as (N4 & P4 & T4).
  rewrite P3 in *. simpl. split; [exact N4|]. split; congruence.
Qed.

(** ** Which blocks select a neuron *)

Lemma spike_starts_selects self idx i n :
  spike_starts (mem self) self = Ok idx ->
  neuron_at self i = Some n ->
  i ∈ idx <-> starts_cond (par self) n = true.
Proof.
  intros H Hn. apply neuron_at_Some in Hn as (Hm & _ & _ & _ & Hc).
  apply spike_starts_Ok in H as (mask & H & ->).
  rewrite elem_of_np_where.
  assert (mask !! i = Some (starts_cond (par self) n)) as ->.
  { unfold starts_cond, starts_mask in *.
    eapply broadcast_lookup_same; [exact H| |];
      rewrite list_lookup_fmap; [now rewrite Hm | now rewrite Hc]. }
  split; congruence.
Qed.

Lemma active_spikes_selects self idx i n :
  active_spikes self = Ok idx ->
  neuron_at self i = Some n ->
  i ∈ idx <-> active_cond (par self) n = true.
Proof.
  intros H Hn. apply neuron_at_Some in Hn as (_ & _ & _ & _ & Hc).
  apply active_spikes_Ok in H as (mask & H & ->).
  rewrite elem_of_np_where, (active_mask_at _ _ _ _ _ H Hc).
  unfold active_cond. split; congruence.
Qed.

Lemma end_spikes_selects self i n :
  neuron_at self i = Some n ->
  i ∈ end_spikes self <-> end_cond (par self) n = true.
Proof.
  intros Hn. apply neuron_at_Some in Hn as (_ & _ & _ & _ & Hc).
  unfold end_spikes. rewrite elem_of_np_where, (end_mask_at _ _ _ _ Hc).
  unfold end_cond. split; congruence.
Qed.

Lemma spike_starts_block_index mem_ self self' :
  spike_starts_block mem_ self = (Ok tt, self') ->
  exists idx, spike_starts mem_ self = Ok idx.
Proof. intros H. run_all H. eauto. Qed.

Lemma active_spikes_block_index self self' :
  active_spikes_block self = (Ok tt, self') ->
  exists idx, active_spikes self = Ok idx.
Proof. intros H. run_all H. eauto. Qed.

(** The trace of a call at neuron [i]: the objects at the three masks, the
    index arrays, and whether each of them holds [i]. *)
Lemma call_trace Io self self' i n cur :
  __call__ Io self = (Ok tt, self') ->
  neuron_at self i = Some n -> current_at Io i = Some cur ->
  let p := par self in
  let n1 := neuron_updateVar p (cur + Iex p) n in
  let n2 := neuron_starts p n1 in
  let n3 := neuron_active p (dw_dt_of p n) n2 in
  exists s1 s2 s3 starts actives,
    updateVar (add_Iex Io (Iex p)) self = (Ok tt, s1) /\
    call_until_active Io self = (Ok tt, s2) /\
    call_until_end Io self = (Ok tt, s3) /\
    spike_starts (mem s1) s1 = Ok starts /\
    active_spikes s2 = Ok actives /\
    (i ∈ starts <-> starts_cond p n1 = true) /\
    (i ∈ actives <-> active_cond p n2 = true) /\
    (i ∈ end_spikes s3 <-> end_cond p n3 = true).
Proof.
  intros H Hn Hcur p n1 n2 n3.
  apply call_Ok in H as (s3 & s4 & H3 & H4 & ->).
  pose proof H3 as H3'. apply call_until_end_Ok in H3' as (s2 & H2 & Ha).
  pose proof H2 as H2'. apply call_until_active_Ok in H2' as (s1 & H1 & Hs).
  destruct (spike_starts_block_index _ _ _ Hs) as (starts & Hst).
  destruct (active_spikes_block_index _ _ Ha) as (actives & Hac).
  pose proof (current_at_add_Iex _ (Iex p) _ _ Hcur) as Hcur'.
  destruct (updateVar_neuron _ _ _ _ _ _ H1 Hn Hcur') as (N1 & P1 & _).
  destruct (call_until_active_neuron _ _ _ _ _ _ H2 Hn Hcur) as (N2 & P2 & _).
  destruct (call_until_end_neuron _ _ _ _ _ _ H3 Hn Hcur) as (N3 & P3 & _).
  exists s1, s2, s3, starts, actives.
  split; [done|]. split; [done|]. split; [done|]. split; [done|].
  split; [done|].
  split; [|split].
  - rewrite (spike_starts_selects _ _ _ _ Hst N1). now rewrite P1.
  - rewrite (active_spikes_selects _ _ _ _ Hac N2). now rewrite P2.
  - rewrite (end_spikes_selects _ _ _ N3). now rewrite P3.
Qed.

(** ** Intermediate arrays of real numbers *)

Lemma fmap_Fin_unary (g : float64 -> float64) (f : R -> R) (l : list R) :
  (forall x, g (Fin x) = Fin (f x)) ->
  g <$> (fmap (M:=list) Fin l) = Fin <$> (f <$> l).
Proof.
  intros Hg. rewrite <- !list_fmap_compose. apply list_fmap_ext.
  intros. simpl. apply Hg.
Qed.

Lemma fmap_fl_exp (l : list R) :
  fl_exp <$> (fmap (M:=list) Fin l) = Fin <$> (exp <$> l).
Proof. now apply fmap_Fin_unary. Qed.

Lemma fmap_fl_mul_l (c : R) (l : list R) :
  fl_mul (Fin c) <$> (fmap (M:=list) Fin l) = Fin <$> (Rmult c <$> l).
Proof. now apply fmap_Fin_unary. Qed.

Lemma fmap_fl_mul_r (c : R) (l : list R) :
  (fun x => fl_mul x (Fin c)) <$> (fmap (M:=list) Fin l)
  = Fin <$> ((fun x => x * c) <$> l).
Proof. now apply fmap_Fin_unary. Qed.

Lemma fmap_fl_add_r (c : R) (l : list R) :
  (fun x => fl_add x (Fin c)) <$> (fmap (M:=list) Fin l)
  = Fin <$> ((fun x => x + c) <$> l).
Proof. now apply fmap_Fin_unary. Qed.

Lemma fmap_fl_add_l (c : R) (l : list R) :
  fl_add (Fin c) <$> (fmap (M:=list) Fin l) = Fin <$> (Rplus c <$> l).
Proof. now apply fmap_Fin_unary. Qed.

Lemma fmap_fl_sub_l (c : R) (l : list R) :
  fl_sub (Fin c) <$> (fmap (M:=list) Fin l) = Fin <$> (Rminus c <$> l).
Proof. now apply fmap_Fin_unary. Qed.

Lemma broadcast_fl_add (xs ys : list R) :
  broadcast fl_add (fmap (M:=list) Fin xs) (fmap (M:=list) Fin ys)
  = match broadcast Rplus xs ys with
    | Ok zs => Ok (fmap (M:=list) Fin zs)
    | Raise e => Raise e
    | NonFinite => NonFinite
    end.
Proof. now apply broadcast_Fin. Qed.

Lemma broadcast_fl_sub (xs ys : list R) :
  broadcast fl_sub (fmap (M:=list) Fin xs) (fmap (M:=list) Fin ys)
  = match broadcast Rminus xs ys with
    | Ok zs => Ok (fmap (M:=list) Fin zs)
    | Raise e => Raise e
    | NonFinite => NonFinite
    end.
Proof. now apply broadcast_Fin. Qed.

(** The exponential term of [dmem_dt] over the neurons: it holds real
    numbers when [Delta_T] is not zero, and also at [Delta_T = 0] when every
    potential is below its threshold, [exp(-inf)] being 0. *)
Lemma upswing_reals (g D : R) (d : list R) :
  D <> 0 \/ Forall (fun x => x < 0) d ->
  fl_mul (Fin (g * D)) <$> (fl_exp <$> np_div d D)
  = Fin <$> ((fun x => g * D * exp (x / D)) <$> d).
Proof.
  intros H. unfold np_div. rewrite <- !list_fmap_compose.
  apply Forall_fmap_ext.
  destruct (decide (D = 0)) as [->|HD].
  - destruct H as [H|H]; [done|].
    eapply Forall_impl; [exact H|]. simpl. intros x Hx.
    unfold fl_div. rewrite decide_True by done.
    rewrite decide_False by lra. rewrite decide_True by done.
    cbv [fl_exp fl_mul]. f_equal. ring.
  - apply Forall_forall. intros x _. simpl.
    now rewrite fl_div_run by done.
Qed.

Lemma put_all_Fin (xs : list R) (idx : list nat) (vs : list R) :
  put_all (fmap (M:=list) Fin xs) idx (fmap (M:=list) Fin vs)
  = Fin <$> put_all xs idx vs.
Proof.
  unfold put_all. revert xs vs.
  induction idx as [|i idx IH]; intros xs [|v vs]; simpl; try done.
  rewrite <- list_fmap_insert. apply IH.
Qed.

(** Where no array is divided by zero the intermediate arrays hold real
    numbers: the operations of [float64] are those of [R]. *)
Ltac real_arrays :=
  repeat first
    [ rewrite fmap_fl_exp | rewrite fmap_fl_mul_l | rewrite fmap_fl_mul_r
    | rewrite fmap_fl_add_l | rewrite fmap_fl_add_r | rewrite fmap_fl_sub_l
    | rewrite broadcast_fl_add | rewrite broadcast_fl_sub
    | rewrite reals_Fin ].

(** ** From a well-formed ensemble a call returns *)

Ltac len :=
  repeat (progress rewrite ?length_fmap, ?length_zip_with, ?length_put_all);
  lia.

Lemma np_add_operand_total (xs : list R) I n :
  length xs = n -> fits n I ->
  exists zs,
    np_add_operand (Fin <$> xs) I = Ok (Fin <$> zs) /\ length zs = n.
Proof.
  intros Lx Hf. destruct I as [c|ys]; simpl in *.
  - eexists. split; [now rewrite fmap_fl_add_r|]. len.
  - rewrite broadcast_fl_add. unfold broadcast. case_decide as E.
    + eexists. split; [done|]. len.
    + destruct Hf as [Hf|Hf]; [congruence|].
      destruct ys as [|y [|y' ys]]; try done.
      destruct xs as [|x [|x' xs]]; try done;
        (eexists; split; [done|]); len.
Qed.

(** The Euler update on a well-formed ensemble where every array stays
    real: it returns, or a division of Python numbers raises. *)
Lemma updateVar_run I self n :
  wf n self -> fits n I ->
  Delta_T (par self) <> 0 \/
    Forall (fun x => x < 0) (zip_with Rminus (mem self) (V_T self)) ->
  tau_wtail (par self) <> 0 ->
  (C (par self) <> 0 -> tau_w (par self) <> 0 -> tau_VT (par self) <> 0 ->
   exists s1 dw,
     updateVar I self = (Ok tt, s1) /\ wf n s1 /\
     dw_dt s1 = Some dw /\ length dw = n) /\
  (C (par self) = 0 \/ tau_w (par self) = 0 \/ tau_VT (par self) = 0 ->
   (updateVar I self).1 = Raise ZeroDivisionError).
Proof.
  intros (Lm & Lw & Lwt & Lvt & Lc) Hf HD Htt.
  unfold updateVar, mbind, M_bind, get, lift, assign.
  destruct (decide (C (par self) = 0)) as [HC|HC].
  { rewrite py_div_zero by done. split; [done|auto]. }
  rewrite py_div_run by done.
  rewrite broadcast_same_length by len.
  rewrite upswing_reals by done. real_arrays.
  rewrite broadcast_same_length by len. real_arrays.
  rewrite broadcast_same_length by len. real_arrays.
  rewrite broadcast_same_length by len.
  match goal with
  | |- context [np_add_operand (Fin <$> ?xs) I] =>
      destruct (np_add_operand_total xs I n) as (cur & -> & Lcur);
      [len | done |]
  end.
  destruct (decide (tau_w (par self) = 0)) as [Htw|Htw].
  { rewrite py_div_zero by done. split; [done|auto]. }
  rewrite py_div_run by done.
  rewrite broadcast_same_length by len. real_arrays.
  rewrite broadcast_same_length by len. real_arrays.
  rewrite broadcast_same_length by len.
  rewrite np_div_run by done. real_arrays.
  rewrite broadcast_same_length by len. real_arrays.
  destruct (decide (tau_VT (par self) = 0)) as [HtV|HtV].
  { rewrite py_div_zero by done. split; [done|auto]. }
  rewrite !py_div_run by done.
  split; [|tauto]. intros _ _ _.
  eexists _, _. split; [reflexivity|]. simpl.
  split; [|split; [reflexivity|len]].
  unfold wf; simpl. repeat split; len.
Qed.

Lemma updateVar_total I self n :
  wf n self -> fits n I -> sane (par self) ->
  exists s1 dw,
    updateVar I self = (Ok tt, s1) /\ wf n s1 /\
    dw_dt s1 = Some dw /\ length dw = n.
Proof.
  intros Hwf Hf (HC & HD & Htw & Htt & HtV & Hdt).
  now apply (updateVar_run I self n Hwf Hf (or_introl HD) Htt).
Qed.

Lemma spike_starts_block_total mem_ self n :
  wf n self -> length mem_ = n ->
  exists s2,
    spike_starts_block mem_ self = (Ok tt, s2) /\ wf n s2 /\
    dw_dt s2 = dw_dt self /\ par s2 = par self.
Proof.
  intros (Lm & Lw & Lwt & Lvt & Lc) Lm_.
  unfold spike_starts_block, mbind, M_bind, get, lift, assign.
  unfold spike_starts, starts_mask.
  rewrite broadcast_same_length by len. simpl.
  match goal with
  | |- context [setitem_scalar (mem self) ?idx ?v] =>
      destruct (setitem_scalar_total (mem self) idx v) as (mem' & -> & Lm');
      [apply np_where_bound_le; len|]
  end.
  match goal with
  | |- context [setitem_scalar (counter self) ?idx ?v] =>
      destruct (setitem_scalar_total (counter self) idx v)
        as (counter' & -> & Lc');
      [apply np_where_bound_le; len|]
  end.
  eexists. split; [reflexivity|]. split; [|done].
  unfold wf; simpl. repeat split; lia.
Qed.

(** A tick inside the spike window keeps the waveform's divisor positive. *)
Lemma window_divisor_positive (p : params) (c : Z) :
  0 < dt p -> (0 < c)%Z -> dt p * IZR c < t_spike p ->
  0 < t_spike p / dt p - 1.
Proof.
  intros Hdt Hc Hlt.
  assert (1 <= IZR c) as Hc' by (apply IZR_le; lia).
  assert (dt p < t_spike p) as Hlt' by nra.
  replace (t_spike p / dt p - 1) with ((t_spike p - dt p) / dt p)
    by (field; lra).
  apply Rdiv_lt_0_compat; lra.
Qed.

Lemma active_spikes_run self :
  active_spikes self
  = Ok (np_where
          (zip_with andb
             ((fun c => bool_decide (dt (par self) * IZR c < t_spike (par self)))
                <$> counter self)
             ((fun c => bool_decide (0 < c)%Z) <$> counter self))).
Proof.
  unfold active_spikes, active_mask.
  now rewrite broadcast_same_length by len.
Qed.

Lemma active_spikes_none self :
  0 < dt (par self) -> t_spike (par self) / dt (par self) - 1 = 0 ->
  active_spikes self = Ok [].
Proof.
  intros Hdt Hk. rewrite active_spikes_run. f_equal.
  apply elem_of_nil_inv. intros i Hi. apply elem_of_np_where in Hi.
  rewrite lookup_zip_with, !list_lookup_fmap in Hi.
  destruct (counter self !! i) as [c|]; [|done]. simpl in Hi.
  injection Hi as Hi. apply andb_true_iff in Hi as [H1 H2].
  apply bool_decide_eq_true_1 in H1, H2.
  pose proof (window_divisor_positive _ _ Hdt H2 H1). lra.
Qed.

(** What the second block stores in [mem]: real numbers, one per index. *)
Lemma waveform_values self (idx : list nat) (k : R) :
  k <> 0 \/ idx = [] ->
  exists vs,
    fl_sub (Fin 32.862)
      <$> np_div (waveform_height k
                    <$> ((fun i => counter self !!! i) <$> idx)) k
    = Fin <$> vs /\
    length vs = length idx.
Proof.
  intros [Hk| ->].
  - rewrite np_div_run by done. rewrite fmap_fl_sub_l.
    eexists. split; [done|]. len.
  - now exists [].
Qed.

Lemma active_spikes_block_total self n dw :
  wf n self -> dw_dt self = Some dw -> length dw = n ->
  0 < dt (par self) -> window_fits (par self) ->
  exists s3,
    active_spikes_block self = (Ok tt, s3) /\ wf n s3 /\ par s3 = par self.
Proof.
  intros (Lm & Lw & Lwt & Lvt & Lc) Hdw Ldw Hdt Hfit.
  unfold active_spikes_block, mbind, M_bind, get, lift, assign.
  unfold conut. rewrite py_div_run by lra. simpl.
  set (k := t_spike (par self) / dt (par self) - 1).
  assert (exists idx, active_spikes self = Ok idx /\
            Forall (fun i => (i < n)%nat) idx /\ (k <> 0 \/ idx = []))
    as (idx & -> & Bidx & Hk).
  { destruct (decide (k = 0)) as [Hk|Hk].
    - exists []. split; [now apply active_spikes_none|]. auto.
    - eexists. split; [apply active_spikes_run|].
      split; [apply np_where_bound_le; len | auto]. }
  rewrite getitem_total by now rewrite Lc.
  rewrite int64_of_int_run by now apply round_half_fits.
  destruct (waveform_values self idx k Hk) as (vs & -> & Lvs).
  rewrite setitem_run;
    [|now rewrite !length_fmap | now rewrite length_fmap, Lm].
  rewrite put_all_Fin, reals_Fin.
  rewrite getitem_total by now rewrite Lw.
  rewrite Hdw. rewrite getitem_total by now rewrite Ldw.
  rewrite broadcast_same_length by len.
  match goal with
  | |- context [setitem (w self) idx ?vs] =>
      destruct (setitem_total (w self) idx vs) as (w' & -> & Lw');
      [len | now rewrite Lw |]
  end.
  match goal with
  | |- context [setitem (counter self) idx ?vs] =>
      destruct (setitem_total (counter self) idx vs) as (counter' & -> & Lc');
      [len | now rewrite Lc |]
  end.
  eexists. split; [reflexivity|]. split; [|done].
  unfold wf; simpl. repeat split; len.
Qed.

Lemma end_spikes_block_total self n :
  wf n self ->
  exists s4,
    end_spikes_block self = (Ok tt, s4) /\ wf n s4 /\ par s4 = par self.
Proof.
  intros (Lm & Lw & Lwt & Lvt & Lc).
  unfold end_spikes_block, mbind, M_bind, get, lift, assign.
  assert (Forall (fun i => (i < n)%nat) (end_spikes self)) as Bidx.
  { apply np_where_bound_le. unfold end_mask. len. }
  generalize dependent (end_spikes self). intros idx Bidx.
  destruct (setitem_scalar_total (mem self) idx
              (E_L (par self) + 15 + 6.0984)) as (mem' & -> & Lm');
    [now rewrite Lm|].
  rewrite getitem_total by now rewrite Lw.
  match goal with
  | |- context [setitem (w self) idx ?vs] =>
      destruct (setitem_total (w self) idx vs) as (w' & -> & Lw');
      [len | now rewrite Lw |]
  end.
  destruct (setitem_scalar_total (w_tail self) idx (w_jump (par self)))
    as (w_tail' & -> & Lwt'); [now rewrite Lwt|].
  destruct (setitem_scalar_total (V_T self) idx
              (VT_jump (par self) + VT_rest (par self)))
    as (V_T' & -> & Lvt'); [now rewrite Lvt|].
  destruct (setitem_scalar_total (counter self) idx 0%Z)
    as (counter' & -> & Lc'); [now rewrite Lc|].
  eexists. split; [reflexivity|]. split; [|done].
  unfold wf; simpl. repeat split; lia.
Qed.

(** The second block raises before it reads or writes an array when
    [round(conut / 2)] does not fit the counters' integer type. *)
Lemma active_spikes_block_overflow self n :
  wf n self -> 0 < dt (par self) ->
  ~ (- 2 ^ 63
     <= py_round ((t_spike (par self) / dt (par self) - 1) / 2) < 2 ^ 63)%Z ->
  active_spikes_block self = (Raise OverflowError, self).
Proof.
  intros (Lm & Lw & Lwt & Lvt & Lc) Hdt Hout.
  unfold active_spikes_block, mbind, M_bind, get, lift, assign.
  unfold conut. rewrite py_div_run by lra. simpl.
  rewrite active_spikes_run.
  rewrite getitem_total by (apply np_where_bound_le; len).
  unfold int64_of_int. now rewrite decide_False.
Qed.

(** After an Euler update that returned, the spike protocol returns and the
    call does. *)
Lemma call_after_update Io self s1 dw n :
  updateVar (add_Iex Io (Iex (par self))) self = (Ok tt, s1) ->
  wf n s1 -> dw_dt s1 = Some dw -> length dw = n ->
  0 < dt (par self) -> window_fits (par self) ->
  exists self', __call__ Io self = (Ok tt, self') /\ wf n self'.
Proof.
  intros H1 W1 D1 L1 Hdt Hfit.
  destruct (spike_starts_block_total (mem s1) s1 n W1)
    as (s2 & H2 & W2 & D2 & P2); [apply W1|].
  assert (par s1 = par self) as P1 by now apply updateVar_at in H1.
  destruct (active_spikes_block_total s2 n dw W2) as (s3 & H3 & W3 & P3);
    [congruence | done | now rewrite P2, P1 | now rewrite P2, P1 |].
  destruct (end_spikes_block_total s3 n W3) as (s4 & H4 & W4 & P4).
  eexists. split.
  - apply call_Ok. exists s3, s4. split; [|split; [exact H4|reflexivity]].
    apply call_until_end_Ok. exists s2. split; [|exact H3].
    apply call_until_active_Ok. eauto.
  - exact W4.
Qed.

(** From a well-formed ensemble a call returns, and the ensemble it leaves
    is well-formed. *)
Lemma call_total Io self n :
  wf n self -> fits n Io -> sane (par self) -> window_fits (par self) ->
  exists self', __call__ Io self = (Ok tt, self') /\ wf n self'.
Proof.
  intros Hwf Hf Hs Hfit.
  assert (fits n (add_Iex Io (Iex (par self)))) as Hf'.
  { destruct Io; simpl in *; [done|]. now rewrite length_fmap. }
  destruct (updateVar_total _ _ _ Hwf Hf' Hs)
    as (s1 & dw & H1 & W1 & D1 & L1).
  apply (call_after_update Io self s1 dw n H1 W1 D1 L1); [apply Hs | done].
Qed.

Lemma wf1_neuron self :
  wf 1 self ->
  exists n,
    neuron_at self 0 = Some n /\
    mem self = [n_mem n] /\ w self = [n_w n] /\ w_tail self = [n_w_tail n] /\
    V_T self = [n_V_T n] /\ counter self = [n_counter n].
Proof.
  intros (Lm & Lw & Lwt & Lvt & Lc). unfold neuron_at.
  destruct (mem self) as [|m [|]]; try done.
  destruct (w self) as [|wi [|]]; try done.
  destruct (w_tail self) as [|wt [|]]; try done.
  destruct (V_T self) as [|vt [|]]; try done.
  destruct (counter self) as [|c [|]]; try done.
  now eexists {| n_mem := m |}.
Qed.

Lemma fits1_current Io : fits 1 Io -> exists cur, current_at Io 0 = Some cur.
Proof.
  destruct Io as [c|ys]; simpl; [eauto|].
  intros [H|H]; destruct ys as [|y [|]]; try done; simpl; eauto.
Qed.

(** One call on one neuron: it returns, and the neuron went through
    [neuron_call]. *)
Lemma call_single Io self :
  wf 1 self -> sane (par self) -> window_fits (par self) -> fits 1 Io ->
  exists n cur self',
    neuron_at self 0 = Some n /\ current_at Io 0 = Some cur /\
    __call__ Io self = (Ok tt, self') /\
    wf 1 self' /\ par self' = par self /\
    neuron_at self' 0
    = Some (neuron_call (par self) (cur + Iex (par self)) n).
Proof.
  intros Hwf Hs Hfit Hf.
  destruct (wf1_neuron _ Hwf) as (n & Hn & _).
  destruct (fits1_current _ Hf) as (cur & Hcur).
  destruct (call_total _ _ _ Hwf Hf Hs Hfit) as (self' & H & Hwf').
  destruct (call_neuron _ _ _ _ _ _ H Hn Hcur) as (Hn' & Hp & _).
  exists n, cur, self'. auto 10.
Qed.

Lemma wf1_counter self n :
  wf 1 self -> neuron_at self 0 = Some n ->
  counter self = [n_counter n] /\ w self = [n_w n] /\ mem self = [n_mem n].
Proof.
  intros Hwf Hn. destruct (wf1_neuron _ Hwf) as (n' & Hn' & Em & Ew & _ & _ & Ec).
  assert (n' = n) as -> by congruence. auto.
Qed.

(** ** The counter through a call *)

(** The counters a call leaves: non-negative and inside the window. *)
Lemma call_counters (Io : operand) (self self' : aEIF) :
  let p := par self in
  __call__ Io self = (Ok tt, self') ->
  0 < dt p -> 0 < t_spike p ->
  Forall (fun c => 0 <= c < 2 ^ 63 - 1)%Z (counter self) ->
  forall i c',
    counter self' !! i = Some c' ->
    (0 <= c')%Z /\ 0 <= dt p * IZR c' < t_spike p.
Proof.
  intros p H Hdt Hts Hrange.
  apply call_Ok in H as (s3 & s4 & H3 & H4 & ->).
  apply call_until_end_Ok in H3 as (s2 & H2 & H3).
  apply call_until_active_Ok in H2 as (s1 & H1 & H2).
  apply updateVar_at in H1 as ((P1 & _ & Q1) & _).
  apply spike_starts_block_at in H2 as ((P2 & _ & _ & _ & _ & _ & _ & L2) & Q2 & _).
  apply active_spikes_block_at in H3
    as ((P3 & _ & _ & _ & _ & _ & _ & L3) & k & dw & _ & _ & Q3).
  apply end_spikes_block_at in H4
    as ((_ & _ & _ & _ & _ & _ & _ & L4) & Q4).
  assert (par s3 = p) as P by (unfold p; congruence).
  intros i c' Hc'. simpl in Hc'.
  assert (is_Some (counter s3 !! i)) as [c3 Hc3].
  { apply lookup_lt_is_Some. rewrite <- L4.
    eauto using lookup_lt_Some. }
  assert (is_Some (counter s2 !! i)) as [c2 Hc2].
  { apply lookup_lt_is_Some. rewrite <- L3.
    eauto using lookup_lt_Some. }
  assert (0 <= c2 < 2 ^ 63 - 1)%Z as R2.
  { destruct (Q2 i c2 Hc2) as [->|Hc1]; [lia|].
    rewrite Q1 in Hc1. rewrite Forall_forall in Hrange.
    apply Hrange. eauto using list_elem_of_lookup_2. }
  destruct (Q3 i c2 Hc2) as (E3 & _). rewrite Hc3 in E3.
  assert (0 <= c3)%Z as R3.
  { injection E3 as ->. destruct (_ && _); [|lia].
    rewrite wrap64_small; lia. }
  destruct (Q4 i c3 Hc3) as (E4 & _). simpl in Hc'. rewrite Hc' in E4.
  rewrite P in E4. injection E4 as ->.
  destruct (decide (dt p * IZR c3 >= t_spike p)) as [Hend|Hend];
    [rewrite bool_decide_eq_true_2 by done
    |rewrite bool_decide_eq_false_2 by done].
  - split; [lia|]. rewrite Rmult_0_r. lra.
  - assert (0 <= IZR c3) by (apply IZR_le; lia).
    split; [done|]. nra.
Qed.

Lemma window_bound p (z : Z) :
  0 < dt p ->
  dt p * IZR z < t_spike p <-> (z < Zceil (t_spike p / dt p))%Z.
Proof.
  intros Hdt.
  pose proof (Zceil_bound (t_spike p / dt p)) as [Klo Khi].
  assert (t_spike p = dt p * (t_spike p / dt p)) as Et by (field; lra).
  split.
  - intros Hz. apply lt_IZR.
    apply Rlt_le_trans with (t_spike p / dt p); [|exact Khi].
    apply Rmult_lt_reg_l with (dt p); [exact Hdt|]. now rewrite <- Et.
  - intros Hz.
    assert (IZR z <= IZR (Zceil (t_spike p / dt p)) - 1) as Hz'.
    { rewrite <- (minus_IZR _ 1). apply IZR_le. lia. }
    rewrite Et. apply Rmult_lt_compat_l; [exact Hdt|lra].
Qed.

(** The first block leaves a neuron in a spike alone. *)
Lemma neuron_starts_spiking p n :
  n_counter n <> 0%Z -> neuron_starts p n = n.
Proof.
  intros Hc. unfold neuron_starts, starts_cond.
  rewrite (bool_decide_eq_false_2 (n_counter n = 0%Z)) by done.
  now rewrite andb_false_r.
Qed.

(** A tick inside the window: the second block moves the counter on, and
    the third block resets it in the same call when it has reached
    [t_spike]. *)
Lemma neuron_call_tick p I n :
  (1 <= n_counter n < 2 ^ 63 - 1)%Z ->
  dt p * IZR (n_counter n) < t_spike p ->
  n_counter (neuron_call p I n)
  = if decide (dt p * IZR (n_counter n + 1) >= t_spike p) then 0%Z
    else (n_counter n + 1)%Z.
Proof.
  intros Hc Hlt. destruct n as [m wi wt vt c]. simpl in *.
  unfold neuron_call.
  rewrite neuron_starts_spiking by (simpl; lia).
  unfold neuron_active, active_cond. simpl.
  rewrite (bool_decide_eq_true_2 (dt p * IZR c < t_spike p)) by done.
  rewrite (bool_decide_eq_true_2 (0 < c)%Z) by lia. simpl.
  rewrite wrap64_small by lia.
  unfold neuron_end, end_cond. simpl.
  destruct (decide (dt p * IZR (c + 1) >= t_spike p)) as [Hge|Hge].
  - now rewrite bool_decide_eq_true_2.
  - now rewrite bool_decide_eq_false_2.
Qed.

(** The onset call: the counter is set to 1 and, in the same call, moved on
    to 2 by the second block if one step is shorter than [t_spike], then
    reset by the third block if two steps are not. *)
Lemma neuron_call_onset p I n :
  0 < dt p -> n_counter n = 0%Z ->
  n_mem (neuron_updateVar p I n) > th p ->
  n_counter (neuron_call p I n)
  = if decide (dt p * 2 < t_spike p) then 2%Z else 0%Z.
Proof.
  intros Hdt Hc Hth. unfold neuron_call.
  set (n1 := neuron_updateVar p I n) in *.
  assert (n_counter n1 = 0%Z) as Hc1 by done.
  assert (starts_cond p n1 = true) as H1.
  { unfold starts_cond. rewrite Hc1.
    now rewrite bool_decide_eq_true_2 by done. }
  unfold neuron_starts. rewrite H1.
  unfold neuron_active, active_cond. simpl.
  destruct (decide (dt p * 1 < t_spike p)) as [Hlt|Hlt].
  - rewrite bool_decide_eq_true_2 by done. simpl.
    change (wrap64 (1 + 1)) with 2%Z.
    unfold neuron_end, end_cond. simpl.
    destruct (decide (dt p * 2 < t_spike p)) as [Hlt2|Hlt2].
    + now rewrite bool_decide_eq_false_2 by lra.
    + now rewrite bool_decide_eq_true_2 by lra.
  - rewrite bool_decide_eq_false_2 by done. simpl.
    unfold neuron_end, end_cond. simpl.
    rewrite bool_decide_eq_true_2 by lra.
    now rewrite decide_False by lra.
Qed.

(** With [K = ceil(t_spike / dt)]: a counter [c] inside the window and
    [j] further calls, [c + j <= K]. *)
Lemma window_run (Ios : list operand) (self s : aEIF) (i : nat) (n : neuron) :
  let p := par self in
  let K := Zceil (t_spike p / dt p) in
  0 < dt p -> (K < 2 ^ 63)%Z ->
  run_calls Ios self = (Ok tt, s) ->
  Forall (fun Io => is_Some (current_at Io i)) Ios ->
  neuron_at self i = Some n ->
  (1 <= n_counter n)%Z -> dt p * IZR (n_counter n) < t_spike p ->
  (n_counter n + Z.of_nat (length Ios) <= K)%Z ->
  par s = p /\
  exists n',
    neuron_at s i = Some n' /\
    n_counter n'
    = if decide (n_counter n + Z.of_nat (length Ios) < K)%Z
      then (n_counter n + Z.of_nat (length Ios))%Z else 0%Z.
Proof.
  intros p K Hdt HK H Hcur Hn Hc Hlt Hlen.
  pose proof (Zceil_bound (t_spike p / dt p)) as [Klo Khi]. fold K in Klo, Khi.
  assert (t_spike p = dt p * (t_spike p / dt p)) as Et by (field; lra).
  assert (forall z : Z, dt p * IZR z < t_spike p <-> (z < K)%Z) as Hwin.
  { intros z. split.
    - intros Hz. apply lt_IZR.
      apply Rlt_le_trans with (t_spike p / dt p); [|exact Khi].
      apply Rmult_lt_reg_l with (dt p); [exact Hdt|]. now rewrite <- Et.
    - intros Hz. assert (IZR z <= IZR K - 1) as Hz'.
      { rewrite <- (minus_IZR K 1). apply IZR_le. lia. }
      rewrite Et. apply Rmult_lt_compat_l; [exact Hdt|lra]. }
  clearbody K. clear Klo Khi Et.
  revert s H Hlen.
  induction Ios as [|Io Ios IH] using rev_ind; intros s H Hlen.
  - simpl in H. injection H as <-. split; [done|]. exists n. split; [done|].
    simpl. rewrite Z.add_0_r. apply Hwin in Hlt.
    now rewrite decide_True by done.
  - rewrite length_app in *. change (length [Io]) with 1%nat in *.
    apply Forall_app in Hcur as [Hcur Hcur1].
    rewrite Forall_singleton in Hcur1. destruct Hcur1 as [cur Hcur1].
    apply run_calls_snoc_Ok in H as (s0 & H0 & H1).
    destruct (IH Hcur s0 H0) as (Hp0 & n0 & Hn0 & Hc0); [lia|].
    rewrite decide_True in Hc0 by lia.
    destruct (call_neuron _ _ _ _ _ _ H1 Hn0 Hcur1) as (Hn' & Hp' & _).
    rewrite Hp0 in Hn', Hp'. split; [exact Hp'|].
    eexists. split; [exact Hn'|].
    rewrite neuron_call_tick; [|lia|rewrite Hc0; apply Hwin; lia].
    rewrite Hc0.
    replace (n_counter n + Z.of_nat (length Ios + 1))%Z
      with (n_counter n + Z.of_nat (length Ios) + 1)%Z by lia.
    destruct (decide (n_counter n + Z.of_nat (length Ios) + 1 < K)%Z)
      as [Hin|Hin].
    + rewrite decide_False; [done|]. apply Hwin in Hin. lra.
    + rewrite decide_True; [done|].
      apply Rnot_lt_ge. intros Hlt'. apply Hwin in Hlt'. lia.
Qed.

(** ** The default constants: a window of [t_spike = 2] ms at [dt = 0.25] ms *)

Lemma init_ensemble1 : __init__ 1 "euler" 0.25 = Ok ensemble1.
Proof.
  unfold __init__, Neurons__init__. simpl.
  now rewrite decide_False by lra.
Qed.

Lemma init_ensemble2 : __init__ 2 "euler" 0.25 = Ok ensemble2.
Proof.
  unfold __init__, Neurons__init__. simpl.
  now rewrite decide_False by lra.
Qed.

Lemma sane_default N dt_ : 0 < dt_ -> sane (default_params N dt_).
Proof. intros H. unfold sane. simpl. repeat split; lra. Qed.

Lemma wf_ensemble1 : wf 1 ensemble1.
Proof. now unfold wf. Qed.

Lemma wf_ensemble2 : wf 2 ensemble2.
Proof. now unfold wf. Qed.

Lemma exp_neg_lt_1 x : x < 0 -> exp x < 1.
Proof. intros H. rewrite <- exp_0. now apply exp_increasing. Qed.

Lemma default_window_ticks N :
  Zceil (t_spike (default_params N 0.25) / dt (default_params N 0.25)) = 8%Z.
Proof.
  simpl. unfold Zceil.
  assert (Zfloor (- (2 / 0.25)) = (-8)%Z) as -> by (apply Zfloor_eq; lra).
  done.
Qed.

Lemma window_fits_default N : window_fits (default_params N 0.25).
Proof. unfold window_fits. rewrite default_window_ticks. lia. Qed.

Lemma window_fits_params (base : Z * string * R) :
  0 < base.2 -> (Zceil (2 / base.2) < 2 ^ 63)%Z ->
  window_fits (_params base).1.
Proof.
  intros Hdt HK. unfold window_fits. simpl. split; [|done].
  assert (0 < 2 / base.2) as Hpos by (apply Rdiv_lt_0_compat; lra).
  pose proof (Zceil_bound (2 / base.2)) as [_ Khi].
  assert (0 < Zceil (2 / base.2))%Z by (apply lt_IZR; lra). lia.
Qed.

Lemma py_round_half_window : py_round ((2 / 0.25 - 1) / 2) = 4%Z.
Proof.
  unfold py_round.
  assert (Zfloor ((2 / 0.25 - 1) / 2) = 3%Z) as -> by (apply Zfloor_eq; lra).
  rewrite decide_False by lra. now rewrite decide_False by lra.
Qed.

(** Constants with the default step and the default duration of a spike. *)
Section DefaultWindow.
Variable p : params.
Hypothesis Hdt : dt p = 0.25.
Hypothesis Hts : t_spike p = 2.

(** Inside the window ([1 <= counter <= 7]) a call moves the counter on by
    one tick, and the tick that reaches 8 resets the neuron in the same
    call; the adaptation current is restored, and raised by [b] at the
    reset. *)
Lemma neuron_call_window I n :
  (1 <= n_counter n <= 7)%Z ->
  let n' := neuron_call p I n in
  n_counter n' = (if decide (n_counter n = 7%Z) then 0 else n_counter n + 1)%Z /\
  n_w n' = (if decide (n_counter n = 7%Z) then n_w n + b p else n_w n).
Proof.
  intros Hc. destruct n as [m wi wt vt c]. simpl in *.
  unfold neuron_call.
  rewrite neuron_starts_spiking by (simpl; lia).
  assert (1 <= IZR c <= 7) as Hc'.
  { split; [apply (IZR_le 1) | apply (IZR_le c 7)]; lia. }
  unfold neuron_active, active_cond. simpl. rewrite Hdt, Hts.
  rewrite (bool_decide_eq_true_2 (0.25 * IZR c < 2)) by lra.
  rewrite (bool_decide_eq_true_2 (0 < c)%Z) by lia. simpl.
  rewrite wrap64_small by lia.
  unfold neuron_end, end_cond. simpl. rewrite Hdt, Hts.
  rewrite plus_IZR.
  destruct (decide (c = 7%Z)) as [->|Hne].
  - rewrite bool_decide_eq_true_2 by lra. simpl. split; [done|]. lra.
  - assert (IZR c <= 6) by (apply (IZR_le c 6); lia).
    rewrite bool_decide_eq_false_2 by lra. simpl. split; [done|]. lra.
Qed.

(** There the second block selects the neuron, and the third block too when
    the counter came in at 7. *)
Lemma neuron_window_active I d n :
  (1 <= n_counter n <= 7)%Z ->
  let n2 := neuron_starts p (neuron_updateVar p I n) in
  active_cond p n2 = true /\
  n_counter (neuron_active p d n2) = (n_counter n + 1)%Z /\
  (n_counter n = 7%Z -> end_cond p (neuron_active p d n2) = true).
Proof.
  intros Hc. destruct n as [m wi wt vt c]. simpl in *.
  rewrite neuron_starts_spiking by (simpl; lia).
  assert (1 <= IZR c <= 7) as Hc'.
  { split; [apply (IZR_le 1) | apply (IZR_le c 7)]; lia. }
  assert (active_cond p (neuron_updateVar p I
            {| n_mem := m; n_w := wi; n_w_tail := wt; n_V_T := vt;
               n_counter := c |}) = true) as Hact.
  { unfold active_cond. simpl. rewrite Hdt, Hts.
    rewrite (bool_decide_eq_true_2 (0.25 * IZR c < 2)) by lra.
    now rewrite (bool_decide_eq_true_2 (0 < c)%Z) by lia. }
  split; [exact Hact|]. split.
  { unfold neuron_active. rewrite Hact. simpl. apply wrap64_small. lia. }
  intros ->.
  unfold neuron_active. rewrite Hact. unfold end_cond. simpl.
  rewrite Hdt, Hts. change (wrap64 (7 + 1)) with 8%Z.
  now rewrite bool_decide_eq_true_2 by lra.
Qed.

End DefaultWindow.

Lemma neuron1_at : neuron_at ensemble1 0 = Some neuron1.
Proof. done. Qed.

Lemma neuron1_over_threshold :
  n_mem (neuron_updateVar (default_params 1 0.25) (200000 + 0) neuron1) > 20.
Proof.
  unfold neuron_updateVar, dmem_dt_of. simpl.
  pose proof (exp_pos ((-70.6 * 1 - -50.4 * 1) / 2)). lra.
Qed.

(** The first call of [ensemble1] with a current of 200000 pA: the Euler
    update takes the membrane potential over [th], the first block sets the
    onset values, and the second block, whose mask is computed after the
    counter became 1, overwrites them in the same call. *)
Lemma neuron1_onset :
  let p := default_params 1 0.25 in
  let n1 := neuron_updateVar p (200000 + 0) neuron1 in
  let n2 := neuron_starts p n1 in
  let n3 := neuron_active p (dw_dt_of p neuron1) n2 in
  starts_cond p n1 = true /\
  n_mem n2 = 24.4 /\ n_counter n2 = 1%Z /\
  active_cond p n2 = true /\
  n_mem n3 = 32.862 - 8.462 * 3 / 7 /\ n_w n3 = 0 /\ n_counter n3 = 2%Z /\
  end_cond p n3 = false /\
  neuron_call p (200000 + 0) neuron1 = n3.
Proof.
  intros p n1 n2 n3.
  assert (starts_cond p n1 = true) as H1.
  { unfold starts_cond. rewrite bool_decide_eq_true_2; [done|].
    apply neuron1_over_threshold. }
  assert (n2 = {| n_mem := 24.4; n_w := n_w n1; n_w_tail := n_w_tail n1;
                  n_V_T := n_V_T n1; n_counter := 1 |}) as E2.
  { unfold n2, neuron_starts. now rewrite H1. }
  assert (active_cond p n2 = true) as H2.
  { rewrite E2. unfold active_cond. simpl.
    now rewrite bool_decide_eq_true_2 by lra. }
  assert (n3 = {| n_mem := 32.862 - waveform_height (2 / 0.25 - 1) 1
                                   / (2 / 0.25 - 1);
                  n_w := n_w n1 - dw_dt_of p neuron1 * 0.25;
                  n_w_tail := n_w_tail n1; n_V_T := n_V_T n1;
                  n_counter := 2 |}) as E3.
  { unfold n3, neuron_active. rewrite H2, E2. reflexivity. }
  assert (end_cond p n3 = false) as H3.
  { rewrite E3. unfold end_cond. simpl.
    now rewrite bool_decide_eq_false_2 by lra. }
  split; [done|]. rewrite E2 at 1 2. split; [done|]. split; [done|].
  split; [done|]. rewrite E3 at 1 2 3.
  split; [|split; [|split; [done|split; [done|]]]].
  - simpl. unfold waveform_height. rewrite py_round_half_window.
    change (wrap64 (Z.abs (wrap64 (4 - 1)))) with 3%Z. lra.
  - unfold n1, neuron_updateVar, dw_dt_of. simpl. lra.
  - unfold neuron_call, neuron_end. fold n1. fold n2. fold n3. now rewrite H3.
Qed.

Lemma ensemble1_onset_call :
  exists s,
    __call__ (Scalar 200000) ensemble1 = (Ok tt, s) /\
    wf 1 s /\ par s = default_params 1 0.25 /\
    mem s = [32.862 - 8.462 * 3 / 7] /\ w s = [0] /\ counter s = [2%Z].
Proof.
  destruct (call_single (Scalar 200000) ensemble1 wf_ensemble1)
    as (n & cur & s & Hn & Hcur & H & Hwf & Hp & Hn');
    [apply sane_default; lra | apply window_fits_default | done |].
  rewrite neuron1_at in Hn. injection Hn as <-.
  simpl in Hcur. injection Hcur as <-.
  destruct neuron1_onset as (_ & _ & _ & _ & Em & Ew & Ec & _ & Ecall).
  change (par ensemble1) with (default_params 1 0.25) in Hn'.
  change (Iex (default_params 1 0.25)) with 0 in Hn'.
  rewrite Ecall in Hn'.
  destruct (wf1_counter _ _ Hwf Hn') as (Lc & Lw & Lm).
  exists s. rewrite Lc, Lw, Lm, Em, Ew, Ec.
  split; [done|]. split; [done|]. split; [exact Hp|done].
Qed.

Lemma spike_window_run (Ios : list operand) :
  (length Ios <= 6)%nat -> Forall (fits 1) Ios ->
  exists s,
    run_calls (Scalar 200000 :: Ios) ensemble1 = (Ok tt, s) /\
    wf 1 s /\ par s = default_params 1 0.25 /\
    counter s = [window_counter (length Ios)] /\
    w s = [window_w (length Ios)].
Proof.
  induction Ios as [|Io Ios IH] using rev_ind; intros Hlen Hfits.
  - destruct ensemble1_onset_call as (s & H & Hwf & Hp & _ & Hw & Hc).
    exists s. split; [|done].
    now rewrite <- (run_calls_snoc [] (Scalar 200000) ensemble1 ensemble1) in H.
  - rewrite length_app in *. change (length [Io]) with 1%nat in *.
    apply Forall_app in Hfits as [Hfits Hfit].
    rewrite Forall_singleton in Hfit.
    destruct IH as (s & H & Hwf & Hp & Hc & Hw); [lia|done|].
    destruct (call_single Io s Hwf) as (n & cur & s' & Hn & Hcur & H' & Hwf' & Hp' & Hn');
      [rewrite Hp; apply sane_default; lra
      | rewrite Hp; apply window_fits_default | done |].
    destruct (wf1_counter _ _ Hwf Hn) as (Lc & Lw & _).
    rewrite Hc in Lc. injection Lc as Lc.
    rewrite Hw in Lw. injection Lw as Lw.
    assert (length Ios <> 6)%nat as Hne by lia.
    unfold window_counter in Lc. rewrite decide_False in Lc by done.
    unfold window_w in Lw. rewrite decide_False in Lw by done.
    destruct (neuron_call_window (par s)) with (I := cur + Iex (par s)) (n := n)
      as (Ec & Ew); [now rewrite Hp | now rewrite Hp | lia |].
    destruct (wf1_counter _ _ Hwf' Hn') as (Lc' & Lw' & _).
    exists s'. split.
    { rewrite app_comm_cons.
      now rewrite (run_calls_snoc _ Io ensemble1 s H). }
    split; [done|]. split; [congruence|].
    rewrite Lc', Lw', Ec, Ew, <- Lc, <- Lw, Hp.
    unfold window_counter, window_w.
    destruct (decide (length Ios = 5%nat)) as [E5|E5].
    + rewrite E5. done.
    + rewrite !(decide_False (P := (_ = 7)%Z)) by lia.
      rewrite !(decide_False (P := (_ = 6)%nat)) by lia.
      split; [|done]. f_equal. lia.
Qed.

Ltac unfold_run := unfold mbind, M_bind, get, lift, assign; simpl.

(** An array of one current is repeated over the two neurons of [aEIF(2)]:
    the call returns and the clock has advanced. *)
Lemma one_current_two_neurons :
  exists self',
    __call__ (Vector [0]) ensemble2 = (Ok tt, self') /\ t self' = 0 + 0.25.
Proof.
  destruct (call_total (Vector [0]) ensemble2 2%nat wf_ensemble2)
    as (self' & H & _);
    [now right | apply sane_default; lra | apply window_fits_default |].
  exists self'. split; [exact H|]. now apply call_clock in H as [_ ->].
Qed.

(** Two currents sent to the one neuron of [aEIF(1)]: the neuron is
    repeated against them, the call returns, and [mem] has two elements
    beside the one element of the other arrays. *)
Lemma two_currents_one_neuron :
  exists self',
    __call__ (Vector [0; 0]) ensemble1 = (Ok tt, self') /\
    length (mem self') = 2%nat /\ length (w self') = 1%nat /\
    length (counter self') = 1%nat.
Proof.
  assert (exp ((-70.6 * 1 - -50.4 * 1) / 2) < 1) as He
    by (apply exp_neg_lt_1; lra).
  unfold __call__. unfold_run.
  unfold updateVar. unfold_run.
  rewrite !py_div_run by lra. unfold np_div. simpl.
  rewrite !fl_div_run by lra. cbv [fl_add fl_sub fl_mul fl_exp]. simpl.
  unfold _spikes_eval, spike_starts_block, spike_starts, starts_mask.
  unfold_run.
  rewrite !(bool_decide_eq_false_2 (_ > _)) by lra. simpl.
  change (np_where [false; false]) with (@nil nat). simpl.
  unfold active_spikes_block, conut, active_spikes, active_mask. unfold_run.
  rewrite !py_div_run by lra. simpl.
  rewrite andb_false_r.
  change (np_where [false]) with (@nil nat). simpl.
  rewrite py_round_half_window. simpl.
  unfold end_spikes_block, end_spikes, end_mask. unfold_run.
  rewrite !(bool_decide_eq_false_2 (_ >= _)) by lra. simpl.
  change (np_where [false]) with (@nil nat). simpl.
  eexists. split; [reflexivity|]. simpl. done.
Qed.

(** ** Every neuron of a well-formed ensemble *)

Lemma wf_neuron_at self n i :
  wf n self -> (i < n)%nat -> exists nr, neuron_at self i = Some nr.
Proof.
  intros (Lm & Lw & Lwt & Lvt & Lc) Hi.
  destruct (lookup_lt_is_Some_2 (mem self) i) as [m Hm]; [lia|].
  destruct (lookup_lt_is_Some_2 (w self) i) as [wi Hw]; [lia|].
  destruct (lookup_lt_is_Some_2 (w_tail self) i) as [wt Hwt]; [lia|].
  destruct (lookup_lt_is_Some_2 (V_T self) i) as [vt Hvt]; [lia|].
  destruct (lookup_lt_is_Some_2 (counter self) i) as [c Hc]; [lia|].
  exists {| n_mem := m; n_w := wi; n_w_tail := wt; n_V_T := vt;
            n_counter := c |}.
  now apply neuron_at_Some.
Qed.

Lemma neuron_at_lt self n i nr :
  wf n self -> neuron_at self i = Some nr -> (i < n)%nat.
Proof.
  intros (Lm & _) Hn. apply neuron_at_Some in Hn as (Hm & _).
  apply lookup_lt_Some in Hm. lia.
Qed.

Lemma fits_current_at n Io i :
  fits n Io -> (i < n)%nat -> exists cur, current_at Io i = Some cur.
Proof.
  destruct Io as [c|ys]; simpl; [eauto|]. intros [H|H] Hi.
  - destruct (lookup_lt_is_Some_2 ys i) as [y Hy]; [lia|].
    exists y. now apply bcast_at_lookup.
  - destruct ys as [|y [|]]; try done. simpl. eauto.
Qed.

Lemma current_all_at Q Io i cur :
  current_all Q Io -> current_at Io i = Some cur -> Q cur.
Proof.
  destruct Io as [x|ys]; simpl.
  - now intros H [= <-].
  - intros H Hcur. rewrite Forall_forall in H. apply H.
    destruct ys as [|y [|y' ys]]; simpl in Hcur.
    + done.
    + injection Hcur as <-. apply list_elem_of_here.
    + eauto using list_elem_of_lookup_2.
Qed.

(** The state arrays of a well-formed ensemble, read through its neurons. *)
Lemma wf_Forall_neuron {A} (f : aEIF -> list A) (g : neuron -> A)
    (Q : A -> Prop) self n :
  wf n self -> length (f self) = n ->
  (forall i nr, neuron_at self i = Some nr -> f self !! i = Some (g nr)) ->
  (forall i nr, neuron_at self i = Some nr -> Q (g nr)) ->
  Forall Q (f self).
Proof.
  intros Hwf Hlen Hfg HQ. apply Forall_lookup. intros i x Hx.
  assert (i < n)%nat as Hi by (rewrite <- Hlen; eauto using lookup_lt_Some).
  destruct (wf_neuron_at _ _ _ Hwf Hi) as (nr & Hnr).
  specialize (Hfg i nr Hnr). rewrite Hx in Hfg. injection Hfg as ->. eauto.
Qed.

(** ** Invariants of single neurons along a run *)

(** A property of single neurons that one call keeps under currents in [Q]
    is kept by the ensemble along any run of such calls, and the run
    returns. *)
Lemma run_invariant_in (P : neuron -> Prop) (Q : R -> Prop) (n : nat)
    (Ios : list operand) (self : aEIF) :
  wf n self -> sane (par self) -> window_fits (par self) ->
  Forall (fits n) Ios -> Forall (current_all Q) Ios ->
  (forall cur nr,
     Q cur -> P nr -> P (neuron_call (par self) (cur + Iex (par self)) nr)) ->
  (forall i nr, neuron_at self i = Some nr -> P nr) ->
  exists s,
    run_calls Ios self = (Ok tt, s) /\ wf n s /\ par s = par self /\
    t s = t self + INR (length Ios) * dt (par self) /\
    forall i nr, neuron_at s i = Some nr -> P nr.
Proof.
  revert self.
  induction Ios as [|Io Ios IH]; intros self Hwf Hs Hfit Hf HQ Hstep HP.
  - exists self. simpl. split; [done|]. split; [done|]. split; [done|].
    split; [ring | exact HP].
  - apply Forall_cons in Hf as [Hf Hfs]. apply Forall_cons in HQ as [HQ HQs].
    destruct (call_total _ _ _ Hwf Hf Hs Hfit) as (s1 & H1 & Hwf1).
    destruct (call_clock _ _ _ H1) as (P1 & T1).
    destruct (IH s1) as (s & H & Hwf' & P' & T' & HP'); try done.
    + now rewrite P1.
    + now rewrite P1.
    + now rewrite P1.
    + intros i nr1 Hn1.
      pose proof (neuron_at_lt _ _ _ _ Hwf1 Hn1) as Hi.
      destruct (wf_neuron_at _ _ _ Hwf Hi) as (nr & Hn).
      destruct (fits_current_at _ _ _ Hf Hi) as (cur & Hcur).
      destruct (call_neuron _ _ _ _ _ _ H1 Hn Hcur) as (Hn' & _).
      rewrite Hn1 in Hn'. injection Hn' as ->.
      apply Hstep; [|now apply (HP i)].
      exact (current_all_at Q Io i cur HQ Hcur).
    + exists s. split; [simpl; unfold mbind, M_bind; now rewrite H1|].
      split; [exact Hwf'|]. split; [congruence|].
      split; [|exact HP'].
      rewrite T', T1, P1. change (length (Io :: Ios)) with (S (length Ios)).
      rewrite S_INR. ring.
Qed.

(** The same without a condition on the currents. *)
Lemma run_invariant (P : neuron -> Prop) (n : nat) (Ios : list operand)
    (self : aEIF) :
  wf n self -> sane (par self) -> window_fits (par self) ->
  Forall (fits n) Ios ->
  (forall I nr, P nr -> P (neuron_call (par self) I nr)) ->
  (forall i nr, neuron_at self i = Some nr -> P nr) ->
  exists s,
    run_calls Ios self = (Ok tt, s) /\ wf n s /\ par s = par self /\
    t s = t self + INR (length Ios) * dt (par self) /\
    forall i nr, neuron_at s i = Some nr -> P nr.
Proof.
  intros Hwf Hs Hfit Hf Hstep HP.
  apply (run_invariant_in P (fun _ => True) n Ios self Hwf Hs Hfit Hf);
    [|auto|done].
  apply Forall_forall. intros [x|ys] _; simpl; [done|].
  now apply Forall_forall.
Qed.

(** ** A neuron inside a spike, a neuron at the onset *)

Lemma neuron_call_spiking p I I' nr :
  (0 < n_counter nr)%Z -> neuron_call p I nr = neuron_call p I' nr.
Proof.
  intros Hc. destruct nr as [m wi wt vt c]. simpl in Hc.
  unfold neuron_call.
  rewrite !neuron_starts_spiking by (simpl; lia).
  unfold neuron_active, active_cond. simpl.
  rewrite (bool_decide_eq_true_2 (0 < c)%Z) by lia. rewrite andb_true_r.
  destruct (decide (dt p * IZR c < t_spike p)) as [Hlt|Hlt].
  - rewrite bool_decide_eq_true_2 by done. reflexivity.
  - rewrite bool_decide_eq_false_2 by done.
    unfold neuron_end, end_cond. simpl.
    rewrite bool_decide_eq_true_2 by lra. reflexivity.
Qed.

(** A current that takes a neuron over the threshold can be raised without
    a change to the neuron the call leaves. *)
Lemma neuron_call_onset_current p I I' nr :
  0 < C p -> 0 < dt p -> I <= I' ->
  starts_cond p (neuron_updateVar p I nr) = true ->
  neuron_call p I nr = neuron_call p I' nr.
Proof.
  intros HC Hdt HI Hst.
  assert (starts_cond p (neuron_updateVar p I' nr) = true) as Hst'.
  { unfold starts_cond in *. apply andb_true_iff in Hst as [Hth Hc].
    apply andb_true_iff. split; [|exact Hc].
    apply bool_decide_eq_true_1 in Hth. apply bool_decide_eq_true_2.
    unfold neuron_updateVar, dmem_dt_of in *. simpl in *.
    assert (0 < 1 / C p) as Hinv by (apply Rdiv_lt_0_compat; lra).
    set (c := 1 / C p) in *. clearbody c.
    assert (0 <= (I' - I) * (c * dt p)) by (apply Rmult_le_pos; nra).
    nra. }
  unfold neuron_call, neuron_starts. now rewrite Hst, Hst'.
Qed.

(** A call is the Euler step alone for a neuron outside a spike that the
    step leaves at or below the threshold. *)
Lemma neuron_call_quiet p I nr :
  0 < t_spike p -> n_counter nr = 0%Z ->
  n_mem (neuron_updateVar p I nr) <= th p ->
  neuron_call p I nr = neuron_updateVar p I nr.
Proof.
  intros Hts Hc Hle. unfold neuron_call.
  assert (neuron_starts p (neuron_updateVar p I nr) = neuron_updateVar p I nr)
    as ->.
  { unfold neuron_starts, starts_cond.
    now rewrite bool_decide_eq_false_2 by lra. }
  assert (neuron_active p (dw_dt_of p nr) (neuron_updateVar p I nr)
          = neuron_updateVar p I nr) as ->.
  { unfold neuron_active, active_cond. simpl. rewrite Hc.
    now rewrite andb_false_r. }
  unfold neuron_end, end_cond. simpl. rewrite Hc.
  now rewrite bool_decide_eq_false_2 by lra.
Qed.

(** The membrane potential the onset call leaves when two steps are
    shorter than [t_spike]: the waveform at tick 1. *)
Lemma neuron_call_onset_mem p I nr :
  n_counter nr = 0%Z -> n_mem (neuron_updateVar p I nr) > th p ->
  dt p * 2 < t_spike p -> 0 < dt p ->
  n_mem (neuron_call p I nr)
  = 32.862 - waveform_height (t_spike p / dt p - 1) 1
             / (t_spike p / dt p - 1).
Proof.
  intros Hc Hth Hlt Hdt. unfold neuron_call.
  set (n1 := neuron_updateVar p I nr) in *.
  assert (n_counter n1 = 0%Z) as Hc1 by done.
  assert (starts_cond p n1 = true) as H1.
  { unfold starts_cond. rewrite Hc1.
    now rewrite bool_decide_eq_true_2 by done. }
  unfold neuron_starts. rewrite H1.
  unfold neuron_active, active_cond. simpl.
  rewrite bool_decide_eq_true_2 by lra. simpl.
  change (wrap64 (1 + 1)) with 2%Z.
  unfold neuron_end, end_cond. simpl.
  now rewrite bool_decide_eq_false_2 by lra.
Qed.

(** ** The constants a call divides by *)

Lemma call_constants Io self self' :
  __call__ Io self = (Ok tt, self') ->
  let p := par self in
  C p <> 0 /\ tau_w p <> 0 /\ tau_VT p <> 0 /\ dt p <> 0.
Proof.
  intros H p.
  apply call_Ok in H as (s3 & s4 & H3 & H4 & ->).
  apply call_until_end_Ok in H3 as (s2 & H2 & H3).
  apply call_until_active_Ok in H2 as (s1 & H1 & H2).
  apply updateVar_at in H1 as ((P1 & _) & (HC & Htw & HtV) & _).
  apply spike_starts_block_at in H2 as ((P2 & _) & _).
  apply active_spikes_block_at in H3 as (_ & k & dw' & Hk & _).
  apply conut_Ok in Hk as [Hdt _]. rewrite P2, P1 in Hdt.
  auto.
Qed.

(** With a constant at zero that Python divides by, the call raises. *)
Lemma call_zero_division Io self n :
  let p := par self in
  wf n self -> fits n Io -> Delta_T p <> 0 -> tau_wtail p <> 0 ->
  C p = 0 \/ tau_w p = 0 \/ tau_VT p = 0 \/ dt p = 0 ->
  (__call__ Io self).1 = Raise ZeroDivisionError.
Proof.
  intros p Hwf Hf HD Htt Hz.
  assert (fits n (add_Iex Io (Iex p))) as Hf'.
  { destruct Io; simpl in *; [done|]. now rewrite length_fmap. }
  destruct (updateVar_run _ self n Hwf Hf' (or_introl HD) Htt)
    as [Hok Hraise].
  unfold __call__, mbind, M_bind, get. fold p.
  destruct (decide (C p = 0 \/ tau_w p = 0 \/ tau_VT p = 0)) as [Hu|Hu].
  - apply Hraise in Hu.
    destruct (updateVar _ self) as [[[]|e|] s1]; simpl in *; done.
  - destruct Hok as (s1 & dw & H1 & W1 & _); [tauto..|]. rewrite H1.
    assert (par s1 = p) as P1 by now apply updateVar_at in H1.
    destruct (spike_starts_block_total (mem s1) s1 n W1)
      as (s2 & H2 & _ & _ & P2); [apply W1|].
    unfold _spikes_eval, mbind, M_bind. rewrite H2.
    unfold active_spikes_block, mbind, M_bind, get, lift, conut.
    rewrite py_div_zero; [done|]. rewrite P2, P1. tauto.
Qed.

(** ** The threshold and the tail current *)

Lemma neuron_starts_slow p nr :
  n_w (neuron_starts p nr) = n_w nr /\
  n_w_tail (neuron_starts p nr) = n_w_tail nr /\
  n_V_T (neuron_starts p nr) = n_V_T nr.
Proof. unfold neuron_starts. now destruct (starts_cond p nr). Qed.

Lemma neuron_active_slow p d nr :
  n_w_tail (neuron_active p d nr) = n_w_tail nr /\
  n_V_T (neuron_active p d nr) = n_V_T nr.
Proof. unfold neuron_active. now destruct (active_cond p nr). Qed.

(** What a call does to the threshold and to the tail current of a neuron:
    the reset of the third block, or the Euler step alone. *)
Lemma neuron_call_slow p I nr :
  let nr' := neuron_call p I nr in
  (n_V_T nr' = VT_jump p + VT_rest p /\ n_w_tail nr' = w_jump p /\
   n_counter nr' = 0%Z) \/
  (n_V_T nr' = VT_rest p * dt p / tau_VT p + (1 - dt p / tau_VT p) * n_V_T nr /\
   n_w_tail nr' = n_w_tail nr - n_w_tail nr * dt p / tau_wtail p).
Proof.
  unfold neuron_call, neuron_end.
  destruct (end_cond p _); simpl; [now left|right].
  destruct (neuron_active_slow p (dw_dt_of p nr)
              (neuron_starts p (neuron_updateVar p I nr))) as (-> & ->).
  destruct (neuron_starts_slow p (neuron_updateVar p I nr)) as (_ & -> & ->).
  done.
Qed.

Lemma relax_band (lo hi x target q : R) :
  0 <= q <= 1 -> lo <= target <= hi -> lo <= x <= hi ->
  lo <= target * q + (1 - q) * x <= hi.
Proof. intros Hq Ht Hx. split; nra. Qed.

Lemma step_ratio (h tau : R) : 0 < h <= tau -> 0 <= h / tau <= 1.
Proof.
  intros [H0 H1]. assert (0 < tau) by lra. split.
  - apply Rlt_le, Rdiv_lt_0_compat; lra.
  - apply (Rmult_le_reg_r tau); [lra|]. unfold Rdiv.
    rewrite Rmult_assoc, Rinv_l by lra. lra.
Qed.

Lemma neuron_call_threshold_band p I nr :
  0 < dt p <= tau_VT p -> 0 <= VT_jump p ->
  VT_rest p <= n_V_T nr <= VT_rest p + VT_jump p ->
  VT_rest p <= n_V_T (neuron_call p I nr) <= VT_rest p + VT_jump p.
Proof.
  intros Hdt HJ Hv.
  destruct (neuron_call_slow p I nr) as [(-> & _)|(-> & _)]; [lra|].
  replace (VT_rest p * dt p / tau_VT p) with (VT_rest p * (dt p / tau_VT p))
    by (unfold Rdiv; ring).
  apply relax_band; [now apply step_ratio | lra | done].
Qed.

Lemma neuron_call_tail_band p I nr :
  0 < dt p <= tau_wtail p -> 0 <= w_jump p ->
  0 <= n_w_tail nr <= w_jump p ->
  0 <= n_w_tail (neuron_call p I nr) <= w_jump p.
Proof.
  intros Hdt HJ Hv.
  destruct (neuron_call_slow p I nr) as [(_ & -> & _)|(_ & ->)]; [lra|].
  replace (n_w_tail nr - n_w_tail nr * dt p / tau_wtail p)
    with (0 * (dt p / tau_wtail p) + (1 - dt p / tau_wtail p) * n_w_tail nr)
    by (unfold Rdiv; ring).
  apply relax_band; [now apply step_ratio | lra | done].
Qed.

(** ** The membrane potential a call leaves *)

Lemma waveform_height_nonneg p c :
  0 < dt p -> (Zceil (t_spike p / dt p) < 2 ^ 63)%Z ->
  (0 < c)%Z -> dt p * IZR c < t_spike p ->
  0 <= waveform_height (t_spike p / dt p - 1) c.
Proof.
  intros Hdt HK Hc Hlt.
  pose proof (window_divisor_positive p c Hdt Hc Hlt) as Hk.
  pose proof (proj1 (window_bound p c Hdt) Hlt) as HcK.
  pose proof (Zceil_bound (t_spike p / dt p)) as [_ Khi].
  set (K := Zceil (t_spike p / dt p)) in *.
  set (k := t_spike p / dt p - 1) in *.
  pose proof (py_round_bounds (k / 2)) as [Rlo Rhi].
  unfold waveform_height.
  set (r := py_round (k / 2)) in *.
  assert (k + 1 <= IZR K) as Khi' by (unfold k; lra).
  clearbody r k K.
  assert (0 <= r)%Z as Hr0.
  { assert (-1 < r)%Z; [|lia]. apply lt_IZR. lra. }
  assert (r < K)%Z as HrK.
  { apply lt_IZR. lra. }
  rewrite (wrap64_small (r - c)) by lia.
  rewrite wrap64_small by lia.
  assert (0 <= IZR (Z.abs (r - c))) by (apply IZR_le; lia). lra.
Qed.

(** The neuron a call leaves is outside a spike with its potential at most
    [th] or at the reset value, or inside a spike with its potential on the
    waveform, which is at most 32.862. *)
Lemma neuron_call_membrane p I nr :
  0 < dt p -> (Zceil (t_spike p / dt p) < 2 ^ 63)%Z ->
  (0 <= n_counter nr)%Z ->
  let nr' := neuron_call p I nr in
  (n_counter nr' = 0%Z /\
   (n_mem nr' <= th p \/ n_mem nr' = E_L p + 15 + 6.0984)) \/
  ((0 < n_counter nr')%Z /\ dt p * IZR (n_counter nr') < t_spike p /\
   n_mem nr' <= 32.862).
Proof.
  intros Hdt HK Hc. unfold neuron_call.
  set (n1 := neuron_updateVar p I nr).
  assert (n_counter n1 = n_counter nr) as Hc1 by done.
  set (n2 := neuron_starts p n1).
  assert (n2 = n1 /\ (n_mem n1 <= th p \/ n_counter nr <> 0%Z) \/
          n_counter n2 = 1%Z) as H2.
  { unfold n2, neuron_starts, starts_cond.
    destruct (decide (n_mem n1 > th p)) as [Hth|Hth];
      [rewrite (bool_decide_eq_true_2 _ Hth)
      |rewrite (bool_decide_eq_false_2 _ Hth); left; split; [done|lra]].
    rewrite Hc1.
    destruct (decide (n_counter nr = 0%Z)) as [H0|H0];
      [rewrite (bool_decide_eq_true_2 _ H0); now right
      |rewrite (bool_decide_eq_false_2 _ H0); left; auto]. }
  assert (0 <= n_counter n2)%Z as Hc2.
  { destruct H2 as [[-> _]| ->]; lia. }
  set (d := dw_dt_of p nr). set (n3 := neuron_active p d n2).
  unfold neuron_end.
  destruct (end_cond p n3) eqn:Hend; simpl; [left; auto|].
  apply bool_decide_eq_false_1 in Hend. apply Rnot_ge_lt in Hend.
  unfold n3, neuron_active, active_cond in *.
  destruct (decide (dt p * IZR (n_counter n2) < t_spike p)) as [Hlt|Hlt];
    [rewrite (bool_decide_eq_true_2 _ Hlt) in *
    |rewrite (bool_decide_eq_false_2 _ Hlt) in *; simpl in *; lra].
  destruct (decide (0 < n_counter n2)%Z) as [Hpos|Hpos];
    [rewrite (bool_decide_eq_true_2 _ Hpos) in *
    |rewrite (bool_decide_eq_false_2 _ Hpos) in *]; simpl in *.
  - right.
    pose proof (proj1 (window_bound p _ Hdt) Hlt) as HcK.
    rewrite wrap64_small in * by lia.
    split; [lia|]. split; [exact Hend|].
    pose proof (waveform_height_nonneg p _ Hdt HK Hpos Hlt) as Hh.
    pose proof (window_divisor_positive p _ Hdt Hpos Hlt) as Hk.
    assert (0 <= waveform_height (t_spike p / dt p - 1) (n_counter n2)
                 / (t_spike p / dt p - 1)).
    { apply Rmult_le_pos; [exact Hh|]. apply Rlt_le, Rinv_0_lt_compat, Hk. }
    lra.
  - left. destruct H2 as [[E2 Hth]|E2]; [|rewrite E2 in Hpos; lia].
    rewrite E2 in *. change (n_counter n1) with (n_counter nr) in *.
    split; [lia|]. left. destruct Hth as [Hth|Hne]; [exact Hth|lia].
Qed.

Lemma neuron_call_counter p I nr :
  0 < dt p -> (Zceil (t_spike p / dt p) < 2 ^ 63)%Z ->
  (0 <= n_counter nr)%Z ->
  (0 <= n_counter (neuron_call p I nr))%Z /\
  (0 < t_spike p ->
   dt p * IZR (n_counter (neuron_call p I nr)) < t_spike p).
Proof.
  intros Hdt HK Hc.
  destruct (neuron_call_membrane p I nr Hdt HK Hc) as [(-> & _)|(H0 & Hlt & _)].
  - split; [lia|]. intros Hts. rewrite Rmult_0_r. exact Hts.
  - split; [lia|auto].
Qed.

(** ** The adaptation current through a spike *)

Lemma neuron_call_tick_w p I nr :
  (1 <= n_counter nr < 2 ^ 63 - 1)%Z ->
  dt p * IZR (n_counter nr) < t_spike p ->
  n_w (neuron_call p I nr)
  = if decide (dt p * IZR (n_counter nr + 1) >= t_spike p)
    then n_w nr + b p else n_w nr.
Proof.
  intros Hc Hlt. destruct nr as [m wi wt vt c]. simpl in *.
  unfold neuron_call.
  rewrite neuron_starts_spiking by (simpl; lia).
  unfold neuron_active, active_cond. simpl.
  rewrite (bool_decide_eq_true_2 (dt p * IZR c < t_spike p)) by done.
  rewrite (bool_decide_eq_true_2 (0 < c)%Z) by lia. simpl.
  rewrite wrap64_small by lia.
  unfold neuron_end, end_cond. simpl.
  destruct (decide (dt p * IZR (c + 1) >= t_spike p)) as [Hge|Hge].
  - rewrite bool_decide_eq_true_2 by done. simpl. ring.
  - rewrite bool_decide_eq_false_2 by done. simpl. ring.
Qed.

Lemma neuron_call_onset_w p I nr :
  n_counter nr = 0%Z -> n_mem (neuron_updateVar p I nr) > th p ->
  dt p * 1 < t_spike p ->
  n_w (neuron_call p I nr)
  = if decide (dt p * 2 < t_spike p) then n_w nr else n_w nr + b p.
Proof.
  intros Hc Hth Hlt. unfold neuron_call.
  set (n1 := neuron_updateVar p I nr) in *.
  assert (n_counter n1 = 0%Z) as Hc1 by done.
  assert (starts_cond p n1 = true) as H1.
  { unfold starts_cond. rewrite Hc1.
    now rewrite bool_decide_eq_true_2 by done. }
  unfold neuron_starts. rewrite H1.
  unfold neuron_active, active_cond. simpl.
  rewrite bool_decide_eq_true_2 by done. simpl.
  change (wrap64 (1 + 1)) with 2%Z.
  unfold neuron_end, end_cond. simpl.
  destruct (decide (dt p * 2 < t_spike p)) as [Hlt2|Hlt2].
  - rewrite bool_decide_eq_false_2 by lra. simpl. ring.
  - rewrite bool_decide_eq_true_2 by lra. simpl. ring.
Qed.

(** The adaptation current beside the counter of [window_run]: frozen while
    the counter is inside the window, raised by [b] by the call that takes
    the counter to [K]. *)
Lemma window_run_w (Ios : list operand) (self s : aEIF) (i : nat)
    (n : neuron) :
  let p := par self in
  let K := Zceil (t_spike p / dt p) in
  0 < dt p -> (K < 2 ^ 63)%Z ->
  run_calls Ios self = (Ok tt, s) ->
  Forall (fun Io => is_Some (current_at Io i)) Ios ->
  neuron_at self i = Some n ->
  (1 <= n_counter n)%Z -> dt p * IZR (n_counter n) < t_spike p ->
  (n_counter n + Z.of_nat (length Ios) <= K)%Z ->
  exists n',
    neuron_at s i = Some n' /\
    n_w n'
    = if decide (n_counter n + Z.of_nat (length Ios) < K)%Z
      then n_w n else n_w n + b p.
Proof.
  intros p K Hdt HK H Hcur Hn Hc Hlt Hlen.
  pose proof (fun z => window_bound p z Hdt) as Hwin. fold K in Hwin.
  revert s H Hlen.
  induction Ios as [|Io Ios IH] using rev_ind; intros s H Hlen.
  - simpl in H. injection H as <-. exists n. split; [done|].
    simpl. rewrite Z.add_0_r. apply Hwin in Hlt.
    now rewrite decide_True by done.
  - rewrite length_app in *. change (length [Io]) with 1%nat in *.
    apply Forall_app in Hcur as [Hcur Hcur1].
    rewrite Forall_singleton in Hcur1. destruct Hcur1 as [cur Hcur1].
    apply run_calls_snoc_Ok in H as (s0 & H0 & H1).
    destruct (IH Hcur s0 H0) as (n0 & Hn0 & Hw0); [lia|].
    rewrite decide_True in Hw0 by lia.
    destruct (window_run Ios self s0 i n Hdt HK H0 Hcur Hn Hc Hlt)
      as (Hp0 & n0' & Hn0' & Hc0); [fold p; fold K; lia|].
    fold p in Hp0, Hc0. fold K in Hc0.
    assert (n0' = n0) as -> by congruence.
    rewrite decide_True in Hc0 by lia.
    destruct (call_neuron _ _ _ _ _ _ H1 Hn0 Hcur1) as (Hn' & _).
    rewrite Hp0 in Hn'.
    eexists. split; [exact Hn'|].
    rewrite neuron_call_tick_w; [|lia|rewrite Hc0; apply Hwin; lia].
    rewrite Hc0, Hw0.
    replace (n_counter n + Z.of_nat (length Ios + 1))%Z
      with (n_counter n + Z.of_nat (length Ios) + 1)%Z by lia.
    destruct (decide (n_counter n + Z.of_nat (length Ios) + 1 < K)%Z)
      as [Hin|Hin].
    + rewrite decide_False; [done|]. apply Hwin in Hin. lra.
    + rewrite decide_True; [done|].
      apply Rnot_lt_ge. intros Hlt'. apply Hwin in Hlt'. lia.
Qed.

(** ** The current as a float and as an array *)

Lemma broadcast_one_l {A B D} (f : A -> B -> D) x ys :
  length ys <> 1%nat -> broadcast f [x] ys = Ok (f x <$> ys).
Proof.
  intros H. unfold broadcast. rewrite decide_False by (simpl; lia). done.
Qed.

Lemma broadcast_one_r {A B D} (f : A -> B -> D) xs y :
  length xs <> 1%nat -> broadcast f xs [y] = Ok ((fun x => f x y) <$> xs).
Proof.
  intros H. unfold broadcast. rewrite decide_False by (simpl; lia).
  destruct xs as [|x [|x' xs]]; simpl in *; done.
Qed.

Lemma np_add_operand_one xs c :
  np_add_operand xs (Vector [c]) = np_add_operand xs (Scalar c).
Proof.
  simpl. unfold broadcast. case_decide as E.
  - destruct xs as [|x [|]]; done.
  - destruct xs as [|x [|x' xs]]; done.
Qed.

Lemma np_add_operand_full xs c :
  np_add_operand xs (Vector (replicate (length xs) c))
  = np_add_operand xs (Scalar c).
Proof.
  simpl. rewrite fmap_replicate.
  rewrite broadcast_same_length by now rewrite length_replicate.
  now rewrite zip_with_replicate_r_eq.
Qed.

(** The Euler update reads the current once, in a sum with an array that has
    one element per neuron. *)
Lemma updateVar_current (I I' : operand) (self : aEIF) (n : nat) :
  wf n self ->
  (forall xs, length xs = n -> np_add_operand xs I = np_add_operand xs I') ->
  updateVar I self = updateVar I' self.
Proof.
  intros (Lm & Lw & Lwt & Lvt & Lc) HI.
  unfold updateVar, mbind, M_bind, get, lift.
  destruct (py_div 1 (C (par self))) as [inv_C| |]; try done.
  rewrite broadcast_same_length by len. unfold np_div.
  do 3 rewrite broadcast_same_length by len.
  rewrite (HI _) by len. reflexivity.
Qed.

Lemma call_current (Io Io' : operand) (self : aEIF) (n : nat) :
  wf n self ->
  (forall xs, length xs = n ->
     np_add_operand xs (add_Iex Io (Iex (par self)))
     = np_add_operand xs (add_Iex Io' (Iex (par self)))) ->
  __call__ Io self = __call__ Io' self.
Proof.
  intros Hwf HI. unfold __call__, mbind, M_bind, get.
  now rewrite (updateVar_current _ _ self n Hwf HI).
Qed.

(** ** The constants and the clock *)

Lemma keeps_clock_bind {A B} (m : M A) (f : A -> M B) :
  keeps_clock m -> (forall x, keeps_clock (f x)) -> keeps_clock (m ≫= f).
Proof.
  intros Hm Hf self. unfold mbind, M_bind.
  destruct (Hm self) as [Hp Ht].
  destruct (m self) as [[x|e|] s1]; simpl in *; [|done|done].
  destruct (Hf x s1) as [Hp' Ht']. split; congruence.
Qed.

Lemma keeps_clock_get : keeps_clock get.
Proof. done. Qed.

Lemma keeps_clock_lift {A} (r : result A) : keeps_clock (lift r).
Proof. done. Qed.

Lemma keeps_clock_assign (f : aEIF -> aEIF) :
  (forall self, par (f self) = par self /\ t (f self) = t self) ->
  keeps_clock (assign f).
Proof. intros Hf self. apply Hf. Qed.

Ltac keeps :=
  repeat (cbv beta zeta;
          first [ apply keeps_clock_bind; [|intros ?]
                | apply keeps_clock_get
                | apply keeps_clock_lift
                | apply keeps_clock_assign; intros ?; done ]).

Lemma updateVar_keeps_clock I : keeps_clock (updateVar I).
Proof. unfold updateVar. keeps. Qed.

Lemma spikes_eval_keeps_clock mem_ : keeps_clock (_spikes_eval mem_).
Proof.
  unfold _spikes_eval, spike_starts_block, active_spikes_block,
    end_spikes_block.
  keeps.
Qed.

(** ** The second block without [dw_dt] *)

(** The second block reads [dw_dt] after it has converted [round(conut / 2)]
    and written the membrane potentials: without the attribute it raises
    there. *)
Lemma active_spikes_block_no_dw_dt self n :
  wf n self -> dw_dt self = None -> 0 < dt (par self) ->
  window_fits (par self) ->
  exists s3,
    active_spikes_block self = (Raise AttributeError, s3) /\
    t s3 = t self /\ counter s3 = counter self /\ w s3 = w self.
Proof.
  intros (Lm & Lw & Lwt & Lvt & Lc) Hdw Hdt Hfit.
  unfold active_spikes_block, mbind, M_bind, get, lift, assign.
  unfold conut. rewrite py_div_run by lra. simpl.
  set (k := t_spike (par self) / dt (par self) - 1).
  assert (exists idx, active_spikes self = Ok idx /\
            Forall (fun i => (i < n)%nat) idx /\ (k <> 0 \/ idx = []))
    as (idx & -> & Bidx & Hk).
  { destruct (decide (k = 0)) as [Hk|Hk].
    - exists []. split; [now apply active_spikes_none|]. auto.
    - eexists. split; [apply active_spikes_run|].
      split; [apply np_where_bound_le; len | auto]. }
  rewrite getitem_total by now rewrite Lc.
  rewrite int64_of_int_run by now apply round_half_fits.
  destruct (waveform_values self idx k Hk) as (vs & -> & Lvs).
  rewrite setitem_run;
    [|now rewrite !length_fmap | now rewrite length_fmap, Lm].
  rewrite put_all_Fin, reals_Fin.
  rewrite getitem_total by now rewrite Lw.
  rewrite Hdw. eexists. split; [reflexivity|]. done.
Qed.

(** ** The ensemble of the constructor *)

Lemma vars_params (N : Z) (method_ : string) (dt_ : R) :
  (0 <= N)%Z ->
  _vars (_params (N, method_, dt_))
  = Ok {| par := (_params (N, method_, dt_)).1; t := 0;
          mem := replicate (Z.to_nat N) (-70.6 * 1);
          w := replicate (Z.to_nat N) 0;
          w_tail := replicate (Z.to_nat N) 0;
          V_T := replicate (Z.to_nat N) (-50.4 * 1);
          N_vars := 4; counter := replicate (Z.to_nat N) 0%Z;
          dw_dt := None |}.
Proof.
  intros HN. unfold _vars, np_ones, np_zeros. simpl.
  rewrite !decide_False by lia. simpl. now rewrite !fmap_replicate.
Qed.

Lemma vars_params_ensemble2 :
  _vars (_params (2%Z, "euler"%string, 0.25)) = Ok ensemble2.
Proof. now rewrite vars_params by lia. Qed.

Lemma vars_params_unfired N method_ dt_ i nr :
  neuron_at {| par := (_params (N, method_, dt_)).1; t := 0;
               mem := replicate (Z.to_nat N) (-70.6 * 1);
               w := replicate (Z.to_nat N) 0;
               w_tail := replicate (Z.to_nat N) 0;
               V_T := replicate (Z.to_nat N) (-50.4 * 1);
               N_vars := 4; counter := replicate (Z.to_nat N) 0%Z;
               dw_dt := None |} i = Some nr ->
  unfired (-70.6) (-70.6) 0 0 nr.
Proof.
  intros Hnr. apply neuron_at_Some in Hnr as (Hm & Hw & Hwt & Hv & Hc).
  simpl in *.
  apply lookup_replicate in Hm as [Hm _], Hw as [Hw _], Hwt as [Hwt _],
    Hv as [Hv _], Hc as [Hc _].
  unfold unfired. rewrite Hm, Hw, Hwt, Hv, Hc. repeat split; lra.
Qed.

Lemma unfired_weaken lo hi wlo whi lo' hi' wlo' whi' nr :
  lo' <= lo -> hi <= hi' -> wlo' <= wlo -> whi <= whi' ->
  unfired lo hi wlo whi nr -> unfired lo' hi' wlo' whi' nr.
Proof.
  intros ? ? ? ? (Hc & Hv & Ht & Hm & Hw). unfold unfired.
  repeat split; try done; lra.
Qed.

Lemma default_waveform_first_tick :
  32.862 - waveform_height (2 / 0.25 - 1) 1 / (2 / 0.25 - 1)
  = 32.862 - 8.462 * 3 / 7.
Proof.
  unfold waveform_height. rewrite py_round_half_window.
  change (wrap64 (Z.abs (wrap64 (4 - 1)))) with 3%Z. lra.
Qed.

(** The constants of [_params], with any number of neurons and any step. *)
Section Constructed.

Variable base : Z * string * R.
Let p := (_params base).1.
Let dt_ := base.2.

(** The Euler step of an unfired neuron under the constants of [_params]. *)
Lemma unfired_updateVar I lo hi wlo whi nr :
  unfired lo hi wlo whi nr ->
  let nr' := neuron_updateVar p I nr in
  n_counter nr' = 0%Z /\ n_V_T nr' = -50.4 /\ n_w_tail nr' = 0 /\
  n_mem nr'
  = n_mem nr
    + dt_ * (30 * (-70.6 - n_mem nr)
             + 60 * exp ((n_mem nr + 50.4) / 2) - n_w nr + I) / 281 /\
  n_w nr' = n_w nr + dt_ * (4 * (n_mem nr + 70.6) - n_w nr) / 144.
Proof.
  intros (Hc & Hv & Ht & _ & _).
  unfold neuron_updateVar, dmem_dt_of, dw_dt_of. simpl. fold dt_.
  rewrite Hv, Ht.
  replace ((n_mem nr - -50.4) / 2) with ((n_mem nr + 50.4) / 2) by lra.
  repeat split; try done; lra.
Qed.

(** Currents of at most 400 pA in size keep an unfired neuron below the
    threshold of the exponential. *)
Lemma unfired_weak_current I nr :
  0 < dt_ <= 1 -> -400 <= I <= 400 ->
  unfired (-86.6) (-52.6) (-64) 72 nr ->
  unfired (-86.6) (-52.6) (-64) 72 (neuron_call p I nr).
Proof.
  intros Hdt HI Hu.
  destruct (unfired_updateVar I _ _ _ _ nr Hu) as (Hc' & Hv' & Ht' & Em & Ew).
  destruct Hu as (Hc & Hv & Ht & Hm & Hw).
  assert (0 < exp ((n_mem nr + 50.4) / 2) < 1) as He.
  { split; [apply exp_pos | apply exp_neg_lt_1; lra]. }
  set (e := exp ((n_mem nr + 50.4) / 2)) in *. clearbody e.
  assert (-86.6 <= n_mem (neuron_updateVar p I nr) <= -52.6) as Hm'.
  { rewrite Em. split; nra. }
  assert (-64 <= n_w (neuron_updateVar p I nr) <= 72) as Hw'.
  { rewrite Ew. split; nra. }
  rewrite neuron_call_quiet;
    [unfold unfired; auto | simpl; lra | done | change (th p) with 20; lra].
Qed.

(** Under a current of at least 1000 pA an unfired neuron gains
    [91.6 / 281] mV per ms, or fires. *)
Lemma unfired_strong_current I lo nr :
  0 < dt_ < 1 -> 1000 <= I -> -70.6 <= lo ->
  unfired lo 20 0 362.4 nr ->
  (n_counter (neuron_call p I nr) = 2%Z /\
   n_mem (neuron_call p I nr)
   = 32.862 - waveform_height (2 / dt_ - 1) 1 / (2 / dt_ - 1)) \/
  unfired (lo + dt_ * 91.6 / 281) 20 0 362.4 (neuron_call p I nr).
Proof.
  intros Hdt HI Hlo Hu.
  destruct (unfired_updateVar I _ _ _ _ nr Hu) as (Hc' & Hv' & Ht' & Em & Ew).
  pose proof Hu as (Hc & Hv & Ht & Hm & Hw).
  pose proof (exp_ineq1_le ((n_mem nr + 50.4) / 2)) as He.
  set (e := exp ((n_mem nr + 50.4) / 2)) in *. clearbody e.
  destruct (decide (n_mem (neuron_updateVar p I nr) > th p)) as [Hth|Hth].
  - left. split.
    + rewrite neuron_call_onset; try done; [|apply Hdt].
      simpl. fold dt_. now rewrite decide_True by lra.
    + rewrite neuron_call_onset_mem; try done; simpl; fold dt_; lra.
  - right. change (th p) with 20 in Hth.
    assert (lo + dt_ * 91.6 / 281 <= n_mem (neuron_updateVar p I nr) <= 20)
      as Hm'.
    { split; [|lra]. rewrite Em. nra. }
    assert (0 <= n_w (neuron_updateVar p I nr) <= 362.4) as Hw'.
    { rewrite Ew. split; nra. }
    rewrite neuron_call_quiet;
      [unfold unfired; auto | simpl; lra | done | change (th p) with 20; lra].
Qed.

End Constructed.

(** Under currents of at least 1000 pA a neuron of the constructor's
    ensemble that has not fired has fired after the run, or has gained
    [91.6 / 281] mV per ms. *)
Lemma fires_or_climbs (base : Z * string * R) (Ios : list operand)
    (self : aEIF) (n i : nat) (nr : neuron) (lo : R) :
  par self = (_params base).1 -> wf n self -> 0 < base.2 < 1 ->
  (Zceil (2 / base.2) < 2 ^ 63)%Z ->
  Forall (fits n) Ios -> Forall (current_all (fun x => 1000 <= x)) Ios ->
  neuron_at self i = Some nr -> -70.6 <= lo ->
  unfired lo 20 0 362.4 nr ->
  (exists k s,
     (k < length Ios)%nat /\
     run_calls (take (S k) Ios) self = (Ok tt, s) /\
     counter s !! i = Some 2%Z /\
     mem s !! i
     = Some (32.862 - waveform_height (2 / base.2 - 1) 1 / (2 / base.2 - 1))) \/
  (exists s nr',
     run_calls Ios self = (Ok tt, s) /\ neuron_at s i = Some nr' /\
     unfired (lo + INR (length Ios) * (base.2 * 91.6 / 281)) 20 0 362.4 nr').
Proof.
  intros Hp Hwf Hdt HK Hf HQ. revert self nr lo Hp Hwf.
  induction Ios as [|Io Ios IH]; intros self nr lo Hp Hwf Hnr Hlo Hu.
  - right. exists self, nr. split; [done|]. split; [done|].
    simpl. now rewrite Rmult_0_l, Rplus_0_r.
  - apply Forall_cons in Hf as [Hf Hfs]. apply Forall_cons in HQ as [HQ HQs].
    assert (sane (par self)) as Hs.
    { rewrite Hp. unfold sane. simpl. repeat split; lra. }
    assert (window_fits (par self)) as Hfit.
    { rewrite Hp. apply window_fits_params; [lra | done]. }
    destruct (call_total _ _ _ Hwf Hf Hs Hfit) as (s1 & H1 & Hwf1).
    pose proof (neuron_at_lt _ _ _ _ Hwf Hnr) as Hi.
    destruct (fits_current_at _ _ _ Hf Hi) as (cur & Hcur).
    destruct (call_neuron _ _ _ _ _ _ H1 Hnr Hcur) as (Hn1 & P1 & _).
    pose proof (current_all_at _ _ _ _ HQ Hcur) as Hcur'. simpl in Hcur'.
    rewrite Hp in Hn1, P1.
    destruct (unfired_strong_current base
                (cur + Iex (_params base).1) lo nr Hdt) as [Hfire|Hu1];
      [simpl; lra | done | done | |].
    + left. exists 0%nat, s1. split; [simpl; lia|].
      split.
      { simpl. unfold mbind, M_bind. now rewrite H1. }
      destruct Hfire as [Hfire Hmem].
      apply neuron_at_Some in Hn1 as (-> & _ & _ & _ & ->).
      now rewrite Hfire, Hmem.
    + destruct (IH Hfs HQs s1 _ (lo + base.2 * 91.6 / 281) P1 Hwf1 Hn1)
        as [(k & s & Hk & H & Hc)|(s & nr' & H & Hn' & Hu')];
        [lra | done | |].
      * left. exists (S k), s. split; [simpl; lia|]. split; [|exact Hc].
        change (take (S (S k)) (Io :: Ios)) with (Io :: take (S k) Ios).
        cbn [run_calls]. unfold mbind, M_bind. now rewrite H1.
      * right. exists s, nr'. split.
        { cbn [run_calls]. unfold mbind, M_bind. now rewrite H1. }
        split; [done|].
        change (length (Io :: Ios)) with (S (length Ios)). rewrite S_INR.
        revert Hu'. apply unfired_weaken; lra.
Qed.

(** ** The loop of the driver *)

Lemma driver_loop_run (I_tot : operand) (Tn : nat) (self : aEIF) (n : nat)
    (time0 : list R) (mem0 : list (list R)) :
  wf n self -> fits n I_tot -> sane (par self) -> window_fits (par self) ->
  exists times mems s,
    driver_loop I_tot Tn time0 mem0 self
    = (Ok (time0 ++ times, mem0 ++ mems), s) /\
    run_calls (replicate Tn I_tot) self = (Ok tt, s) /\
    length times = Tn /\ length mems = Tn /\
    forall k, (k < Tn)%nat ->
      exists sk,
        run_calls (replicate (S k) I_tot) self = (Ok tt, sk) /\
        times !! k = Some (t sk) /\ mems !! k = Some (mem sk) /\
        t sk = t self + INR (S k) * dt (par self) /\ wf n sk.
Proof.
  revert self time0 mem0.
  induction Tn as [|Tn IH]; intros self time0 mem0 Hwf Hf Hs Hfit.
  - exists [], [], self. simpl. rewrite !app_nil_r.
    repeat split; try done. intros k Hk. lia.
  - destruct (call_total _ _ _ Hwf Hf Hs Hfit) as (s1 & H1 & Hwf1).
    destruct (call_clock _ _ _ H1) as (P1 & T1).
    assert (sane (par s1)) as Hs1 by now rewrite P1.
    assert (window_fits (par s1)) as Hfit1 by now rewrite P1.
    destruct (IH s1 (time0 ++ [t s1]) (mem0 ++ [mem s1]) Hwf1 Hf Hs1 Hfit1)
      as (times & mems & s & H & Hrun & Lt & Lm & Hk).
    exists (t s1 :: times), (mem s1 :: mems), s.
    split; [|split; [|split; [|split]]].
    + cbn [driver_loop]. unfold mbind, M_bind, get. rewrite H1, H.
      now rewrite <- !app_assoc.
    + cbn [replicate run_calls]. unfold mbind, M_bind. now rewrite H1.
    + simpl. now rewrite Lt.
    + simpl. now rewrite Lm.
    + intros [|k] Hlt.
      * exists s1. split.
        { cbn [replicate run_calls]. unfold mbind, M_bind.
          now rewrite H1. }
        split; [done|]. split; [done|]. split; [|done].
        rewrite T1. simpl. ring.
      * destruct (Hk k) as (sk & Hsk & Et & Em & Tk & Wk); [lia|].
        exists sk. split.
        { change (replicate (S (S k)) I_tot)
            with (I_tot :: replicate (S k) I_tot).
          cbn [run_calls]. unfold mbind, M_bind. now rewrite H1. }
        split; [done|]. split; [done|]. split; [|done].
        rewrite Tk, T1, P1, (S_INR (S k)). ring.
Qed.

Lemma py_int_main : py_int (150 / 0.01) = 15000%Z.
Proof.
  unfold py_int. rewrite decide_True by lra. apply Zfloor_eq. lra.
Qed.

(** * The claims *)

(** ** Construction *)

(** C5. Construction fails with [InvalidConfiguration] whenever the neuron
    count is less than 1 or the time step is not positive.  The check is the
    base class's, modelled from the spec; [aEIF.__init__] calls it before
    anything else. *)
Theorem init_invalid_configuration (N : Z) (method_ : string) (dt_ : R) :
  (N < 1)%Z \/ dt_ <= 0 ->
  __init__ N method_ dt_ = Raise InvalidConfiguration.
Proof.
  intros H. unfold __init__, Neurons__init__.
  destruct (decide (N < 1)%Z) as [|HN]; [done|].
  destruct (decide (dt_ <= 0)) as [|Hdt]; [done|].
  destruct H as [H|H]; [lia|contradiction].
Qed.

Lemma init_invalid_configuration_witness :
  __init__ 0 "euler" 0.25 = Raise InvalidConfiguration.
Proof.
  apply (init_invalid_configuration 0 "euler" 0.25). left. lia.
Defined.

(** ** The shape of the current *)

(** C4, as amended.  An array of currents whose length is neither the
    number of neurons nor one, sent to an ensemble that does not consist of
    a single neuron, makes the call raise NumPy's [ValueError] for operands
    that do not broadcast (the spec's DimensionMismatch), and the ensemble is
    as it was before the call.  [C] is not zero, or the call has raised
    [ZeroDivisionError] before; the other constants are free, [Delta_T] at
    zero included: the sum with the current comes before any assignment. *)
Theorem call_rejects_mismatch (self : aEIF) (n : nat) (ys : list R) :
  wf n self ->
  C (par self) <> 0 ->
  n <> 1%nat -> length ys <> n -> length ys <> 1%nat ->
  __call__ (Vector ys) self = (Raise ValueError, self).
Proof.
  intros (Lm & Lw & Lwt & Lvt & Lc) HC Hn Hys Hys1.
  unfold __call__, mbind, M_bind, get. simpl.
  unfold updateVar, mbind, M_bind, get, lift, assign.
  rewrite py_div_run by done.
  rewrite broadcast_same_length by len. unfold np_div.
  do 3 rewrite broadcast_same_length by len.
  simpl. rewrite broadcast_mismatch; [done|len|len|len].
Qed.

Lemma call_rejects_mismatch_witness :
  __call__ (Vector [0; 0; 0]) ensemble2 = (Raise ValueError, ensemble2).
Proof.
  apply (call_rejects_mismatch ensemble2 2 [0; 0; 0] wf_ensemble2);
    simpl; try lra; lia.
Defined.

(** C4 as stated fails: a current array whose length differs from the
    number of neurons is not always refused.  The array of one current is
    broadcast over the two neurons of [aEIF(2)], and the call returns; the
    array of two currents is taken by the one neuron of [aEIF(1)], and the
    call returns with two elements in [mem]. *)
Lemma mismatch_not_rejected :
  (length [0] <> 2%nat /\
   __call__ (Vector [0]) ensemble2 <> (Raise ValueError, ensemble2) /\
   exists self',
     __call__ (Vector [0]) ensemble2 = (Ok tt, self') /\ t self' = 0 + 0.25) /\
  (length [0; 0] <> 1%nat /\
   __call__ (Vector [0; 0]) ensemble1 <> (Raise ValueError, ensemble1) /\
   exists self',
     __call__ (Vector [0; 0]) ensemble1 = (Ok tt, self') /\
     length (mem self') = 2%nat /\ length (w self') = 1%nat /\
     length (counter self') = 1%nat).
Proof.
  split.
  - destruct one_current_two_neurons as (self' & H & Ht).
    split; [simpl; lia|]. split; [now rewrite H | eauto].
  - destruct two_currents_one_neuron as (self' & H & Hl).
    split; [simpl; lia|]. split; [now rewrite H | eauto].
Qed.

(** ** The continuous dynamics *)

(** C7. A neuron at rest (counter 0) whose membrane potential after the
    Euler update does not exceed [th] leaves the call with the explicit
    Euler values, both derivatives taken at the state before the call, and
    the clock has advanced by [dt].  With [t_spike] positive no block of the
    spike protocol selects such a neuron. *)
Theorem euler_step_at_rest (Io : operand) (self self' : aEIF) (i : nat)
    (m wi wt vt cur : R) :
  let p := par self in
  let I := cur + Iex p in
  let m' := m + dt p * (1 / C p)
                * (- g_L p * (m - E_L p)
                   + g_L p * Delta_T p * exp ((m - vt) / Delta_T p)
                   - wi + wt + I) in
  __call__ Io self = (Ok tt, self') ->
  mem self !! i = Some m -> w self !! i = Some wi ->
  w_tail self !! i = Some wt -> V_T self !! i = Some vt ->
  counter self !! i = Some 0%Z ->
  current_at Io i = Some cur ->
  0 < t_spike p ->
  m' <= th p ->
  mem self' !! i = Some m' /\
  w self' !! i = Some (wi + dt p * (1 / tau_w p) * (a p * (m - E_L p) - wi)) /\
  w_tail self' !! i = Some (wt - wt * dt p / tau_wtail p) /\
  V_T self' !! i
  = Some (VT_rest p * dt p / tau_VT p + (1 - dt p / tau_VT p) * vt) /\
  counter self' !! i = Some 0%Z /\
  t self' = t self + dt p.
Proof.
  intros p I m' H Hm Hw Hwt Hvt Hc Hcur Hts Hle.
  set (n := {| n_mem := m; n_w := wi; n_w_tail := wt; n_V_T := vt;
               n_counter := 0 |}).
  assert (neuron_at self i = Some n) as Hn by now apply neuron_at_Some.
  destruct (call_neuron _ _ _ _ _ _ H Hn Hcur) as (Hn' & _ & Ht).
  fold p in Hn', Ht. fold I in Hn'.
  assert (n_mem (neuron_updateVar p I n) = m') as Em.
  { unfold neuron_updateVar, dmem_dt_of, m'. simpl. ring. }
  assert (neuron_call p I n = neuron_updateVar p I n) as Ecall.
  { unfold neuron_call.
    assert (neuron_starts p (neuron_updateVar p I n) = neuron_updateVar p I n)
      as ->.
    { unfold neuron_starts, starts_cond. rewrite Em.
      now rewrite bool_decide_eq_false_2 by lra. }
    assert (neuron_active p (dw_dt_of p n) (neuron_updateVar p I n)
            = neuron_updateVar p I n) as ->.
    { unfold neuron_active, active_cond. simpl.
      now rewrite andb_false_r. }
    unfold neuron_end, end_cond. simpl.
    now rewrite bool_decide_eq_false_2 by lra. }
  rewrite Ecall in Hn'. apply neuron_at_Some in Hn' as (Rm & Rw & Rwt & Rvt & Rc).
  rewrite Em in Rm. simpl in Rw, Rwt, Rvt, Rc.
  repeat split; try done.
  rewrite Rw. f_equal. unfold dw_dt_of. simpl. ring.
Qed.

Lemma euler_step_at_rest_witness :
  exists self',
    __call__ (Scalar 0) ensemble1 = (Ok tt, self') /\
    w self' !! 0%nat
    = Some (0 + 0.25 * (1 / 144) * (4 * (-70.6 * 1 - -70.6) - 0)) /\
    w_tail self' !! 0%nat = Some (0 - 0 * 0.25 / 40) /\
    counter self' !! 0%nat = Some 0%Z /\
    t self' = 0 + 0.25.
Proof.
  destruct (call_total (Scalar 0) ensemble1 1%nat wf_ensemble1 I)
    as (self' & H & _); [apply sane_default; lra | apply window_fits_default |].
  assert (exp ((-70.6 * 1 - -50.4 * 1) / 2) < 1) as He
    by (apply exp_neg_lt_1; lra).
  destruct (euler_step_at_rest (Scalar 0) ensemble1 self' 0%nat
              (-70.6 * 1) 0 0 (-50.4 * 1) 0 H)
    as (_ & Ew & Ewt & _ & Ec & Et);
    [done | done | done | done | done | done | simpl; lra | simpl; lra |].
  exists self'. auto.
Defined.

(** ** The spike protocol *)

(** C1 at its failing input.  After the onset call the counter is 2; each
    of the next five calls moves it on by one, and the sixth takes it to 8
    and resets it in the same call.  The counter is back at 0 after 6
    further calls, where [ceil(t_spike / dt)] is 8. *)
Theorem spike_window_six_calls :
  Zceil (t_spike (par ensemble1) / dt (par ensemble1)) = 8%Z /\
  (forall j, (j < 6)%nat ->
     exists s,
       run_calls (Scalar 200000 :: replicate j (Scalar 0)) ensemble1
       = (Ok tt, s) /\
       counter s = [(Z.of_nat j + 2)%Z]) /\
  (exists s,
     run_calls (Scalar 200000 :: replicate 6 (Scalar 0)) ensemble1
     = (Ok tt, s) /\
     counter s = [0%Z]).
Proof.
  assert (forall j, Forall (fits 1) (replicate j (Scalar 0))) as Hfits.
  { intros j. now apply Forall_replicate. }
  split; [|split].
  - apply default_window_ticks.
  - intros j Hj.
    destruct (spike_window_run (replicate j (Scalar 0)))
      as (s & H & _ & _ & Hc & _); [rewrite length_replicate; lia | done |].
    exists s. split; [done|]. rewrite Hc, length_replicate.
    unfold window_counter. rewrite decide_False by lia. done.
  - destruct (spike_window_run (replicate 6 (Scalar 0)))
      as (s & H & _ & _ & Hc & _); [done | done |].
    exists s. split; [done|]. exact Hc.
Qed.

(** C2 at its failing input.  In that call the first block's index array
    and the second block's both hold the neuron: the onset branch and the
    active branch are applied to it in one call. *)
Theorem onset_and_active_in_one_call :
  exists s1 s2 starts actives self',
    updateVar (Scalar (200000 + 0)) ensemble1 = (Ok tt, s1) /\
    spike_starts (mem s1) s1 = Ok starts /\
    call_until_active (Scalar 200000) ensemble1 = (Ok tt, s2) /\
    active_spikes s2 = Ok actives /\
    __call__ (Scalar 200000) ensemble1 = (Ok tt, self') /\
    0%nat ∈ starts /\ 0%nat ∈ actives.
Proof.
  destruct ensemble1_onset_call as (self' & H & _).
  destruct (call_trace _ _ _ 0%nat neuron1 200000 H neuron1_at eq_refl)
    as (s1 & s2 & s3 & starts & actives & H1 & H2 & _ & Hst & Hac & Sst & Sac & _).
  destruct neuron1_onset as (Q1 & _ & _ & Q2 & _).
  exists s1, s2, starts, actives, self'.
  split; [exact H1|]. split; [exact Hst|]. split; [exact H2|].
  split; [exact Hac|]. split; [exact H|].
  split; [now apply Sst | now apply Sac].
Qed.

(** C3 at its failing input.  The first call takes the neuron of
    [aEIF(1)] over threshold with its counter at 0, and the first block's
    index array holds it; when the call returns its membrane potential is
    the waveform's value at tick 1, not 24.4, and its counter is 2, not 1. *)
Theorem onset_values_overwritten :
  exists s1 starts self',
    updateVar (Scalar (200000 + 0)) ensemble1 = (Ok tt, s1) /\
    spike_starts (mem s1) s1 = Ok starts /\ 0%nat ∈ starts /\
    __call__ (Scalar 200000) ensemble1 = (Ok tt, self') /\
    mem self' = [32.862 - 8.462 * 3 / 7] /\ counter self' = [2%Z].
Proof.
  destruct ensemble1_onset_call as (self' & H & _ & _ & Hm & _ & Hc).
  destruct (call_trace _ _ _ 0%nat neuron1 200000 H neuron1_at eq_refl)
    as (s1 & s2 & s3 & starts & actives & H1 & _ & _ & Hst & _ & Sst & _).
  destruct neuron1_onset as (Q1 & _).
  exists s1, starts, self'. split; [exact H1|]. split; [exact Hst|].
  split; [now apply Sst|]. auto.
Qed.

(** C6. A neuron that takes the End branch (at the third block's mask its
    counter has [dt * counter >= t_spike]) leaves the call with the reset
    membrane potential, its adaptation current raised by [b] over the value
    it had at that mask, the tail current at [w_jump], the threshold at
    [VT_jump + VT_rest] and the counter at 0. *)
Theorem end_branch_reset (Io : operand) (self s_end self' : aEIF)
    (i : nat) (c : Z) :
  __call__ Io self = (Ok tt, self') ->
  call_until_end Io self = (Ok tt, s_end) ->
  counter s_end !! i = Some c ->
  dt (par self) * IZR c >= t_spike (par self) ->
  exists w_end,
    w s_end !! i = Some w_end /\
    mem self' !! i = Some (E_L (par self) + 15 + 6.0984) /\
    w self' !! i = Some (w_end + b (par self)) /\
    w_tail self' !! i = Some (w_jump (par self)) /\
    V_T self' !! i = Some (VT_jump (par self) + VT_rest (par self)) /\
    counter self' !! i = Some 0%Z.
Proof.
  intros H H3 Hc Hge.
  apply call_Ok in H as (s3 & s4 & H3' & H4 & ->).
  assert (s3 = s_end) as -> by congruence.
  assert (par s_end = par self) as Hp.
  { apply call_until_end_Ok in H3 as (s2 & H2 & H3).
    apply call_until_active_Ok in H2 as (s1 & H1 & H2).
    apply updateVar_at in H1 as ((P1 & _) & _).
    apply spike_starts_block_at in H2 as ((P2 & _) & _).
    apply active_spikes_block_at in H3 as ((P3 & _) & _). congruence. }
  apply end_spikes_block_at in H4 as (_ & H4).
  specialize (H4 i c Hc). simpl in H4. rewrite Hp in H4.
  rewrite bool_decide_eq_true_2 in H4 by done.
  destruct H4 as (Ec & Em & Ew & Ewt & Evt & Hin).
  destruct (Hin eq_refl) as (Bm & Bw & Bwt & Bvt).
  apply lookup_lt_is_Some in Bm as [m Hm], Bw as [wi Hw],
    Bwt as [wt Hwt], Bvt as [vt Hvt].
  exists wi. simpl. eauto 10.
Qed.

Lemma end_branch_reset_witness :
  exists s s_end self',
    run_calls (Scalar 200000 :: replicate 5 (Scalar 0)) ensemble1
    = (Ok tt, s) /\
    call_until_end (Scalar 0) s = (Ok tt, s_end) /\
    counter s_end !! 0%nat = Some 8%Z /\
    __call__ (Scalar 0) s = (Ok tt, self') /\
    mem self' !! 0%nat = Some (-70.6 + 15 + 6.0984) /\
    w_tail self' !! 0%nat = Some 400 /\
    V_T self' !! 0%nat = Some (20 + -50.4) /\
    counter self' !! 0%nat = Some 0%Z.
Proof.
  destruct (spike_window_run (replicate 5 (Scalar 0)))
    as (s & H & Hwf & Hp & Hc & Hw);
    [simpl; lia | now apply Forall_replicate |].
  change (window_counter _) with 7%Z in Hc.
  destruct (call_single (Scalar 0) s Hwf)
    as (n & cur & self' & Hn & Hcur & H' & Hwf' & Hp' & Hn');
    [rewrite Hp; apply sane_default; lra
      | rewrite Hp; apply window_fits_default | done |].
  destruct (wf1_counter _ _ Hwf Hn) as (Lc & _).
  rewrite Hc in Lc. injection Lc as Lc.
  destruct (neuron_window_active (par s))
    with (I := cur + Iex (par s)) (d := dw_dt_of (par s) n) (n := n)
    as (_ & Ec & _); [now rewrite Hp | now rewrite Hp | lia |].
  destruct (call_trace _ _ _ 0%nat n cur H' Hn Hcur)
    as (s1 & s2 & s3 & starts & actives & _ & _ & H3 & _).
  destruct (call_until_end_neuron _ _ _ _ _ _ H3 Hn Hcur) as (N3 & _).
  apply neuron_at_Some in N3 as (_ & _ & _ & _ & Q3).
  rewrite Ec, <- Lc in Q3.
  assert (dt (par s) * IZR 8 >= t_spike (par s)) as Hge
    by (rewrite Hp; simpl; lra).
  destruct (end_branch_reset (Scalar 0) s s3 self' 0%nat 8%Z H' H3 Q3 Hge)
    as (w_end & _ & Em & _ & Ewt & Evt & Ec').
  rewrite Hp in Em, Ewt, Evt.
  exists s, s3, self'. auto 10.
Defined.

(** C9 at its failing input.  The sixth call after the onset finds the
    counter at 7: the second block selects the neuron and restores its
    adaptation current, the counter reaches 8, and the third block selects
    the neuron in the same call and adds [b].  The neuron took the active
    branch, and its adaptation current when the call returns is not the one
    it had before the call. *)
Theorem active_then_end_raises_w :
  exists s s2 s3 actives self',
    run_calls (Scalar 200000 :: replicate 5 (Scalar 0)) ensemble1
    = (Ok tt, s) /\
    w s = [0] /\
    call_until_active (Scalar 0) s = (Ok tt, s2) /\
    active_spikes s2 = Ok actives /\ 0%nat ∈ actives /\
    call_until_end (Scalar 0) s = (Ok tt, s3) /\ 0%nat ∈ end_spikes s3 /\
    __call__ (Scalar 0) s = (Ok tt, self') /\
    w self' = [0 + 0.0805].
Proof.
  destruct (spike_window_run (replicate 5 (Scalar 0)))
    as (s & H & Hwf & Hp & Hc & Hw);
    [simpl; lia | now apply Forall_replicate |].
  change (window_counter _) with 7%Z in Hc.
  change (window_w _) with 0 in Hw.
  destruct (call_single (Scalar 0) s Hwf)
    as (n & cur & self' & Hn & Hcur & H' & Hwf' & Hp' & Hn');
    [rewrite Hp; apply sane_default; lra
      | rewrite Hp; apply window_fits_default | done |].
  destruct (wf1_counter _ _ Hwf Hn) as (Lc & Lw & _).
  rewrite Hc in Lc. injection Lc as Lc.
  rewrite Hw in Lw. injection Lw as Lw.
  destruct (neuron_call_window (par s)) with (I := cur + Iex (par s)) (n := n)
    as (_ & Ew); [now rewrite Hp | now rewrite Hp | lia |].
  rewrite decide_True in Ew by done.
  destruct (neuron_window_active (par s))
    with (I := cur + Iex (par s)) (d := dw_dt_of (par s) n) (n := n)
    as (Hact & _ & Hend); [now rewrite Hp | now rewrite Hp | lia |].
  destruct (call_trace _ _ _ 0%nat n cur H' Hn Hcur)
    as (s1 & s2 & s3 & starts & actives & _ & H2 & H3 & _ & Hac & _ & Sac & Send).
  destruct (wf1_counter _ _ Hwf' Hn') as (_ & Lw' & _).
  exists s, s2, s3, actives, self'.
  split; [exact H|]. split; [exact Hw|]. split; [exact H2|].
  split; [exact Hac|]. split; [now apply Sac|]. split; [exact H3|].
  split; [apply Send; now apply Hend|]. split; [exact H'|].
  rewrite Lw', Ew, <- Lw, Hp. done.
Qed.

(** C10. When the second block selects a neuron (its counter is positive
    with [dt * counter < t_spike]) and [dt] is positive, the divisor
    [t_spike / dt - 1] of the waveform is positive: the division is not one
    by zero, and every quotient is a real number. *)
Theorem waveform_divisor_positive (self : aEIF) (idx : list nat) :
  active_spikes self = Ok idx -> idx <> [] -> 0 < dt (par self) ->
  exists k,
    conut (par self) = Ok k /\ 0 < k /\
    forall xs, np_div xs k = Fin <$> ((fun x => x / k) <$> xs).
Proof.
  intros Hidx Hne Hdt.
  exists (t_spike (par self) / dt (par self) - 1).
  assert (0 < t_spike (par self) / dt (par self) - 1) as Hk.
  { rewrite active_spikes_run in Hidx. injection Hidx as <-.
    destruct (np_where _) as [|i idx'] eqn:E; [done|].
    assert (i ∈ i :: idx') as Hi by (apply elem_of_cons; auto).
    rewrite <- E in Hi. apply elem_of_np_where in Hi.
    rewrite lookup_zip_with, !list_lookup_fmap in Hi.
    destruct (counter self !! i) as [c|]; [|done]. simpl in Hi.
    injection Hi as Hi. apply andb_true_iff in Hi as [H1 H2].
    apply bool_decide_eq_true_1 in H1, H2.
    exact (window_divisor_positive _ _ Hdt H2 H1). }
  split; [|split; [exact Hk|]].
  - unfold conut. now rewrite py_div_run by lra.
  - intros xs. apply np_div_run. lra.
Qed.

Lemma waveform_divisor_positive_witness :
  exists s k,
    __call__ (Scalar 200000) ensemble1 = (Ok tt, s) /\
    active_spikes s = Ok [0%nat] /\
    conut (par s) = Ok k /\ 0 < k.
Proof.
  destruct ensemble1_onset_call as (s & H & _ & Hp & _ & _ & Hc).
  assert (active_spikes s = Ok [0%nat]) as Hidx.
  { rewrite active_spikes_run, Hc, Hp. simpl.
    rewrite bool_decide_eq_true_2 by lra. reflexivity. }
  destruct (waveform_divisor_positive s [0%nat] Hidx) as (k & Hk & Hpos & _).
  - done.
  - rewrite Hp. simpl. lra.
  - exists s, k. auto.
Defined.

(** ** The counter *)

(** C8. After a call that returns, every counter has
    [0 <= dt * counter < t_spike]; a counter with [dt * counter >= t_spike]
    at the third block's mask is back at 0 when the call returns.  So, on
    the object the call leaves, the counter tells the mode of the neuron:
    it is positive exactly when the mask of the second block holds for the
    neuron (the neuron is inside the spike window), and 0 exactly when
    neither that mask nor the mask of the third block holds (no block of the
    spike protocol has a claim on the neuron: it follows the Euler update).
    The counters before the call are non-negative and below the top of their
    integer type; [dt] and [t_spike] are positive. *)
Theorem counter_in_window (Io : operand) (self self' : aEIF) :
  let p := par self in
  __call__ Io self = (Ok tt, self') ->
  0 < dt p -> 0 < t_spike p ->
  Forall (fun c => 0 <= c < 2 ^ 63 - 1)%Z (counter self) ->
  (forall i c',
     counter self' !! i = Some c' ->
     (0 <= c')%Z /\ 0 <= dt p * IZR c' < t_spike p) /\
  (forall s_end i c,
     call_until_end Io self = (Ok tt, s_end) ->
     counter s_end !! i = Some c ->
     dt p * IZR c >= t_spike p ->
     counter self' !! i = Some 0%Z) /\
  (exists actives,
     active_spikes self' = Ok actives /\
     forall i c',
       counter self' !! i = Some c' ->
       ((0 < c')%Z <-> i ∈ actives) /\
       (c' = 0%Z <-> (i ∉ actives) /\ (i ∉ end_spikes self'))).
Proof.
  intros p H Hdt Hts Hrange.
  pose proof (call_counters Io self self' H Hdt Hts Hrange) as Hwin.
  destruct (call_clock _ _ _ H) as (P' & _).
  split; [exact Hwin|]. split.
  - intros s_end i c Hend Hc Hge.
    apply call_Ok in H as (s3 & s4 & H3 & H4 & ->).
    assert (s3 = s_end) as -> by congruence.
    assert (par s_end = p) as P.
    { apply call_until_end_Ok in H3 as (s2 & H2 & H3).
      apply call_until_active_Ok in H2 as (s1 & H1 & H2).
      apply updateVar_at in H1 as ((P1 & _) & _).
      apply spike_starts_block_at in H2 as ((P2 & _) & _).
      apply active_spikes_block_at in H3 as ((P3 & _) & _).
      unfold p. congruence. }
    apply end_spikes_block_at in H4 as (_ & Q4).
    destruct (Q4 i c Hc) as (E4 & _). simpl. rewrite E4, P.
    now rewrite bool_decide_eq_true_2.
  - eexists. split; [apply active_spikes_run|].
    intros i c' Hc'. destruct (Hwin i c' Hc') as (Hc0 & _ & Hlt).
    assert ((0 < c')%Z <-> i ∈ np_where
              (zip_with andb
                 ((fun c => bool_decide (dt (par self') * IZR c
                                         < t_spike (par self')))
                    <$> counter self')
                 ((fun c => bool_decide (0 < c)%Z) <$> counter self')))
      as Hact.
    { rewrite elem_of_np_where, lookup_zip_with, !list_lookup_fmap, Hc', P'.
      simpl. rewrite bool_decide_eq_true_2 by done. simpl.
      split; [intros; now rewrite bool_decide_eq_true_2|].
      intros [= Hb]. now apply bool_decide_eq_true_1 in Hb. }
    assert (i ∉ end_spikes self') as Hend.
    { unfold end_spikes.
      rewrite elem_of_np_where, (end_mask_at _ _ _ _ Hc'), P'.
      intros [= Hb]. apply bool_decide_eq_true_1 in Hb. unfold p in *. lra. }
    split; [exact Hact|]. split.
    + intros ->. split; [|exact Hend]. rewrite <- Hact. lia.
    + intros [Hn _]. rewrite <- Hact in Hn. lia.
Qed.

Lemma counter_in_window_witness :
  exists s s_end self' actives,
    run_calls (Scalar 200000 :: replicate 5 (Scalar 0)) ensemble1
    = (Ok tt, s) /\
    counter s = [7%Z] /\
    call_until_end (Scalar 0) s = (Ok tt, s_end) /\
    counter s_end !! 0%nat = Some 8%Z /\ 0.25 * IZR 8 >= 2 /\
    __call__ (Scalar 0) s = (Ok tt, self') /\
    counter self' !! 0%nat = Some 0%Z /\
    active_spikes self' = Ok actives /\
    (0%nat ∉ actives) /\ (0%nat ∉ end_spikes self').
Proof.
  destruct (spike_window_run (replicate 5 (Scalar 0)))
    as (s & H & Hwf & Hp & Hc & Hw);
    [simpl; lia | now apply Forall_replicate |].
  change (window_counter _) with 7%Z in Hc.
  destruct (call_single (Scalar 0) s Hwf)
    as (n & cur & self' & Hn & Hcur & H' & Hwf' & Hp' & Hn');
    [rewrite Hp; apply sane_default; lra
      | rewrite Hp; apply window_fits_default | done |].
  destruct (wf1_counter _ _ Hwf Hn) as (Lc & _).
  rewrite Hc in Lc. injection Lc as Lc.
  destruct (neuron_window_active (par s))
    with (I := cur + Iex (par s)) (d := dw_dt_of (par s) n) (n := n)
    as (_ & Ec & _); [now rewrite Hp | now rewrite Hp | lia |].
  destruct (call_trace _ _ _ 0%nat n cur H' Hn Hcur)
    as (s1 & s2 & s3 & starts & actives & _ & _ & H3 & _).
  destruct (call_until_end_neuron _ _ _ _ _ _ H3 Hn Hcur) as (N3 & _).
  apply neuron_at_Some in N3 as (_ & _ & _ & _ & Q3).
  rewrite Ec, <- Lc in Q3.
  assert (dt (par s) * IZR 8 >= t_spike (par s)) as Hge
    by (rewrite Hp; simpl; lra).
  destruct (counter_in_window (Scalar 0) s self' H')
    as (_ & Hreset & actives' & Hact & Hmode).
  - rewrite Hp; simpl; lra.
  - rewrite Hp; simpl; lra.
  - rewrite Hc. repeat constructor; lia.
  - pose proof (Hreset s3 0%nat 8%Z H3 Q3 Hge) as Hc0.
    destruct (Hmode 0%nat 0%Z Hc0) as (_ & Hm0 & _).
    destruct (Hm0 eq_refl) as (Hna & Hne).
    rewrite Hp in Hge. simpl in Hge.
    exists s, s3, self', actives'. auto 12.
Defined.

(** * Further properties of the code *)

(** ** The length of the spike window, for any step *)

(** The spike window as the code runs it.  With [K = ceil(t_spike / dt)]: a
    neuron that the first block selects in a call has its counter at
    [j + 2] after [j] further calls while [j + 2 < K], and back at 0 after
    [K - 2] further calls (in the onset call itself when [K <= 2]). *)
Theorem spike_window_length (Io0 : operand) (Ios : list operand)
    (self s1 s : aEIF) (starts : list nat) (i : nat) (n : neuron) :
  let p := par self in
  let K := Zceil (t_spike p / dt p) in
  0 < dt p -> (K < 2 ^ 63)%Z ->
  neuron_at self i = Some n ->
  is_Some (current_at Io0 i) ->
  Forall (fun Io => is_Some (current_at Io i)) Ios ->
  updateVar (add_Iex Io0 (Iex p)) self = (Ok tt, s1) ->
  spike_starts (mem s1) s1 = Ok starts -> i ∈ starts ->
  run_calls (Io0 :: Ios) self = (Ok tt, s) ->
  (Z.of_nat (length Ios) + 2 <= Z.max K 2)%Z ->
  counter s !! i
  = Some (if decide (Z.of_nat (length Ios) + 2 < K)%Z
          then (Z.of_nat (length Ios) + 2)%Z else 0%Z).
Proof.
  intros p K Hdt HK Hn [cur0 Hcur0] Hcur H1 Hst Hin H Hlen.
  pose proof (current_at_add_Iex _ (Iex p) _ _ Hcur0) as Hcur0'.
  destruct (updateVar_neuron _ _ _ _ _ _ H1 Hn Hcur0') as (N1 & P1 & _).
  apply (spike_starts_selects _ _ _ _ Hst N1) in Hin.
  rewrite P1 in Hin. fold p in Hin. unfold starts_cond in Hin.
  apply andb_true_iff in Hin as [Hth Hc0].
  apply bool_decide_eq_true_1 in Hth, Hc0. simpl in Hc0.
  simpl in H. apply bind_Ok in H as ([] & s0 & H0 & H).
  destruct (call_neuron _ _ _ _ _ _ H0 Hn Hcur0) as (N0 & P0 & _).
  fold p in N0, P0.
  pose proof (neuron_call_onset p (cur0 + Iex p) n Hdt Hc0 Hth) as Ec.
  pose proof (window_bound p 2 Hdt) as Hw2. fold K in Hw2.
  destruct (decide (dt p * 2 < t_spike p)) as [Hlt|Hlt].
  - assert (2 < K)%Z as HK2 by now apply Hw2.
    pose proof (window_run Ios s0 s i (neuron_call p (cur0 + Iex p) n)) as Hrun.
    cbv zeta in Hrun. rewrite P0, Ec in Hrun. fold K in Hrun.
    destruct Hrun as (_ & n' & Hn' & Ec'); try done; try lia; try lra.
    apply neuron_at_Some in Hn' as (_ & _ & _ & _ & ->). rewrite Ec'.
    f_equal. destruct (decide (2 + Z.of_nat (length Ios) < K)%Z);
      [rewrite decide_True by lia | rewrite decide_False by lia]; lia.
  - assert (~ (2 < K)%Z) as HK2 by (intros HK2; now apply Hw2 in HK2).
    assert (length Ios = 0%nat) as Hnil by lia.
    apply length_zero_iff_nil in Hnil. subst Ios. simpl in H.
    injection H as <-.
    apply neuron_at_Some in N0 as (_ & _ & _ & _ & ->). rewrite Ec.
    simpl. now rewrite decide_False by lia.
Qed.

Lemma spike_window_length_witness :
  exists s,
    run_calls (Scalar 200000 :: replicate 6 (Scalar 0)) ensemble1
    = (Ok tt, s) /\
    counter s !! 0%nat = Some 0%Z.
Proof.
  destruct (spike_window_run (replicate 6 (Scalar 0)))
    as (s & H & _); [done | now apply Forall_replicate |].
  destruct ensemble1_onset_call as (s0 & H0 & _).
  destruct (call_trace _ _ _ 0%nat neuron1 200000 H0 neuron1_at eq_refl)
    as (s1 & _ & _ & starts & _ & H1 & _ & _ & Hst & _ & Sst & _).
  destruct neuron1_onset as (Q1 & _).
  exists s. split; [exact H|].
  rewrite (spike_window_length (Scalar 200000) (replicate 6 (Scalar 0))
             ensemble1 s1 s starts 0%nat neuron1).
  - change (par ensemble1) with (default_params 1 0.25).
    now rewrite default_window_ticks.
  - simpl; lra.
  - change (par ensemble1) with (default_params 1 0.25).
    rewrite default_window_ticks. lia.
  - exact neuron1_at.
  - now exists 200000.
  - apply Forall_replicate. now exists 0.
  - exact H1.
  - exact Hst.
  - now apply Sst.
  - exact H.
  - change (par ensemble1) with (default_params 1 0.25).
    rewrite default_window_ticks. simpl. lia.
Defined.

(** ** The adaptation current inside the window *)

(** A neuron that the second block selects and the third block does not
    leaves the call with the adaptation current it had before the call: the
    second block takes back exactly the increment of the Euler update. *)
Theorem active_branch_freezes_w (Io : operand) (self s2 s3 self' : aEIF)
    (actives : list nat) (i : nat) (n : neuron) :
  __call__ Io self = (Ok tt, self') ->
  neuron_at self i = Some n -> is_Some (current_at Io i) ->
  call_until_active Io self = (Ok tt, s2) ->
  active_spikes s2 = Ok actives -> i ∈ actives ->
  call_until_end Io self = (Ok tt, s3) -> i ∉ end_spikes s3 ->
  exists w', w self' !! i = Some w' /\ w' = n_w n.
Proof.
  intros H Hn [cur Hcur] H2 Hac Hin H3 Hnin.
  destruct (call_trace _ _ _ _ _ _ H Hn Hcur)
    as (s1 & s2' & s3' & starts & actives' & _ & H2' & H3' & _ & Hac' & _
        & Sac & Send).
  assert (s2' = s2) as -> by congruence.
  assert (s3' = s3) as -> by congruence.
  assert (actives' = actives) as -> by congruence.
  apply Sac in Hin.
  assert (end_cond (par self)
            (neuron_active (par self) (dw_dt_of (par self) n)
               (neuron_starts (par self)
                  (neuron_updateVar (par self) (cur + Iex (par self)) n)))
          = false) as Hend.
  { apply not_true_is_false. intros E. now apply Hnin, Send. }
  destruct (call_neuron _ _ _ _ _ _ H Hn Hcur) as (Hn' & _).
  apply neuron_at_Some in Hn' as (_ & Hw & _).
  eexists. split; [exact Hw|].
  unfold neuron_call, neuron_end. rewrite Hend.
  unfold neuron_active. rewrite Hin. simpl.
  unfold neuron_starts. destruct (starts_cond _ _); simpl; ring.
Qed.

Lemma active_branch_freezes_w_witness :
  exists self',
    __call__ (Scalar 200000) ensemble1 = (Ok tt, self') /\
    exists w', w self' !! 0%nat = Some w' /\ w' = 0.
Proof.
  destruct ensemble1_onset_call as (self' & H & _).
  destruct (call_trace _ _ _ 0%nat neuron1 200000 H neuron1_at eq_refl)
    as (s1 & s2 & s3 & starts & actives & _ & H2 & H3 & _ & Hac & _ & Sac
        & Send).
  destruct neuron1_onset as (_ & _ & _ & Q2 & _ & _ & _ & Q3 & _).
  exists self'. split; [exact H|].
  apply (active_branch_freezes_w (Scalar 200000) ensemble1 s2 s3 self'
           actives 0%nat neuron1 H neuron1_at).
  - now exists 200000.
  - exact H2.
  - exact Hac.
  - now apply Sac.
  - exact H3.
  - intros Hin. apply Send in Hin.
    enough (false = true) by done. rewrite <- Hin. symmetry. exact Q3.
Defined.

(** ** The dimension invariant *)

(** A call on a well-formed ensemble, with a current that is a float, an
    array of one element per neuron or an array of one element, returns and
    leaves every state array with one element per neuron.  The constants
    that the call divides by are not zero, [dt] is positive and
    [ceil(t_spike / dt)] fits the counters' integer type. *)
Theorem step_keeps_dimensions (Io : operand) (self : aEIF) (n : nat) :
  wf n self -> fits n Io -> sane (par self) -> window_fits (par self) ->
  exists self',
    __call__ Io self = (Ok tt, self') /\
    length (mem self') = n /\ length (w self') = n /\
    length (w_tail self') = n /\ length (V_T self') = n /\
    length (counter self') = n.
Proof. apply call_total. Qed.

Lemma step_keeps_dimensions_witness :
  exists self',
    __call__ (Scalar 1000) ensemble2 = (Ok tt, self') /\
    length (mem self') = 2%nat /\ length (w self') = 2%nat /\
    length (w_tail self') = 2%nat /\ length (V_T self') = 2%nat /\
    length (counter self') = 2%nat.
Proof.
  apply (step_keeps_dimensions (Scalar 1000) ensemble2 2 wf_ensemble2 I).
  - apply sane_default. lra.
  - apply window_fits_default.
Defined.

(** ** The counters along a run *)

(** The window is an invariant of the driver loop: counters that are
    non-negative with [dt * counter < t_spike] stay so through any run of
    calls that returns. *)
Theorem run_keeps_counters_in_window (Ios : list operand) (self s : aEIF) :
  let p := par self in
  0 < dt p -> 0 < t_spike p ->
  (Zceil (t_spike p / dt p) < 2 ^ 63)%Z ->
  Forall (fun c => (0 <= c)%Z /\ dt p * IZR c < t_spike p) (counter self) ->
  run_calls Ios self = (Ok tt, s) ->
  par s = p /\
  Forall (fun c => (0 <= c)%Z /\ dt p * IZR c < t_spike p) (counter s).
Proof.
  cbv zeta. revert self.
  induction Ios as [|Io Ios IH]; intros self Hdt Hts HK Hinv H; simpl in H.
  - now injection H as <-.
  - apply bind_Ok in H as ([] & s1 & H1 & H).
    destruct (call_clock _ _ _ H1) as (P1 & _).
    assert (Forall (fun c => (0 <= c)%Z /\
                             dt (par self) * IZR c < t_spike (par self))
              (counter s1)) as Hinv1.
    { apply Forall_lookup. intros i c' Hc'.
      destruct (call_counters Io self s1 H1 Hdt Hts) with (i := i) (c' := c')
        as (Hc0 & Hwin); [|done|split; [done|apply Hwin]].
      eapply Forall_impl; [exact Hinv|]. simpl. intros c [Hc Hlt].
      apply (window_bound _ _ Hdt) in Hlt. lia. }
    rewrite <- P1 in Hdt, Hts, HK, Hinv1.
    destruct (IH s1 Hdt Hts HK Hinv1 H) as (P & Hinv').
    rewrite P1 in P, Hinv'. done.
Qed.

Lemma run_keeps_counters_in_window_witness :
  exists s,
    run_calls [Scalar 200000; Scalar 0] ensemble1 = (Ok tt, s) /\
    Forall (fun c => (0 <= c)%Z /\ 0.25 * IZR c < 2) (counter s).
Proof.
  destruct (spike_window_run [Scalar 0]) as (s & H & _);
    [simpl; lia | now repeat constructor |].
  exists s. split; [exact H|].
  apply (run_keeps_counters_in_window [Scalar 200000; Scalar 0] ensemble1 s).
  - simpl; lra.
  - simpl; lra.
  - change (par ensemble1) with (default_params 1 0.25).
    rewrite default_window_ticks. lia.
  - repeat constructor; simpl; [lia|lra].
  - exact H.
Defined.

(** ** Neurons one by one *)

(** No neuron acts on another.  Two calls, on ensembles with the same
    constants, that find the same neuron at index [i] of the one and at
    index [j] of the other and send it the same current leave the same
    neuron there: what a call does to a neuron depends on that neuron and on
    its current alone. *)
Theorem neurons_do_not_interact (Io1 Io2 : operand)
    (self1 self2 self1' self2' : aEIF) (i j : nat) (nr : neuron) (cur : R) :
  par self1 = par self2 ->
  __call__ Io1 self1 = (Ok tt, self1') ->
  __call__ Io2 self2 = (Ok tt, self2') ->
  neuron_at self1 i = Some nr -> neuron_at self2 j = Some nr ->
  current_at Io1 i = Some cur -> current_at Io2 j = Some cur ->
  neuron_at self1' i = neuron_at self2' j.
Proof.
  intros Hp H1 H2 Hn1 Hn2 Hc1 Hc2.
  destruct (call_neuron _ _ _ _ _ _ H1 Hn1 Hc1) as (-> & _).
  destruct (call_neuron _ _ _ _ _ _ H2 Hn2 Hc2) as (-> & _).
  now rewrite Hp.
Qed.

Lemma neurons_do_not_interact_witness :
  exists self',
    __call__ (Vector [1000; 1000]) ensemble2 = (Ok tt, self') /\
    neuron_at self' 0 = neuron_at self' 1.
Proof.
  destruct (call_total (Vector [1000; 1000]) ensemble2 2%nat wf_ensemble2)
    as (self' & H & _);
    [now left | apply sane_default; lra | apply window_fits_default |].
  exists self'. split; [exact H|].
  apply (neurons_do_not_interact (Vector [1000; 1000]) (Vector [1000; 1000])
           ensemble2 ensemble2 self' self' 0 1 neuron1 1000
           eq_refl H H eq_refl eq_refl eq_refl eq_refl).
Defined.

(** A float current stands for the array that repeats it.  On a well-formed
    ensemble the call with the float, the call with the array that holds the
    float once for every neuron and the call with the array of that one
    float have the same outcome and leave the same object. *)
Theorem float_current_is_broadcast (self : aEIF) (n : nat) (x : R) :
  wf n self ->
  __call__ (Vector (replicate n x)) self = __call__ (Scalar x) self /\
  __call__ (Vector [x]) self = __call__ (Scalar x) self.
Proof.
  intros Hwf. split; apply (call_current _ _ self n Hwf); intros xs Hxs.
  - simpl add_Iex. rewrite fmap_replicate, <- Hxs.
    apply np_add_operand_full.
  - apply np_add_operand_one.
Qed.

Lemma float_current_is_broadcast_witness :
  __call__ (Vector [1000; 1000]) ensemble2 = __call__ (Scalar 1000) ensemble2 /\
  __call__ (Vector [1000]) ensemble2 = __call__ (Scalar 1000) ensemble2.
Proof.
  exact (float_current_is_broadcast ensemble2 2 1000 wf_ensemble2).
Defined.

(** ** Inside a spike *)

(** A neuron inside a spike (its counter is positive) does not see the
    current: two calls on one ensemble, with any two currents, leave it the
    same. *)
Theorem spiking_neuron_ignores_current (Io Io' : operand)
    (self self' self'' : aEIF) (i : nat) (nr : neuron) :
  __call__ Io self = (Ok tt, self') ->
  __call__ Io' self = (Ok tt, self'') ->
  neuron_at self i = Some nr -> (0 < n_counter nr)%Z ->
  is_Some (current_at Io i) -> is_Some (current_at Io' i) ->
  neuron_at self' i = neuron_at self'' i.
Proof.
  intros H H' Hn Hc [cur Hcur] [cur' Hcur'].
  destruct (call_neuron _ _ _ _ _ _ H Hn Hcur) as (-> & _).
  destruct (call_neuron _ _ _ _ _ _ H' Hn Hcur') as (-> & _).
  f_equal. now apply neuron_call_spiking.
Qed.

Lemma spiking_neuron_ignores_current_witness :
  exists s self' self'',
    __call__ (Scalar 200000) ensemble1 = (Ok tt, s) /\
    __call__ (Scalar 0) s = (Ok tt, self') /\
    __call__ (Vector [1000]) s = (Ok tt, self'') /\
    neuron_at self' 0 = neuron_at self'' 0.
Proof.
  destruct ensemble1_onset_call as (s & H & Hwf & Hp & _ & _ & Hc).
  assert (sane (par s)) as Hs by (rewrite Hp; apply sane_default; lra).
  assert (window_fits (par s)) as Hfit
    by (rewrite Hp; apply window_fits_default).
  destruct (call_total (Scalar 0) s 1%nat Hwf I Hs Hfit) as (self' & H' & _).
  destruct (call_total (Vector [1000]) s 1%nat Hwf) as (self'' & H'' & _);
    [now left | exact Hs | exact Hfit |].
  destruct (wf1_neuron _ Hwf) as (nr & Hn & _ & _ & _ & _ & Ec).
  exists s, self', self''. split; [exact H|]. split; [exact H'|].
  split; [exact H''|].
  apply (spiking_neuron_ignores_current (Scalar 0) (Vector [1000]) s self'
           self'' 0%nat nr H' H'' Hn).
  - rewrite Hc in Ec. injection Ec as <-. lia.
  - now exists 0.
  - now exists 1000.
Defined.

(** The course of a spike does not depend on how far the current took the
    neuron over the threshold: a neuron that the first block selects under
    one current leaves the call the same under any larger current ([C] and
    [dt] positive). *)
Theorem larger_current_same_spike (Io Io' : operand)
    (self s1 self' self'' : aEIF) (starts : list nat) (i : nat)
    (nr : neuron) (cur cur' : R) :
  let p := par self in
  0 < C p -> 0 < dt p ->
  __call__ Io self = (Ok tt, self') ->
  __call__ Io' self = (Ok tt, self'') ->
  neuron_at self i = Some nr ->
  current_at Io i = Some cur -> current_at Io' i = Some cur' ->
  cur <= cur' ->
  updateVar (add_Iex Io (Iex p)) self = (Ok tt, s1) ->
  spike_starts (mem s1) s1 = Ok starts -> i ∈ starts ->
  neuron_at self' i = neuron_at self'' i.
Proof.
  intros p HC Hdt H H' Hn Hcur Hcur' Hle H1 Hst Hin.
  pose proof (current_at_add_Iex _ (Iex p) _ _ Hcur) as Hcur1.
  destruct (updateVar_neuron _ _ _ _ _ _ H1 Hn Hcur1) as (N1 & P1 & _).
  apply (spike_starts_selects _ _ _ _ Hst N1) in Hin. rewrite P1 in Hin.
  destruct (call_neuron _ _ _ _ _ _ H Hn Hcur) as (-> & _).
  destruct (call_neuron _ _ _ _ _ _ H' Hn Hcur') as (-> & _).
  f_equal. apply neuron_call_onset_current; try done. lra.
Qed.

Lemma larger_current_same_spike_witness :
  exists self' self'',
    __call__ (Scalar 200000) ensemble1 = (Ok tt, self') /\
    __call__ (Scalar 300000) ensemble1 = (Ok tt, self'') /\
    neuron_at self' 0 = neuron_at self'' 0.
Proof.
  destruct ensemble1_onset_call as (self' & H & _).
  destruct (call_total (Scalar 300000) ensemble1 1%nat wf_ensemble1 I)
    as (self'' & H' & _); [apply sane_default; lra | apply window_fits_default |].
  destruct (call_trace _ _ _ 0%nat neuron1 200000 H neuron1_at eq_refl)
    as (s1 & _ & _ & starts & _ & H1 & _ & _ & Hst & _ & Sst & _).
  destruct neuron1_onset as (Q1 & _).
  exists self', self''. split; [exact H|]. split; [exact H'|].
  apply (larger_current_same_spike (Scalar 200000) (Scalar 300000) ensemble1
           s1 self' self'' starts 0%nat neuron1 200000 300000).
  - simpl. lra.
  - simpl. lra.
  - exact H.
  - exact H'.
  - exact neuron1_at.
  - reflexivity.
  - reflexivity.
  - lra.
  - exact H1.
  - exact Hst.
  - now apply Sst.
Defined.

(** A spike adds [b] to the adaptation current and nothing else (exact
    arithmetic, one step shorter than [t_spike]).  With
    [K = ceil(t_spike / dt)]: a neuron that the first block selects in a call
    has, after [j] further calls, the adaptation current it had before the
    onset call while [j + 2 < K], and that current plus [b] when
    [j + 2 = K]. *)
Theorem spike_raises_w_by_b (Io0 : operand) (Ios : list operand)
    (self s1 s : aEIF) (starts : list nat) (i : nat) (n : neuron) :
  let p := par self in
  let K := Zceil (t_spike p / dt p) in
  0 < dt p < t_spike p -> (K < 2 ^ 63)%Z ->
  neuron_at self i = Some n ->
  is_Some (current_at Io0 i) ->
  Forall (fun Io => is_Some (current_at Io i)) Ios ->
  updateVar (add_Iex Io0 (Iex p)) self = (Ok tt, s1) ->
  spike_starts (mem s1) s1 = Ok starts -> i ∈ starts ->
  run_calls (Io0 :: Ios) self = (Ok tt, s) ->
  (Z.of_nat (length Ios) + 2 <= K)%Z ->
  exists w',
    w s !! i = Some w' /\
    w' = if decide (Z.of_nat (length Ios) + 2 < K)%Z
         then n_w n else n_w n + b p.
Proof.
  intros p K [Hdt Hts] HK Hn [cur0 Hcur0] Hcur H1 Hst Hin H Hlen.
  pose proof (current_at_add_Iex _ (Iex p) _ _ Hcur0) as Hcur0'.
  destruct (updateVar_neuron _ _ _ _ _ _ H1 Hn Hcur0') as (N1 & P1 & _).
  apply (spike_starts_selects _ _ _ _ Hst N1) in Hin.
  rewrite P1 in Hin. fold p in Hin. unfold starts_cond in Hin.
  apply andb_true_iff in Hin as [Hth Hc0].
  apply bool_decide_eq_true_1 in Hth, Hc0. simpl in Hc0.
  simpl in H. apply bind_Ok in H as ([] & s0 & H0 & H).
  destruct (call_neuron _ _ _ _ _ _ H0 Hn Hcur0) as (N0 & P0 & _).
  fold p in N0, P0.
  pose proof (neuron_call_onset p (cur0 + Iex p) n Hdt Hc0 Hth) as Ec.
  assert (dt p * 1 < t_spike p) as Hts1 by lra.
  pose proof (neuron_call_onset_w p (cur0 + Iex p) n Hc0 Hth Hts1) as Ew.
  pose proof (window_bound p 2 Hdt) as Hw2. fold K in Hw2.
  destruct (decide (dt p * 2 < t_spike p)) as [Hlt|Hlt].
  - assert (2 < K)%Z as HK2 by now apply Hw2.
    pose proof (window_run_w Ios s0 s i (neuron_call p (cur0 + Iex p) n))
      as Hrun.
    cbv zeta in Hrun. rewrite P0, Ec, Ew in Hrun. fold K in Hrun.
    destruct Hrun as (n' & Hn' & Ew'); try done; try lia; try lra.
    apply neuron_at_Some in Hn' as (_ & Hw' & _).
    eexists. split; [exact Hw'|]. rewrite Ew'.
    destruct (decide (2 + Z.of_nat (length Ios) < K)%Z);
      [rewrite decide_True by lia | rewrite decide_False by lia]; done.
  - assert (~ (2 < K)%Z) as HK2 by (intros HK2; now apply Hw2 in HK2).
    assert (length Ios = 0%nat) as Hnil by lia.
    apply length_zero_iff_nil in Hnil. subst Ios. simpl in H.
    injection H as <-.
    apply neuron_at_Some in N0 as (_ & Hw' & _).
    eexists. split; [exact Hw'|]. rewrite Ew.
    simpl. now rewrite decide_False by lia.
Qed.

Lemma spike_raises_w_by_b_witness :
  exists s,
    run_calls (Scalar 200000 :: replicate 6 (Scalar 0)) ensemble1
    = (Ok tt, s) /\
    exists w', w s !! 0%nat = Some w' /\ w' = 0 + 0.0805.
Proof.
  destruct (spike_window_run (replicate 6 (Scalar 0)))
    as (s & H & _); [done | now apply Forall_replicate |].
  destruct ensemble1_onset_call as (s0 & H0 & _).
  destruct (call_trace _ _ _ 0%nat neuron1 200000 H0 neuron1_at eq_refl)
    as (s1 & _ & _ & starts & _ & H1 & _ & _ & Hst & _ & Sst & _).
  destruct neuron1_onset as (Q1 & _).
  exists s. split; [exact H|].
  destruct (spike_raises_w_by_b (Scalar 200000) (replicate 6 (Scalar 0))
              ensemble1 s1 s starts 0%nat neuron1) as (w' & Hw' & Ew').
  - simpl; lra.
  - change (par ensemble1) with (default_params 1 0.25).
    rewrite default_window_ticks. lia.
  - exact neuron1_at.
  - now exists 200000.
  - apply Forall_replicate. now exists 0.
  - exact H1.
  - exact Hst.
  - now apply Sst.
  - exact H.
  - change (par ensemble1) with (default_params 1 0.25).
    rewrite default_window_ticks. simpl. lia.
  - exists w'. split; [exact Hw'|]. rewrite Ew'.
    change (par ensemble1) with (default_params 1 0.25).
    rewrite default_window_ticks. simpl. reflexivity.
Defined.

(** ** What stays bounded *)

(** With a step of at most [tau_VT] and [VT_jump] not negative, thresholds
    between [VT_rest] and [VT_rest + VT_jump] stay there along any run of
    calls with currents that fit, and the run returns
    ([ceil(t_spike / dt)] fits the counters' integer type). *)
Theorem threshold_stays_in_band (n : nat) (Ios : list operand) (self : aEIF) :
  let p := par self in
  wf n self -> sane p -> window_fits p -> Forall (fits n) Ios ->
  dt p <= tau_VT p -> 0 <= VT_jump p ->
  Forall (fun v => VT_rest p <= v <= VT_rest p + VT_jump p) (V_T self) ->
  exists s,
    run_calls Ios self = (Ok tt, s) /\
    Forall (fun v => VT_rest p <= v <= VT_rest p + VT_jump p) (V_T s).
Proof.
  intros p Hwf Hs Hfit Hf Htau HJ Hband.
  assert (0 < dt p) as Hdt by apply Hs.
  destruct (run_invariant
              (fun nr => VT_rest p <= n_V_T nr <= VT_rest p + VT_jump p)
              n Ios self Hwf Hs Hfit Hf) as (s & H & Hwf' & _ & _ & HP).
  - intros I nr. now apply neuron_call_threshold_band.
  - intros i nr Hnr. apply neuron_at_Some in Hnr as (_ & _ & _ & Hv & _).
    rewrite Forall_lookup in Hband. exact (Hband _ _ Hv).
  - exists s. split; [exact H|].
    apply (wf_Forall_neuron V_T n_V_T _ s n Hwf'); [apply Hwf'| |exact HP].
    intros i nr Hnr. now apply neuron_at_Some in Hnr.
Qed.

Lemma threshold_stays_in_band_witness :
  exists s,
    run_calls [Scalar 1000; Vector [0; 200000]] ensemble2 = (Ok tt, s) /\
    Forall (fun v => -50.4 <= v <= -50.4 + 20) (V_T s).
Proof.
  apply (threshold_stays_in_band 2 [Scalar 1000; Vector [0; 200000]]
           ensemble2 wf_ensemble2).
  - apply sane_default. lra.
  - apply window_fits_default.
  - repeat constructor.
  - simpl. lra.
  - simpl. lra.
  - repeat constructor; simpl; lra.
Defined.

(** With a step of at most [tau_wtail] and [w_jump] not negative, tail
    currents between 0 and [w_jump] stay there along any run of calls with
    currents that fit, and the run returns
    ([ceil(t_spike / dt)] fits the counters' integer type). *)
Theorem tail_current_stays_in_band (n : nat) (Ios : list operand)
    (self : aEIF) :
  let p := par self in
  wf n self -> sane p -> window_fits p -> Forall (fits n) Ios ->
  dt p <= tau_wtail p -> 0 <= w_jump p ->
  Forall (fun x => 0 <= x <= w_jump p) (w_tail self) ->
  exists s,
    run_calls Ios self = (Ok tt, s) /\
    Forall (fun x => 0 <= x <= w_jump p) (w_tail s).
Proof.
  intros p Hwf Hs Hfit Hf Htau HJ Hband.
  assert (0 < dt p) as Hdt by apply Hs.
  destruct (run_invariant (fun nr => 0 <= n_w_tail nr <= w_jump p)
              n Ios self Hwf Hs Hfit Hf) as (s & H & Hwf' & _ & _ & HP).
  - intros I nr. now apply neuron_call_tail_band.
  - intros i nr Hnr. apply neuron_at_Some in Hnr as (_ & _ & Hv & _).
    rewrite Forall_lookup in Hband. exact (Hband _ _ Hv).
  - exists s. split; [exact H|].
    apply (wf_Forall_neuron w_tail n_w_tail _ s n Hwf'); [apply Hwf'| |exact HP].
    intros i nr Hnr. now apply neuron_at_Some in Hnr.
Qed.

Lemma tail_current_stays_in_band_witness :
  exists s,
    run_calls [Scalar 1000; Vector [0; 200000]] ensemble2 = (Ok tt, s) /\
    Forall (fun x => 0 <= x <= 400) (w_tail s).
Proof.
  apply (tail_current_stays_in_band 2 [Scalar 1000; Vector [0; 200000]]
           ensemble2 wf_ensemble2).
  - apply sane_default. lra.
  - apply window_fits_default.
  - repeat constructor.
  - simpl. lra.
  - simpl. lra.
  - repeat constructor; simpl; lra.
Defined.

(** The membrane potential a call leaves is clipped, however far the Euler
    step went: a neuron outside a spike (counter 0) is at or below [th], or
    at the reset value; a neuron inside a spike is on the waveform, at or
    below 32.862.  The counters before the call are not negative and
    [ceil(t_spike / dt)] fits their integer type. *)
Theorem membrane_clipped (Io : operand) (self : aEIF) (n : nat) :
  let p := par self in
  wf n self -> fits n Io -> sane p ->
  (- 2 ^ 63 <= Zceil (t_spike p / dt p) < 2 ^ 63)%Z ->
  Forall (fun c => 0 <= c)%Z (counter self) ->
  exists self',
    __call__ Io self = (Ok tt, self') /\
    forall i m' c',
      mem self' !! i = Some m' -> counter self' !! i = Some c' ->
      (c' = 0%Z /\ (m' <= th p \/ m' = E_L p + 15 + 6.0984)) \/
      ((0 < c')%Z /\ m' <= 32.862).
Proof.
  intros p Hwf Hf Hs Hfit Hcs.
  assert (0 < dt p) as Hdt by apply Hs.
  assert (Zceil (t_spike p / dt p) < 2 ^ 63)%Z as HK by apply Hfit.
  destruct (call_total _ _ _ Hwf Hf Hs Hfit) as (self' & H & Hwf').
  exists self'. split; [exact H|]. intros i m' c' Hm' Hc'.
  assert (i < n)%nat as Hi.
  { destruct Hwf' as (L & _). rewrite <- L. eauto using lookup_lt_Some. }
  destruct (wf_neuron_at _ _ _ Hwf Hi) as (nr & Hnr).
  destruct (fits_current_at _ _ _ Hf Hi) as (cur & Hcur).
  destruct (call_neuron _ _ _ _ _ _ H Hnr Hcur) as (Hn' & _).
  apply neuron_at_Some in Hn' as (Em & _ & _ & _ & Ec).
  rewrite Hm' in Em. rewrite Hc' in Ec. injection Em as ->. injection Ec as ->.
  assert (0 <= n_counter nr)%Z as Hc0.
  { apply neuron_at_Some in Hnr as (_ & _ & _ & _ & Hc).
    rewrite Forall_lookup in Hcs. exact (Hcs _ _ Hc). }
  destruct (neuron_call_membrane p (cur + Iex p) nr Hdt HK Hc0)
    as [?|(? & _ & ?)]; auto.
Qed.

Lemma membrane_clipped_witness :
  exists self',
    __call__ (Scalar 200000) ensemble1 = (Ok tt, self') /\
    forall i m' c',
      mem self' !! i = Some m' -> counter self' !! i = Some c' ->
      (c' = 0%Z /\ (m' <= 20 \/ m' = -70.6 + 15 + 6.0984)) \/
      ((0 < c')%Z /\ m' <= 32.862).
Proof.
  apply (membrane_clipped (Scalar 200000) ensemble1 1 wf_ensemble1 I).
  - apply sane_default. lra.
  - change (par ensemble1) with (default_params 1 0.25).
    rewrite default_window_ticks. lia.
  - repeat constructor. lia.
Defined.

(** ** The outcomes of a call *)

(** The constants that Python divides by.  On a well-formed ensemble, with
    a current that fits, no array divided by zero ([Delta_T] and
    [tau_wtail] are not zero), a step that is not negative and, unless it is
    zero, [ceil(t_spike / dt)] fitting the counters' integer type: a call
    returns exactly when [C], [tau_w], [tau_VT] and [dt] are not zero, and
    raises [ZeroDivisionError] exactly when one of them is. *)
Theorem call_returns_iff_constants (Io : operand) (self : aEIF) (n : nat) :
  let p := par self in
  wf n self -> fits n Io ->
  Delta_T p <> 0 -> tau_wtail p <> 0 ->
  0 <= dt p -> (dt p <> 0 -> window_fits p) ->
  ((exists self', __call__ Io self = (Ok tt, self')) <->
   C p <> 0 /\ tau_w p <> 0 /\ tau_VT p <> 0 /\ dt p <> 0) /\
  ((__call__ Io self).1 = Raise ZeroDivisionError <->
   C p = 0 \/ tau_w p = 0 \/ tau_VT p = 0 \/ dt p = 0).
Proof.
  intros p Hwf Hf HD Htt Hdt Hfit.
  assert (C p <> 0 /\ tau_w p <> 0 /\ tau_VT p <> 0 /\ dt p <> 0 ->
          exists self', __call__ Io self = (Ok tt, self')) as Hret.
  { intros (HC & Htw & HtV & Hdt').
    destruct (call_total Io self n Hwf Hf) as (self' & H & _);
      [|auto|eauto].
    unfold sane. fold p. repeat split; try done. lra. }
  split; split.
  - intros (self' & H). exact (call_constants _ _ _ H).
  - exact Hret.
  - intros Hraise.
    destruct (decide (C p = 0)) as [|HC]; [tauto|].
    destruct (decide (tau_w p = 0)) as [|Htw]; [tauto|].
    destruct (decide (tau_VT p = 0)) as [|HtV]; [tauto|].
    destruct (decide (dt p = 0)) as [|Hdt']; [tauto|].
    destruct Hret as (self' & H); [tauto|]. now rewrite H in Hraise.
  - now apply (call_zero_division Io self n).
Qed.

Lemma call_returns_iff_constants_witness :
  (exists self', __call__ (Scalar 1000) ensemble2 = (Ok tt, self')) /\
  exists self,
    _vars (_params (2%Z, "euler"%string, 0)) = Ok self /\
    (__call__ (Scalar 1000) self).1 = Raise ZeroDivisionError.
Proof.
  split.
  - apply (call_returns_iff_constants (Scalar 1000) ensemble2 2 wf_ensemble2 I).
    + simpl. lra.
    + simpl. lra.
    + simpl. lra.
    + intros _. apply window_fits_default.
    + simpl. repeat split; lra.
  - eexists. split; [now apply vars_params|].
    apply (call_returns_iff_constants (Scalar 1000) _ 2).
    + unfold wf. simpl. done.
    + exact I.
    + simpl. lra.
    + simpl. lra.
    + simpl. lra.
    + simpl. lra.
    + simpl. auto.
Defined.

(** Whatever the outcome of a call, the constants are as they were.  The
    clock has advanced by [dt] if the call returned, and is as it was if the
    call raised. *)
Theorem clock_advances_on_return_only (Io : operand) (self : aEIF) :
  par (__call__ Io self).2 = par self /\
  match (__call__ Io self).1 with
  | Ok _ => t (__call__ Io self).2 = t self + dt (par self)
  | Raise _ => t (__call__ Io self).2 = t self
  | NonFinite => True
  end.
Proof.
  unfold __call__, mbind, M_bind, get, assign.
  destruct (updateVar_keeps_clock (add_Iex Io (Iex (par self))) self)
    as [P1 T1].
  destruct (updateVar _ self) as [[[]|e|] s1]; simpl in *; [|done|done].
  destruct (spikes_eval_keeps_clock (mem s1) s1) as [P2 T2].
  destruct (_spikes_eval _ s1) as [[[]|e|] s2]; simpl in *;
    (split; [congruence | first [done | congruence]]).
Qed.

(** An ensemble of one neuron takes an array of several currents, the one
    neuron being repeated against them, until one of them, at an index other
    than 0, takes the potential over the threshold.  Then the first block
    writes 24.4 into [mem], which has the length of the currents by now, the
    write into the one-element [counter] raises [IndexError], and the call
    ends with [mem] replaced, the counter and the clock as they were. *)
Theorem long_current_on_one_neuron (self : aEIF) (ys : list R) (nr : neuron)
    (j : nat) (y : R) :
  let p := par self in
  wf 1 self -> sane p ->
  neuron_at self 0 = Some nr -> n_counter nr = 0%Z ->
  (1 <= j)%nat -> ys !! j = Some y ->
  n_mem (neuron_updateVar p (y + Iex p) nr) > th p ->
  exists s,
    __call__ (Vector ys) self = (Raise IndexError, s) /\
    length (mem s) = length ys /\ mem s !! j = Some 24.4 /\
    counter s = counter self /\ t s = t self.
Proof.
  intros p Hwf (HC & HD & Htw & Htt & HtV & Hdt) Hnr Hc0 Hj Hy Hth.
  destruct (wf1_neuron _ Hwf) as (nr' & Hnr' & Em & Ew & Ewt & Evt & Ec).
  assert (nr' = nr) as -> by congruence.
  assert (length ys <> 1%nat) as Hlen.
  { apply lookup_lt_Some in Hy. lia. }
  unfold __call__, mbind, M_bind, get. simpl add_Iex.
  unfold updateVar, mbind, M_bind, get, lift, assign. fold p.
  rewrite Em, Ew, Ewt, Evt.
  rewrite !py_div_run by done.
  rewrite (broadcast_same_length Rminus [_] [_]) by done.
  unfold np_div. simpl. rewrite !fl_div_run by done. real_values.
  rewrite broadcast_one_l by now rewrite !length_fmap. real_arrays.
  rewrite broadcast_one_l by now rewrite !length_fmap. real_arrays.
  simpl.
  unfold _spikes_eval, spike_starts_block, mbind, M_bind, get, lift, assign.
  simpl. unfold spike_starts, starts_mask. simpl. rewrite Ec, Hc0. simpl.
  rewrite broadcast_one_r by now rewrite !length_fmap.
  simpl.
  match goal with
  | |- context [setitem_scalar ?m (np_where ?k) 24.4] =>
      set (mask := k); set (mem1 := m)
  end.
  assert (mask !! j = Some true) as Hmask.
  { unfold mask. rewrite !list_lookup_fmap, Hy. simpl.
    rewrite andb_true_r. f_equal. apply bool_decide_eq_true_2. exact Hth. }
  assert (length mask = length ys) as Lmask.
  { unfold mask. now rewrite !length_fmap. }
  assert (length mem1 = length ys) as Lmem1.
  { unfold mem1. now rewrite !length_fmap. }
  destruct (setitem_scalar_total mem1 (np_where mask) 24.4)
    as (mem2 & E2 & L2); [apply np_where_bound_le; lia|].
  rewrite E2.
  assert (setitem_scalar [0%Z] (np_where mask) 1%Z = Raise IndexError) as ->.
  { unfold setitem_scalar. rewrite decide_False; [done|].
    intros Hall. rewrite Forall_forall in Hall.
    apply elem_of_np_where in Hmask. apply Hall in Hmask. simpl in Hmask. lia. }
  eexists. split; [reflexivity|]. simpl.
  split; [lia|]. split; [|now rewrite Ec, Hc0].
  apply setitem_scalar_ok in E2 as [_ E2]. rewrite E2.
  rewrite decide_True by now apply elem_of_np_where.
  assert (is_Some (mem1 !! j)) as [m1 ->]; [|done].
  apply lookup_lt_is_Some. rewrite Lmem1. eauto using lookup_lt_Some.
Qed.

Lemma long_current_on_one_neuron_witness :
  exists s,
    __call__ (Vector [0; 200000]) ensemble1 = (Raise IndexError, s) /\
    length (mem s) = 2%nat /\ mem s !! 1%nat = Some 24.4 /\
    counter s = [0%Z] /\ t s = 0.
Proof.
  apply (long_current_on_one_neuron ensemble1 [0; 200000] neuron1 1 200000
           wf_ensemble1).
  - apply sane_default. lra.
  - exact neuron1_at.
  - reflexivity.
  - lia.
  - reflexivity.
  - apply neuron1_over_threshold.
Defined.

(** [dw_dt] is created by [updateVar], not by the constructor: on a
    well-formed object without it (with [dt] positive and
    [ceil(t_spike / dt)] fitting the counters' integer type)
    [_spikes_eval] raises [AttributeError], in its second block; the clock
    is as it was. *)
Theorem spikes_eval_needs_updateVar (self : aEIF) (n : nat) :
  wf n self -> 0 < dt (par self) -> window_fits (par self) ->
  dw_dt self = None ->
  exists s,
    _spikes_eval (mem self) self = (Raise AttributeError, s) /\
    t s = t self.
Proof.
  intros Hwf Hdt Hfit Hdw.
  destruct (spike_starts_block_total (mem self) self n Hwf)
    as (s2 & H2 & Hwf2 & D2 & P2); [apply Hwf|].
  destruct (active_spikes_block_no_dw_dt s2 n Hwf2) as (s3 & H3 & T3 & _);
    [congruence | now rewrite P2 | now rewrite P2 |].
  pose proof H2 as H2'.
  apply spike_starts_block_at in H2' as ((_ & T2 & _) & _).
  exists s3. split; [|congruence].
  unfold _spikes_eval, mbind, M_bind. now rewrite H2, H3.
Qed.

Lemma spikes_eval_needs_updateVar_witness :
  exists s, _spikes_eval (mem ensemble2) ensemble2 = (Raise AttributeError, s).
Proof.
  destruct (spikes_eval_needs_updateVar ensemble2 2 wf_ensemble2)
    as (s & H & _);
    [simpl; lra | apply window_fits_default | reflexivity | eauto].
Defined.

(** A step so small that [round(conut / 2)] does not fit the counters'
    integer type makes a call raise [OverflowError], in the second block of
    the spike protocol, whether or not a neuron is inside a spike.  The
    Euler update and the first block have run by then: the object holds
    their values, and the clock is as it was. *)
Theorem tiny_step_overflows (Io : operand) (self : aEIF) (n : nat) :
  let p := par self in
  wf n self -> fits n Io -> sane p ->
  ~ (- 2 ^ 63 <= py_round ((t_spike p / dt p - 1) / 2) < 2 ^ 63)%Z ->
  exists s1 s2,
    updateVar (add_Iex Io (Iex p)) self = (Ok tt, s1) /\
    spike_starts_block (mem s1) s1 = (Ok tt, s2) /\
    __call__ Io self = (Raise OverflowError, s2) /\
    t s2 = t self.
Proof.
  intros p Hwf Hf Hs Hout.
  assert (fits n (add_Iex Io (Iex p))) as Hf'.
  { destruct Io; simpl in *; [done|]. now rewrite length_fmap. }
  destruct (updateVar_total _ _ _ Hwf Hf' Hs) as (s1 & dw & H1 & W1 & _).
  destruct (spike_starts_block_total (mem s1) s1 n W1)
    as (s2 & H2 & W2 & _ & P2); [apply W1|].
  pose proof H1 as H1'. apply updateVar_at in H1' as ((P1 & T1 & _) & _).
  pose proof H2 as H2'.
  apply spike_starts_block_at in H2' as ((_ & T2 & _) & _).
  exists s1, s2. split; [exact H1|]. split; [exact H2|].
  split; [|congruence].
  unfold __call__, mbind, M_bind, get. fold p. rewrite H1.
  unfold _spikes_eval, mbind, M_bind. rewrite H2.
  rewrite (active_spikes_block_overflow s2 n W2); [done| |];
    rewrite P2, P1; [apply Hs | exact Hout].
Qed.

Lemma tiny_step_overflows_witness :
  exists self s,
    _vars (_params (1%Z, "euler"%string, 1 / 100000000000000000000))
    = Ok self /\
    __call__ (Scalar 0) self = (Raise OverflowError, s) /\ t s = 0.
Proof.
  eexists. rewrite (vars_params 1 "euler" (1 / 100000000000000000000)) by lia.
  set (self := {| par := _; t := 0 |}).
  destruct (tiny_step_overflows (Scalar 0) self 1)
    as (s1 & s2 & _ & _ & H & Ht).
  - unfold wf. simpl. done.
  - exact I.
  - unfold sane. simpl. repeat split; lra.
  - simpl. intros [_ Hhi].
    pose proof (py_round_bounds
                  ((2 / (1 / 100000000000000000000) - 1) / 2)) as [Hlo _].
    apply IZR_lt in Hhi.
    change (2 ^ 63)%Z with 9223372036854775808%Z in Hhi.
    replace (2 / (1 / 100000000000000000000)) with 200000000000000000000
      in * by (field; lra).
    lra.
  - exists s2. split; [reflexivity|]. split; [exact H | exact Ht].
Defined.

(** [Delta_T] at zero does not make a call raise: NumPy divides by zero,
    warns and goes on.  Where every membrane potential is below its
    threshold the quotients are -inf, their exponentials 0, and the
    exponential term of [dmem_dt] is gone: the Euler update is the leaky
    one, and the call returns (the other constants that a call divides by
    are not zero, [dt] is positive and [ceil(t_spike / dt)] fits the
    counters' integer type). *)
Theorem zero_Delta_T_below_threshold (Io : operand) (self : aEIF) (n : nat) :
  let p := par self in
  wf n self -> fits n Io ->
  Delta_T p = 0 ->
  C p <> 0 -> tau_w p <> 0 -> tau_wtail p <> 0 -> tau_VT p <> 0 ->
  0 < dt p -> window_fits p ->
  (forall i m vt,
     mem self !! i = Some m -> V_T self !! i = Some vt -> m < vt) ->
  exists s1 self',
    updateVar (add_Iex Io (Iex p)) self = (Ok tt, s1) /\
    (forall i m wi wt vt cur,
       mem self !! i = Some m -> w self !! i = Some wi ->
       w_tail self !! i = Some wt -> V_T self !! i = Some vt ->
       current_at Io i = Some cur ->
       mem s1 !! i
       = Some (m + 1 / C p
                   * (- g_L p * (m - E_L p) - wi + wt + (cur + Iex p))
                   * dt p)) /\
    __call__ Io self = (Ok tt, self') /\
    t self' = t self + dt p.
Proof.
  intros p Hwf Hf HD HC Htw Htt HtV Hdt Hfit Hbelow.
  assert (fits n (add_Iex Io (Iex p))) as Hf'.
  { destruct Io; simpl in *; [done|]. now rewrite length_fmap. }
  assert (Forall (fun x => x < 0) (zip_with Rminus (mem self) (V_T self)))
    as Hneg.
  { apply Forall_lookup. intros i x Hx.
    apply lookup_zip_with_Some in Hx as (m & vt & -> & Hm & Hvt).
    pose proof (Hbelow i m vt Hm Hvt). lra. }
  destruct (updateVar_run _ self n Hwf Hf' (or_intror Hneg) Htt)
    as [Hok _].
  destruct (Hok HC Htw HtV) as (s1 & dw & H1 & W1 & D1 & L1).
  destruct (call_after_update Io self s1 dw n H1 W1 D1 L1 Hdt Hfit)
    as (self' & H & _).
  exists s1, self'. split; [exact H1|]. split; [|split; [exact H|]].
  - intros i m wi wt vt cur Hm Hw Hwt Hvt Hcur.
    apply (current_at_add_Iex _ (Iex p)) in Hcur.
    apply updateVar_at in H1 as (_ & _ & dw' & _ & H1).
    destruct (H1 _ _ _ _ _ _ Hm Hw Hwt Hvt Hcur) as (_ & -> & _).
    f_equal. fold p. rewrite HD. ring.
  - now apply call_clock in H as [_ ->].
Qed.

Lemma zero_Delta_T_below_threshold_witness :
  exists s1 self',
    updateVar (Scalar (1000 + 0)) (with_Delta_T 0 ensemble2) = (Ok tt, s1) /\
    mem s1 !! 0%nat
    = Some (-70.6 * 1
            + 1 / 281 * (- (30) * (-70.6 * 1 - -70.6) - 0 + 0 + (1000 + 0))
              * 0.25) /\
    __call__ (Scalar 1000) (with_Delta_T 0 ensemble2) = (Ok tt, self') /\
    t self' = 0 + 0.25.
Proof.
  destruct (zero_Delta_T_below_threshold (Scalar 1000)
              (with_Delta_T 0 ensemble2) 2)
    as (s1 & self' & H1 & Hm & H & Ht).
  - unfold wf. simpl. done.
  - exact I.
  - reflexivity.
  - simpl. lra.
  - simpl. lra.
  - simpl. lra.
  - simpl. lra.
  - simpl. lra.
  - unfold window_fits. simpl.
    assert (Zceil (2 / 0.25) = 8%Z) as -> by (apply Zceil_eq; lra). lia.
  - intros [|[|i]] m vt; simpl; try done; intros [= <-] [= <-]; lra.
  - exists s1, self'. split; [exact H1|]. split; [|split; [exact H|exact Ht]].
    now apply (Hm 0%nat _ 0 0 (-50.4 * 1) 1000).
Defined.

(** ** The ensemble of the constructor *)

(** From the constructor on.  The ensemble that [_params] and [_vars] build
    for [N >= 0] neurons and a step [0 < dt <= 40], with [ceil(2 / dt)]
    fitting the counters' type, takes any run of currents that fit: every
    call returns, the clock counts the calls, and after the run every
    membrane potential is at most 32.862, every threshold between -50.4 and
    -30.4, every tail current between 0 and 400, and every counter inside
    the spike window. *)
Theorem constructed_ensemble_stays_bounded (N : Z) (method_ : string)
    (dt_ : R) (Ios : list operand) :
  (0 <= N)%Z -> 0 < dt_ <= 40 -> (Zceil (2 / dt_) < 2 ^ 63)%Z ->
  Forall (fits (Z.to_nat N)) Ios ->
  exists self s,
    _vars (_params (N, method_, dt_)) = Ok self /\
    run_calls Ios self = (Ok tt, s) /\
    t s = INR (length Ios) * dt_ /\
    wf (Z.to_nat N) s /\
    Forall (fun m => m <= 32.862) (mem s) /\
    Forall (fun v => -50.4 <= v <= -30.4) (V_T s) /\
    Forall (fun x => 0 <= x <= 400) (w_tail s) /\
    Forall (fun c => (0 <= c)%Z /\ dt_ * IZR c < 2) (counter s).
Proof.
  intros HN Hdt HK Hf.
  eexists. rewrite (vars_params N method_ dt_ HN).
  set (self := {| par := _; t := 0 |}).
  set (p := par self).
  assert (wf (Z.to_nat N) self) as Hwf.
  { unfold wf. simpl. now rewrite !length_replicate. }
  assert (sane p) as Hs by (unfold sane; simpl; repeat split; lra).
  assert (window_fits p) as Hfit
    by (apply (window_fits_params (N, method_, dt_)); [simpl; lra | done]).
  set (P := fun nr : neuron =>
              n_mem nr <= 32.862 /\ -50.4 <= n_V_T nr <= -30.4 /\
              0 <= n_w_tail nr <= 400 /\
              (0 <= n_counter nr)%Z /\ dt_ * IZR (n_counter nr) < 2).
  destruct (run_invariant P (Z.to_nat N) Ios self Hwf Hs Hfit Hf)
    as (s & H & Hwf' & _ & Ht & HP).
  - intros I nr (Hm & Hv & Hwt & Hc & Hwin). fold p.
    assert (0 < dt p) as Hdt' by (simpl; lra).
    pose proof (neuron_call_membrane p I nr Hdt' HK Hc) as Hmem.
    pose proof (neuron_call_threshold_band p I nr) as Hband.
    pose proof (neuron_call_tail_band p I nr) as Htail.
    pose proof (neuron_call_counter p I nr Hdt' HK Hc) as [Hc' Hwin'].
    simpl in Hmem, Hband, Htail, Hwin'.
    split; [|split; [|split; [|split]]].
    + destruct Hmem as [(_ & [?| ->])|(_ & _ & ?)]; lra.
    + assert (-50.4 + 20 = -30.4) as <- by lra. apply Hband; lra.
    + apply Htail; lra.
    + exact Hc'.
    + apply Hwin'. lra.
  - intros i nr Hnr. apply neuron_at_Some in Hnr as (Hm & _ & Hwt & Hv & Hc).
    simpl in Hm, Hwt, Hv, Hc. unfold P.
    apply lookup_replicate in Hm as [-> _], Hwt as [-> _], Hv as [-> _],
      Hc as [-> _].
    rewrite Rmult_0_r. repeat split; try lra. lia.
  - exists s. split; [reflexivity|]. split; [exact H|].
    split; [rewrite Ht; simpl; ring|]. split; [exact Hwf'|].
    destruct Hwf' as (Lm & Lw & Lwt & Lvt & Lc).
    assert (wf (Z.to_nat N) s) as Hwf' by done.
    split; [|split; [|split]].
    + apply (wf_Forall_neuron mem n_mem _ s _ Hwf' Lm).
      * intros i nr Hnr. now apply neuron_at_Some in Hnr.
      * intros i nr Hnr. apply HP in Hnr. unfold P in Hnr. tauto.
    + apply (wf_Forall_neuron V_T n_V_T _ s _ Hwf' Lvt).
      * intros i nr Hnr. now apply neuron_at_Some in Hnr.
      * intros i nr Hnr. apply HP in Hnr. unfold P in Hnr. tauto.
    + apply (wf_Forall_neuron w_tail n_w_tail _ s _ Hwf' Lwt).
      * intros i nr Hnr. now apply neuron_at_Some in Hnr.
      * intros i nr Hnr. apply HP in Hnr. unfold P in Hnr. tauto.
    + apply (wf_Forall_neuron counter n_counter _ s _ Hwf' Lc).
      * intros i nr Hnr. now apply neuron_at_Some in Hnr.
      * intros i nr Hnr. apply HP in Hnr. unfold P in Hnr. tauto.
Qed.

Lemma constructed_ensemble_stays_bounded_witness :
  exists self s,
    _vars (_params (2%Z, "euler"%string, 0.25)) = Ok self /\
    run_calls [Scalar 1000; Vector [0; 200000]; Vector [5]] self = (Ok tt, s) /\
    t s = INR 3 * 0.25 /\
    Forall (fun m => m <= 32.862) (mem s).
Proof.
  destruct (constructed_ensemble_stays_bounded 2 "euler" 0.25
              [Scalar 1000; Vector [0; 200000]; Vector [5]])
    as (self & s & Hinit & H & Ht & _ & Hm & _).
  - lia.
  - lra.
  - assert (Zceil (2 / 0.25) = 8%Z) as -> by (apply Zceil_eq; lra). lia.
  - repeat (apply Forall_cons; split; [first [exact I | now left | now right]|]).
    apply Forall_nil_2.
  - exists self, s. auto.
Defined.

(** Currents of at most 400 pA in size never make a neuron of the
    constructor's ensemble fire ([0 < dt <= 1], with [ceil(2 / dt)] fitting
    the counters' integer type): along any run of such calls the counters
    stay 0, the membrane potentials between -86.6 and -52.6 mV, the
    thresholds at -50.4 mV and the tail currents at 0. *)
Theorem weak_currents_never_fire (N : Z) (method_ : string) (dt_ : R)
    (Ios : list operand) :
  (0 <= N)%Z -> 0 < dt_ <= 1 -> (Zceil (2 / dt_) < 2 ^ 63)%Z ->
  Forall (fits (Z.to_nat N)) Ios ->
  Forall (current_all (fun x => -400 <= x <= 400)) Ios ->
  exists self s,
    _vars (_params (N, method_, dt_)) = Ok self /\
    run_calls Ios self = (Ok tt, s) /\
    Forall (fun c => c = 0%Z) (counter s) /\
    Forall (fun m => -86.6 <= m <= -52.6) (mem s) /\
    Forall (fun v => v = -50.4) (V_T s) /\
    Forall (fun x => x = 0) (w_tail s).
Proof.
  intros HN Hdt HK Hf HQ.
  eexists. rewrite (vars_params N method_ dt_ HN).
  set (self := {| par := _; t := 0 |}).
  assert (wf (Z.to_nat N) self) as Hwf.
  { unfold wf. simpl. now rewrite !length_replicate. }
  assert (sane (par self)) as Hs by (unfold sane; simpl; repeat split; lra).
  assert (window_fits (par self)) as Hfit
    by (apply (window_fits_params (N, method_, dt_)); [simpl; lra | done]).
  destruct (run_invariant_in (unfired (-86.6) (-52.6) (-64) 72) _
              (Z.to_nat N) Ios self Hwf Hs Hfit Hf HQ)
    as (s & H & Hwf' & _ & _ & HP).
  - intros cur nr Hcur Hu.
    apply (unfired_weak_current (N, method_, dt_)); [done| |done].
    simpl. lra.
  - intros i nr Hnr. apply vars_params_unfired in Hnr.
    revert Hnr. apply unfired_weaken; lra.
  - exists s. split; [reflexivity|]. split; [exact H|].
    pose proof Hwf' as (Lm & Lw & Lwt & Lvt & Lc).
    split; [|split; [|split]].
    + apply (wf_Forall_neuron counter n_counter _ s _ Hwf' Lc).
      * intros i nr Hnr. now apply neuron_at_Some in Hnr.
      * intros i nr Hnr. now apply HP in Hnr as (? & _).
    + apply (wf_Forall_neuron mem n_mem _ s _ Hwf' Lm).
      * intros i nr Hnr. now apply neuron_at_Some in Hnr.
      * intros i nr Hnr. now apply HP in Hnr as (_ & _ & _ & ? & _).
    + apply (wf_Forall_neuron V_T n_V_T _ s _ Hwf' Lvt).
      * intros i nr Hnr. now apply neuron_at_Some in Hnr.
      * intros i nr Hnr. now apply HP in Hnr as (_ & ? & _).
    + apply (wf_Forall_neuron w_tail n_w_tail _ s _ Hwf' Lwt).
      * intros i nr Hnr. now apply neuron_at_Some in Hnr.
      * intros i nr Hnr. now apply HP in Hnr as (_ & _ & ? & _).
Qed.

Lemma weak_currents_never_fire_witness :
  exists self s,
    _vars (_params (2%Z, "euler"%string, 0.25)) = Ok self /\
    run_calls [Scalar 400; Vector [-400; 150]; Vector [0]] self = (Ok tt, s) /\
    Forall (fun c => c = 0%Z) (counter s).
Proof.
  destruct (weak_currents_never_fire 2 "euler" 0.25
              [Scalar 400; Vector [-400; 150]; Vector [0]])
    as (self & s & Hinit & H & Hc & _).
  - lia.
  - lra.
  - assert (Zceil (2 / 0.25) = 8%Z) as -> by (apply Zceil_eq; lra). lia.
  - repeat (apply Forall_cons; split; [first [exact I | now left | now right]|]).
    apply Forall_nil_2.
  - repeat (apply Forall_cons; split;
            [simpl; repeat (apply Forall_cons; split; [lra|]);
             first [apply Forall_nil_2 | lra]|]).
    apply Forall_nil_2.
  - exists self, s. auto.
Defined.

(** Currents of at least 1000 pA make every neuron of the constructor's
    ensemble fire ([0 < dt < 1], with [ceil(2 / dt)] fitting the counters'
    integer type).  Before its first spike the membrane
    potential gains at least [91.6 / 281] mV per ms, so among calls that
    span more than [90.6 * 281 / 91.6] ms (about 278 ms) one leaves the
    neuron with its counter at 2 and its potential at the waveform's value
    for tick 1. *)
Theorem strong_current_fires (N : Z) (method_ : string) (dt_ : R)
    (Ios : list operand) (i : nat) :
  (0 <= N)%Z -> (i < Z.to_nat N)%nat -> 0 < dt_ < 1 ->
  (Zceil (2 / dt_) < 2 ^ 63)%Z ->
  Forall (fits (Z.to_nat N)) Ios ->
  Forall (current_all (fun x => 1000 <= x)) Ios ->
  90.6 * 281 < 91.6 * (INR (length Ios) * dt_) ->
  exists self k s,
    _vars (_params (N, method_, dt_)) = Ok self /\
    (k < length Ios)%nat /\
    run_calls (take (S k) Ios) self = (Ok tt, s) /\
    counter s !! i = Some 2%Z /\
    mem s !! i
    = Some (32.862 - waveform_height (2 / dt_ - 1) 1 / (2 / dt_ - 1)).
Proof.
  intros HN Hi Hdt HK Hf HQ Hlen.
  eexists. rewrite (vars_params N method_ dt_ HN).
  set (self := {| par := _; t := 0 |}).
  assert (wf (Z.to_nat N) self) as Hwf.
  { unfold wf. simpl. now rewrite !length_replicate. }
  destruct (wf_neuron_at _ _ _ Hwf Hi) as (nr & Hnr).
  pose proof (vars_params_unfired _ _ _ _ _ Hnr) as Hu.
  destruct (fires_or_climbs (N, method_, dt_) Ios self (Z.to_nat N) i nr
              (-70.6) eq_refl Hwf Hdt HK Hf HQ Hnr)
    as [(k & s & Hk & H & Hc)|(s & nr' & _ & _ & Hu')].
  - lra.
  - revert Hu. apply unfired_weaken; lra.
  - exists k, s. auto.
  - exfalso. destruct Hu' as (_ & _ & _ & Hm & _). simpl in Hm. nra.
Qed.

Lemma strong_current_fires_witness :
  exists self k s,
    _vars (_params (2%Z, "euler"%string, 0.25)) = Ok self /\
    (k < Z.to_nat 1200)%nat /\
    run_calls (take (S k) (replicate (Z.to_nat 1200) (Scalar 1000))) self
    = (Ok tt, s) /\
    counter s !! 0%nat = Some 2%Z.
Proof.
  destruct (strong_current_fires 2 "euler" 0.25
              (replicate (Z.to_nat 1200) (Scalar 1000)) 0)
    as (self & k & s & Hinit & Hk & H & Hc & _).
  - lia.
  - lia.
  - lra.
  - assert (Zceil (2 / 0.25) = 8%Z) as -> by (apply Zceil_eq; lra). lia.
  - now apply Forall_replicate.
  - apply Forall_replicate. simpl. lra.
  - rewrite length_replicate, INR_IZR_INZ, Z2Nat.id by lia. lra.
  - rewrite length_replicate in Hk. exists self, k, s. auto.
Defined.

(** ** The driver *)

(** The loop of the driver on a well-formed ensemble, with a current that
    fits (the constants that a call divides by are not zero, [dt] is
    positive and [ceil(t_spike / dt)] fits the counters' integer type): the
    [Tn] calls return, each of the two lists gets [Tn] entries, and entry
    [k] holds the clock [t + (k + 1) * dt] and the membrane potentials, one
    per neuron, of the object after [k + 1] calls. *)
Theorem driver_loop_records_every_call (I_tot : operand) (Tn : nat)
    (self : aEIF) (n : nat) :
  wf n self -> fits n I_tot -> sane (par self) -> window_fits (par self) ->
  exists time mem_ s,
    driver_loop I_tot Tn [] [] self = (Ok (time, mem_), s) /\
    run_calls (replicate Tn I_tot) self = (Ok tt, s) /\
    length time = Tn /\ length mem_ = Tn /\
    forall k, (k < Tn)%nat ->
      exists sk,
        run_calls (replicate (S k) I_tot) self = (Ok tt, sk) /\
        time !! k = Some (t self + INR (S k) * dt (par self)) /\
        mem_ !! k = Some (mem sk) /\ length (mem sk) = n.
Proof.
  intros Hwf Hf Hs Hfit.
  destruct (driver_loop_run I_tot Tn self n [] [] Hwf Hf Hs Hfit)
    as (times & mems & s & H & Hrun & Lt & Lm & Hk).
  exists times, mems, s. split; [exact H|]. split; [exact Hrun|].
  split; [exact Lt|]. split; [exact Lm|].
  intros k Hlt. destruct (Hk k Hlt) as (sk & Hsk & Et & Em & Tk & Wk).
  exists sk. split; [exact Hsk|]. split; [now rewrite Et, Tk|].
  split; [exact Em | apply Wk].
Qed.

Lemma driver_loop_records_every_call_witness :
  exists time mem_ s,
    driver_loop (Scalar 1000) 3 [] [] ensemble2 = (Ok (time, mem_), s) /\
    length time = 3%nat /\
    exists sk,
      run_calls (replicate 3 (Scalar 1000)) ensemble2 = (Ok tt, sk) /\
      time !! 2%nat = Some (0 + INR 3 * 0.25) /\
      mem_ !! 2%nat = Some (mem sk).
Proof.
  destruct (driver_loop_records_every_call (Scalar 1000) 3 ensemble2 2
              wf_ensemble2 I) as (time & mem_ & s & H & _ & Lt & _ & Hk).
  - apply sane_default. lra.
  - apply window_fits_default.
  - destruct (Hk 2%nat) as (sk & Hsk & Et & Em & _); [lia|].
    exists time, mem_, s. split; [exact H|]. split; [exact Lt|].
    exists sk. auto.
Defined.

(** The driver of the module returns.  It records 15000 samples of two
    membrane potentials each; the first time is 0.25 and the last 3750 ms,
    the ensemble running at its default step of 0.25 ms and not at [Tstep];
    and one of the first 1200 samples shows neuron 0 at the waveform's value
    for tick 1, [32.862 - 8.462 * 3 / 7]: a spike began in that call. *)
Theorem main_runs_3750_ms :
  exists time mem_,
    main = Ok (time, mem_) /\
    length time = Z.to_nat 15000 /\ length mem_ = Z.to_nat 15000 /\
    time !! 0%nat = Some 0.25 /\
    last time = Some 3750 /\
    Forall (fun snapshot => length snapshot = 2%nat) mem_ /\
    exists k snapshot,
      (k < Z.to_nat 1200)%nat /\ mem_ !! k = Some snapshot /\
      snapshot !! 0%nat = Some (32.862 - 8.462 * 3 / 7).
Proof.
  unfold main. cbv zeta. rewrite init_ensemble2.
  unfold mbind at 1, result_bind at 1. cbv beta iota.
  rewrite py_div_run by lra.
  unfold mbind at 1, result_bind at 1. cbv beta iota.
  rewrite py_int_main.
  destruct (driver_loop_run (Scalar 1000) (Z.to_nat 15000) ensemble2 2 [] []
              wf_ensemble2 I) as (times & mems & s & H & _ & Lt & Lm & Hk);
    [apply sane_default; lra | apply window_fits_default |].
  rewrite H. exists times, mems. split; [done|].
  split; [exact Lt|]. split; [exact Lm|].
  assert (0 < Z.to_nat 15000)%nat as Hpos by lia.
  split; [|split; [|split]].
  - destruct (Hk 0%nat Hpos) as (sk & _ & Et & _ & Tk & _).
    rewrite Et, Tk. f_equal. simpl. lra.
  - rewrite last_lookup, Lt.
    replace (Init.Nat.pred (Z.to_nat 15000)) with (Z.to_nat 14999) by lia.
    destruct (Hk (Z.to_nat 14999)) as (sk & _ & Et & _ & Tk & _); [lia|].
    rewrite Et, Tk. f_equal.
    rewrite S_INR, INR_IZR_INZ, Z2Nat.id by lia. simpl. lra.
  - apply Forall_lookup. intros k snapshot Hsnap.
    assert (k < Z.to_nat 15000)%nat as Hlt.
    { rewrite <- Lm. eauto using lookup_lt_Some. }
    destruct (Hk k Hlt) as (sk & _ & _ & Em & _ & Wk).
    rewrite Hsnap in Em. injection Em as ->. apply Wk.
  - destruct (fires_or_climbs (2%Z, "euler"%string, 0.25)
                (replicate (Z.to_nat 1200) (Scalar 1000)) ensemble2 2 0
                neuron1 (-70.6) eq_refl wf_ensemble2)
      as [(k & sk & Hlt & Hrun & _ & Hmem)|(_ & nr' & _ & _ & Hu)].
    + simpl. lra.
    + simpl. assert (Zceil (2 / 0.25) = 8%Z) as -> by (apply Zceil_eq; lra).
      lia.
    + now apply Forall_replicate.
    + apply Forall_replicate. simpl. lra.
    + reflexivity.
    + lra.
    + unfold unfired, neuron1. simpl. repeat split; lra.
    + rewrite length_replicate in Hlt.
      rewrite take_replicate, Nat.min_l in Hrun by lia.
      destruct (Hk k) as (sk' & Hrun' & _ & Em & _); [lia|].
      assert (sk' = sk) as -> by congruence.
      exists k, (mem sk). split; [exact Hlt|]. split; [exact Em|].
      rewrite Hmem. f_equal. apply default_waveform_first_tick.
    + exfalso. destruct Hu as (_ & _ & _ & Hm & _).
      rewrite length_replicate, INR_IZR_INZ, Z2Nat.id in Hm by lia.
      simpl in Hm. lra.
Qed.
